(** * Reference-counted shared ownership: [SharedPtr], [WeakPtr] and their
      control blocks ([smart_pointers.h])

    A shallow embedding of the header.  Control blocks live in a heap that
    maps addresses to cells; the two handle classes are records of two
    nullable pointers; every member function that touches a control block
    is a computation over the memory which either completes, throws, or has
    undefined behaviour (a null or dangling control-block pointer is
    dereferenced).  Calls of the virtual [destroy()] and [deallocate()] are
    recorded in a log, in program order.  A payload is known by the handles
    it contains, which its destructor destroys when [destroy()] runs. *)

From Stdlib Require Import ZArith Lia List.
From stdpp Require Import base option list gmap.

Local Open Scope Z_scope.

(** ** Machine integers and pointers *)

(** [size_t] is 64 bits wide; [++] and [--] wrap around. *)
Definition SIZE_MAX : Z := 18446744073709551615.

Definition size_wrap (z : Z) : Z := z mod (SIZE_MAX + 1).

Definition pre_incr (z : Z) : Z := size_wrap (z + 1).
Definition pre_decr (z : Z) : Z := size_wrap (z - 1).

(** A value is representable in [size_t]. *)
Definition is_size (z : Z) : Prop := 0 <= z <= SIZE_MAX.

Definition addr := N.

(** A nullable pointer: [None] is [nullptr]. *)
Definition pointer := option addr.
Definition nullptr : pointer := None.

(** [reinterpret_cast<T*>(this + 1)]: the payload of an inline block starts
    right behind the block header.  Addresses are counted in header-sized
    units.  The header's size does not depend on the allocator here: this
    one function stands for [this + 1] in
    [MakeSharedControlBlock<T, std::allocator<T>>], the type that the
    accessors of [SharedPtr] cast to, and in
    [MakeSharedControlBlock<T, Alloc>], the type that [allocateShared]
    constructs. *)
Definition get_ptr (this : addr) : addr := (this + 1)%N.

(** ** Handles *)

Record SharedPtr := mkSharedPtr { sp_ptr : pointer; sp_cb : pointer }.
Record WeakPtr := mkWeakPtr { wp_ptr : pointer; wp_cb : pointer }.

(** ** Control blocks *)

(** The dynamic type of a control block selects the overrides of
    [destroy()] and [deallocate()]. *)
Inductive block_kind :=
| MakeSharedControlBlock                (* payload inline, at [this + 1] *)
| ControlBlock (ptr : pointer).         (* payload elsewhere, deleter + allocator *)

Record BaseControlBlock := mkBlock {
  shared : Z;
  weak : Z;
  kind : block_kind
}.

(** [EnableSharedFromThis<T>]: the base sub-object of a self-observing
    payload. *)
Record EnableSharedFromThis := mkESFT { wptr : WeakPtr }.

(** A payload object, as far as the handles inside it go: its
    [EnableSharedFromThis] base, if its type derives from it, and its
    [WeakPtr] data members, in declaration order. *)
Record Object := mkObject {
  base : option EnableSharedFromThis;
  members : list WeakPtr
}.

(** A cell of allocator storage: raw bytes, or a constructed block. *)
Inductive cell :=
| Raw
| Block (b : BaseControlBlock).

Inductive event :=
| EvDestroy (a : addr)        (* [destroy()] was called on the block at [a] *)
| EvDeallocate (a : addr).    (* [deallocate()] was called on the block at [a] *)

Record Memory := mkMemory {
  heap : gmap addr cell;
  (* the live payload objects, by address *)
  objects : gmap addr Object;
  log : list event
}.

Inductive undefined :=
| NullDereference
| InvalidAccess (a : addr).

Inductive exception :=
| bad_alloc
| ctor_exception.

(** ** Computations *)

Inductive outcome (A : Type) :=
| Done (x : A) (m : Memory)
| Throw (e : exception) (m : Memory)
| Undefined (u : undefined).

Arguments Done {A} x m.
Arguments Throw {A} e m.
Arguments Undefined {A} u.

Definition M (A : Type) : Type := Memory -> outcome A.

Definition ret {A} (x : A) : M A := fun m => Done x m.

Definition bind {A B} (c : M A) (k : A -> M B) : M B :=
  fun m =>
    match c m with
    | Done x m' => k x m'
    | Throw e m' => Throw e m'
    | Undefined u => Undefined u
    end.

Definition throw {A} (e : exception) : M A := fun m => Throw e m.

Notation "'do' x <- c ; k" := (bind c (fun x => k))
  (at level 10, x name, c at level 100, k at level 200).
Notation "'do' ' p <- c ; k" := (bind c (fun x => match x with p => k end))
  (at level 10, p pattern, c at level 100, k at level 200).
Notation "c ;; k" := (bind c (fun _ => k))
  (at level 100, k at level 200, right associativity).

(** [c] runs; when it throws, [cleanup] runs on the way out and the
    exception propagates. *)
Definition unwinding {A} (c : M A) (cleanup : Memory -> Memory) : M A :=
  fun m =>
    match c m with
    | Throw e m' => Throw e (cleanup m')
    | r => r
    end.

(** ** Access to a control block through a pointer *)

(** [cb->...]: the pointer must be non-null and designate a constructed,
    not yet deallocated block. *)
Definition deref (cb : pointer) : M (addr * BaseControlBlock) :=
  fun m =>
    match cb with
    | None => Undefined NullDereference
    | Some a =>
        match heap m !! a with
        | Some (Block b) => Done (a, b) m
        | _ => Undefined (InvalidAccess a)
        end
    end.

Definition put (a : addr) (b : BaseControlBlock) : M unit :=
  fun m => Done tt (mkMemory (<[a := Block b]> (heap m)) (objects m) (log m)).

Definition emit (e : event) : M unit :=
  fun m => Done tt (mkMemory (heap m) (objects m) (log m ++ [e])).

(** [cb->shared] and [cb->weak] as rvalues. *)
Definition read_shared (cb : pointer) : M Z :=
  do '(_, b) <- deref cb; ret (shared b).

Definition read_weak (cb : pointer) : M Z :=
  do '(_, b) <- deref cb; ret (weak b).

(** [++cb->shared], [--cb->shared], [++cb->weak], [--cb->weak]. *)
Definition incr_shared (cb : pointer) : M unit :=
  do '(a, b) <- deref cb; put a (mkBlock (pre_incr (shared b)) (weak b) (kind b)).

Definition decr_shared (cb : pointer) : M unit :=
  do '(a, b) <- deref cb; put a (mkBlock (pre_decr (shared b)) (weak b) (kind b)).

Definition incr_weak (cb : pointer) : M unit :=
  do '(a, b) <- deref cb; put a (mkBlock (shared b) (pre_incr (weak b)) (kind b)).

Definition decr_weak (cb : pointer) : M unit :=
  do '(a, b) <- deref cb; put a (mkBlock (shared b) (pre_decr (weak b)) (kind b)).

(** [cb->deallocate()]: both overrides hand the block's storage back to the
    rebound allocator. *)
Definition deallocate (cb : pointer) : M unit :=
  do '(a, _) <- deref cb;
  fun m => Done tt (mkMemory (delete a (heap m)) (objects m) (log m ++ [EvDeallocate a])).

(** [WeakPtr<T>::clear()]: the handle as it is left behind.  It stands here
    because a payload's destructor runs it on the payload's members. *)
Definition WeakPtr_clear (this : WeakPtr) : M WeakPtr :=
  match wp_cb this with
  | None => ret this
  | Some _ =>
      decr_weak (wp_cb this) ;;
      do s <- read_shared (wp_cb this);
      do w <- read_weak (wp_cb this);
      (if (s =? 0) && (w =? 0) then deallocate (wp_cb this) else ret tt) ;;
      ret (mkWeakPtr nullptr nullptr)
  end.

(** [~WeakPtr()]. *)
Definition WeakPtr_dtor (this : WeakPtr) : M unit :=
  WeakPtr_clear this ;; ret tt.

Fixpoint destroy_all (ws : list WeakPtr) : M unit :=
  match ws with
  | [] => ret tt
  | w :: ws' => WeakPtr_dtor w ;; destroy_all ws'
  end.

(** The payload's destructor [~T()]: the data members are destroyed in
    reverse order of declaration, then the base. *)
Definition Object_dtor (o : Object) : M unit :=
  destroy_all (rev (members o)) ;;
  match base o with
  | Some e => WeakPtr_dtor (wptr e)
  | None => ret tt
  end.

(** The payload's lifetime has ended. *)
Definition end_lifetime (q : addr) : M unit :=
  fun m => Done tt (mkMemory (heap m) (delete q (objects m)) (log m)).

(** [p->~T()], which [std::allocator_traits<Alloc>::destroy] and the
    default deleter both run; a payload that is not among the objects has
    no handle inside it, and [delete] of a null pointer does nothing. *)
Definition destroy_payload (p : pointer) : M unit :=
  fun m =>
    match p with
    | None => Done tt m
    | Some q =>
        match objects m !! q with
        | Some o => (Object_dtor o ;; end_lifetime q) m
        | None => Done tt m
        end
    end.

(** Where the payload of a block lives. *)
Definition payload_of (a : addr) (k : block_kind) : pointer :=
  match k with
  | MakeSharedControlBlock => Some (get_ptr a)
  | ControlBlock ptr => ptr
  end.

(** [cb->destroy()]: [MakeSharedControlBlock::destroy] destroys the payload
    in place, [ControlBlock::destroy] calls [del(ptr)]. *)
Definition destroy (cb : pointer) : M unit :=
  do '(a, b) <- deref cb;
  emit (EvDestroy a) ;;
  match kind b with
  | MakeSharedControlBlock => destroy_payload (Some (get_ptr a))
  | ControlBlock ptr => destroy_payload ptr
  end.

(** The sub-objects of a block whose constructor body threw are destroyed:
    its storage holds no object any more. *)
Definition unconstruct (a : addr) (m : Memory) : Memory :=
  mkMemory (<[a := Raw]> (heap m)) (objects m) (log m).

(** ** Allocators *)

(** The allocator strategy is supplied by the caller; all that matters here
    is whether its [allocate] succeeds. *)
Record Alloc := mkAlloc { allocate_fails : bool }.

Definition default_allocator : Alloc := mkAlloc false.

(** [ControlBlockAllocTraits::allocate(cb_alloc, 1)]: fresh raw storage, or
    [bad_alloc].  Storage has no extent here: a cell of the heap is
    storage for one block, and nothing records how many bytes lie
    behind it. *)
Definition allocate (alloc : Alloc) : M addr :=
  fun m =>
    if allocate_fails alloc then Throw bad_alloc m
    else
      let a := fresh (dom (heap m)) in
      Done a (mkMemory (<[a := Raw]> (heap m)) (objects m) (log m)).

(** ** SharedPtr *)

(** [SharedPtr<T>::SharedPtr() = default]. *)
Definition SharedPtr_ctor : SharedPtr := mkSharedPtr nullptr nullptr.

(** [SharedPtr(T* ptr, const Deleter& del, Alloc alloc)] and its [Y*]
    twin: one fresh [ControlBlock] with counts (1, 0). *)
Definition SharedPtr_ctor_ptr (ptr : pointer) (alloc : Alloc) : M SharedPtr :=
  do _cb <- allocate alloc;
  put _cb (mkBlock 1 0 (ControlBlock ptr)) ;;
  ret (mkSharedPtr ptr (Some _cb)).

(** [SharedPtr(const SharedPtr<Y>& shptr)], the covariant copy
    constructor. *)
Definition SharedPtr_copy_ctor_Y (shptr : SharedPtr) : M SharedPtr :=
  incr_shared (sp_cb shptr) ;;
  ret (mkSharedPtr (sp_ptr shptr) (sp_cb shptr)).

(** [SharedPtr(const SharedPtr& shptr)]. *)
Definition SharedPtr_copy_ctor (shptr : SharedPtr) : M SharedPtr :=
  match sp_cb shptr with
  | Some _ => incr_shared (sp_cb shptr) ;; ret (mkSharedPtr (sp_ptr shptr) (sp_cb shptr))
  | None => ret (mkSharedPtr (sp_ptr shptr) (sp_cb shptr))
  end.

(** [SharedPtr(SharedPtr&& shptr)] and [SharedPtr(SharedPtr<Y>&& shptr)]:
    the new handle, and the source as it is left behind. *)
Definition SharedPtr_move_ctor (shptr : SharedPtr) : SharedPtr * SharedPtr :=
  (mkSharedPtr (sp_ptr shptr) (sp_cb shptr), mkSharedPtr nullptr nullptr).

(** [use_count()]. *)
Definition SharedPtr_use_count (this : SharedPtr) : M Z :=
  match sp_cb this with
  | None => ret 0
  | Some _ => read_shared (sp_cb this)
  end.

(** [get()]. *)
Definition SharedPtr_get (this : SharedPtr) : pointer :=
  match sp_ptr this with
  | Some p => Some p
  | None =>
      match sp_cb this with
      | Some a => Some (get_ptr a)
      | None => nullptr
      end
  end.

(** [operator->()]. *)
Definition SharedPtr_arrow (this : SharedPtr) : M addr :=
  fun m =>
    match sp_ptr this with
    | Some p => Done p m
    | None =>
        match sp_cb this with
        | Some a => Done (get_ptr a) m
        | None => Undefined NullDereference
        end
    end.

(** [operator*()]: the payload object the handle designates. *)
Definition SharedPtr_star (this : SharedPtr) : M addr :=
  fun m =>
    match sp_ptr this with
    | Some p => Done p m
    | None =>
        match sp_cb this with
        | Some a => Done (get_ptr a) m
        | None => Undefined NullDereference
        end
    end.

(** [swap(SharedPtr& other)]: the two objects after the exchange. *)
Definition SharedPtr_swap (this other : SharedPtr) : SharedPtr * SharedPtr :=
  (mkSharedPtr (sp_ptr other) (sp_cb other), mkSharedPtr (sp_ptr this) (sp_cb this)).

(** [clear()]: the handle as it is left behind. *)
Definition SharedPtr_clear (this : SharedPtr) : M SharedPtr :=
  match sp_cb this with
  | None => ret this
  | Some _ =>
      decr_shared (sp_cb this) ;;
      do s <- read_shared (sp_cb this);
      (if s =? 0 then
         destroy (sp_cb this) ;;
         do w <- read_weak (sp_cb this);
         if w =? 0 then deallocate (sp_cb this) else ret tt
       else ret tt) ;;
      ret (mkSharedPtr nullptr nullptr)
  end.

(** [~SharedPtr()]. *)
Definition SharedPtr_dtor (this : SharedPtr) : M unit :=
  SharedPtr_clear this ;; ret tt.

(** [reset()]: [SharedPtr<T>().swap( *this)], then the temporary dies. *)
Definition SharedPtr_reset (this : SharedPtr) : M SharedPtr :=
  let '(tmp, this) := SharedPtr_swap SharedPtr_ctor this in
  SharedPtr_dtor tmp ;;
  ret this.

(** [reset(Y* ptr, Deleter del, Alloc alloc)]. *)
Definition SharedPtr_reset_ptr (this : SharedPtr) (ptr : pointer) (alloc : Alloc)
  : M SharedPtr :=
  do tmp <- SharedPtr_ctor_ptr ptr alloc;
  let '(tmp, this) := SharedPtr_swap tmp this in
  SharedPtr_dtor tmp ;;
  ret this.

(** The argument of an assignment operator is a reference: it designates
    the assigned-to object itself or another object. *)
Inductive reference (A : Type) :=
| This
| Other (x : A).

Arguments This {A}.
Arguments Other {A} x.

(** [operator=(const SharedPtr& shptr)]. *)
Definition SharedPtr_assign (this : SharedPtr) (shptr : reference SharedPtr)
  : M SharedPtr :=
  match shptr with
  | This => ret this                      (* this == &shptr *)
  | Other s =>
      do copy <- SharedPtr_copy_ctor s;
      let '(this, copy) := SharedPtr_swap this copy in
      SharedPtr_dtor copy ;;
      ret this
  end.

(** [operator=(const SharedPtr<Y>& shptr)]: a handle of another type is
    another object. *)
Definition SharedPtr_assign_Y (this : SharedPtr) (shptr : SharedPtr) : M SharedPtr :=
  do copy <- SharedPtr_copy_ctor_Y shptr;
  let '(this, copy) := SharedPtr_swap this copy in
  SharedPtr_dtor copy ;;
  ret this.

(** [operator=(SharedPtr&& shptr)] and its [SharedPtr<Y>&&] twin: the
    assigned-to handle and the source, as they are left behind. *)
Definition SharedPtr_move_assign (this : SharedPtr) (shptr : reference SharedPtr)
  : M (SharedPtr * reference SharedPtr) :=
  match shptr with
  | This =>
      let '(copy, this) := SharedPtr_move_ctor this in
      let '(this, copy) := SharedPtr_swap this copy in
      SharedPtr_dtor copy ;;
      ret (this, This)
  | Other s =>
      let '(copy, s) := SharedPtr_move_ctor s in
      let '(this, copy) := SharedPtr_swap this copy in
      SharedPtr_dtor copy ;;
      ret (this, Other s)
  end.

(** [SharedPtr(MakeSharedControlBlock<T, Alloc>* make_shared_cb)]. *)
Definition SharedPtr_ctor_cb (make_shared_cb : addr) : SharedPtr :=
  mkSharedPtr nullptr (Some make_shared_cb).

(** [SharedPtr(WeakPtr<T> wptr)], the body of the private constructor. *)
Definition SharedPtr_ctor_weak (wptr : WeakPtr) : M SharedPtr :=
  match wp_cb wptr with
  | Some a =>
      do s <- read_shared (wp_cb wptr);
      if s =? 0 then ret (mkSharedPtr nullptr nullptr)
      else
        let ptr := match wp_ptr wptr with
                   | None => Some (get_ptr a)
                   | Some p => Some p
                   end in
        incr_shared (wp_cb wptr) ;;
        ret (mkSharedPtr ptr (wp_cb wptr))
  | None => ret (mkSharedPtr nullptr (wp_cb wptr))
  end.

(** ** WeakPtr *)

(** [WeakPtr<T>::WeakPtr() = default]. *)
Definition WeakPtr_ctor : WeakPtr := mkWeakPtr nullptr nullptr.

(** [WeakPtr(const SharedPtr<T>& sp)]. *)
Definition WeakPtr_ctor_shared (sp : SharedPtr) : M WeakPtr :=
  incr_weak (sp_cb sp) ;;
  ret (mkWeakPtr (SharedPtr_get sp) (sp_cb sp)).

(** [WeakPtr(const SharedPtr<Y>& sp)]. *)
Definition WeakPtr_ctor_shared_Y (sp : SharedPtr) : M WeakPtr :=
  match sp_cb sp with
  | Some _ => incr_weak (sp_cb sp) ;; ret (mkWeakPtr (SharedPtr_get sp) (sp_cb sp))
  | None => ret (mkWeakPtr (SharedPtr_get sp) (sp_cb sp))
  end.

(** [WeakPtr(const WeakPtr& wptr)]. *)
Definition WeakPtr_copy_ctor (wptr : WeakPtr) : M WeakPtr :=
  incr_weak (wp_cb wptr) ;;
  ret (mkWeakPtr (wp_ptr wptr) (wp_cb wptr)).

(** [WeakPtr(const WeakPtr<Y>& wptr)]. *)
Definition WeakPtr_copy_ctor_Y (wptr : WeakPtr) : M WeakPtr :=
  match wp_cb wptr with
  | Some _ => incr_weak (wp_cb wptr) ;; ret (mkWeakPtr (wp_ptr wptr) (wp_cb wptr))
  | None => ret (mkWeakPtr (wp_ptr wptr) (wp_cb wptr))
  end.

(** [WeakPtr(WeakPtr&& wptr)] and [WeakPtr(WeakPtr<Y>&& wptr)]. *)
Definition WeakPtr_move_ctor (wptr : WeakPtr) : WeakPtr * WeakPtr :=
  (mkWeakPtr (wp_ptr wptr) (wp_cb wptr), mkWeakPtr nullptr nullptr).

Definition WeakPtr_swap (this other : WeakPtr) : WeakPtr * WeakPtr :=
  (mkWeakPtr (wp_ptr other) (wp_cb other), mkWeakPtr (wp_ptr this) (wp_cb this)).

(** [operator=(const WeakPtr& wptr)]. *)
Definition WeakPtr_assign (this : WeakPtr) (wptr : reference WeakPtr) : M WeakPtr :=
  match wptr with
  | This => ret this
  | Other w =>
      do copy <- WeakPtr_copy_ctor w;
      let '(this, copy) := WeakPtr_swap this copy in
      WeakPtr_dtor copy ;;
      ret this
  end.

(** [operator=(const WeakPtr<Y>& wptr)]. *)
Definition WeakPtr_assign_Y (this : WeakPtr) (wptr : WeakPtr) : M WeakPtr :=
  do copy <- WeakPtr_copy_ctor_Y wptr;
  let '(this, copy) := WeakPtr_swap this copy in
  WeakPtr_dtor copy ;;
  ret this.

(** [operator=(WeakPtr&& wptr)] and its [WeakPtr<Y>&&] twin. *)
Definition WeakPtr_move_assign (this : WeakPtr) (wptr : reference WeakPtr)
  : M (WeakPtr * reference WeakPtr) :=
  match wptr with
  | This =>
      let '(copy, this) := WeakPtr_move_ctor this in
      let '(this, copy) := WeakPtr_swap this copy in
      WeakPtr_dtor copy ;;
      ret (this, This)
  | Other w =>
      let '(copy, w) := WeakPtr_move_ctor w in
      let '(this, copy) := WeakPtr_swap this copy in
      WeakPtr_dtor copy ;;
      ret (this, Other w)
  end.

(** [use_count()]. *)
Definition WeakPtr_use_count (this : WeakPtr) : M Z :=
  match wp_cb this with
  | None => ret 0
  | Some _ => read_shared (wp_cb this)
  end.

(** [expired()]. *)
Definition WeakPtr_expired (this : WeakPtr) : M bool :=
  do n <- WeakPtr_use_count this; ret (n =? 0).

(** [lock()].  [SharedPtr<T>( *this)] passes the handle by value: the
    parameter is copy-constructed from [*this] and destroyed when the
    constructor has returned. *)
Definition WeakPtr_lock (this : WeakPtr) : M SharedPtr :=
  do e <- WeakPtr_expired this;
  if e then ret SharedPtr_ctor
  else
    do wptr <- WeakPtr_copy_ctor this;
    do r <- SharedPtr_ctor_weak wptr;
    WeakPtr_dtor wptr ;;
    ret r.

(** ** EnableSharedFromThis and the construction helpers *)

(** The defaulted constructor of [EnableSharedFromThis<T>]: the member
    [wptr] is default-constructed. *)
Definition EnableSharedFromThis_ctor : EnableSharedFromThis := mkESFT WeakPtr_ctor.

(** [shared_from_this()], called on the payload at address [this], whose
    type derives from [EnableSharedFromThis]. *)
Definition shared_from_this (this : addr) : M SharedPtr :=
  fun m =>
    match objects m !! this with
    | Some (mkObject (Some e) _) => WeakPtr_lock (wptr e) m
    | _ => Undefined (InvalidAccess this)
    end.

(** What is known of the payload type [T] and of the constructor call
    [T(args...)]: whether [T] derives from [EnableSharedFromThis<T>], how
    many [WeakPtr] data members it has, and whether the constructor
    throws. *)
Record Payload := mkPayload {
  self_observing : bool;
  weak_members : nat;
  ctor_throws : bool
}.

(** [std::allocator_traits<Alloc>::construct(alloc, p, args...)]: runs
    [T(args...)] at [p]; base and members are default-constructed. *)
Definition construct (T : Payload) (p : addr) : M unit :=
  fun m =>
    if ctor_throws T then Throw ctor_exception m
    else
      let o := mkObject (if self_observing T then Some EnableSharedFromThis_ctor else None)
                        (replicate (weak_members T) WeakPtr_ctor) in
      Done tt (mkMemory (heap m) (<[p := o]> (objects m)) (log m)).

(** [obj.member_i = std::move(w)] for the payload object at [p]: client
    code that stores a [WeakPtr] in the payload; the source as it is left
    behind. *)
Definition member_move_assign (p : addr) (i : nat) (w : WeakPtr) : M WeakPtr :=
  fun m =>
    match objects m !! p with
    | Some o =>
        match members o !! i with
        | Some f =>
            match WeakPtr_move_assign f (Other w) m with
            | Done (f', r) m' =>
                Done (match r with Other w' => w' | This => f' end)
                  (mkMemory (heap m')
                     (<[p := mkObject (base o) (<[i := f']> (members o))]> (objects m'))
                     (log m'))
            | Throw e m' => Throw e m'
            | Undefined u => Undefined u
            end
        | None => Undefined (InvalidAccess p)
        end
    | None => Undefined (InvalidAccess p)
    end.

(** [new (raw_memory) MakeSharedControlBlock<T, Alloc>(shared, weak, a,
    args...)]: the base and the allocator member are initialised, then the
    constructor body constructs the payload behind the header.  When that
    throws, the initialised sub-objects are destroyed and the exception
    leaves the placement [new], which frees nothing.  The payload is kept
    among the objects, apart from the heap, and the storage is taken to
    have room for it behind the header: [allocateShared] and [makeShared]
    ask the allocator for one header only, and the write past its end is
    not part of this model. *)
Definition MakeSharedControlBlock_ctor (raw_memory : addr) (sh wk : Z) (T : Payload)
  : M addr :=
  put raw_memory (mkBlock sh wk MakeSharedControlBlock) ;;
  unwinding (construct T (get_ptr raw_memory)) (unconstruct raw_memory) ;;
  ret raw_memory.

(** [allocateShared<T>(alloc, args...)]. *)
Definition allocateShared (alloc : Alloc) (T : Payload) : M SharedPtr :=
  do raw_memory <- allocate alloc;
  do cb <- MakeSharedControlBlock_ctor raw_memory 1 0 T;
  ret (SharedPtr_ctor_cb cb).

(** [makeShared<T>(args...)]. *)
Definition makeShared (T : Payload) : M SharedPtr :=
  do raw_memory <- allocate default_allocator;
  do cb <- MakeSharedControlBlock_ctor raw_memory 1 0 T;
  ret (SharedPtr_ctor_cb cb).

Definition empty_memory : Memory := mkMemory ∅ ∅ [].

(** * Programs over handles

    A program owns a collection of [SharedPtr] objects and a collection of
    [WeakPtr] objects, each named by its position; [None] marks an object
    whose destructor has run.  An operation names the objects it works on.
    The assignment operators receive their argument by reference, so
    [p_i = p_i] is told apart from [p_i = p_j] by the positions. *)

Record Program := mkProgram {
  strongs : list (option SharedPtr);
  weaks : list (option WeakPtr);
  mem : Memory
}.

Inductive op :=
| SCopy (i : nat)             (* [SharedPtr<T> q(p_i)] *)
| SCopyY (i : nat)            (* [SharedPtr<T> q(p_i)], [p_i] a [SharedPtr<Y>] *)
| SMove (i : nat)             (* [SharedPtr<T> q(std::move(p_i))] *)
| SAssign (i j : nat)         (* [p_i = p_j] *)
| SAssignY (i j : nat)        (* [p_i = p_j], [p_j] a [SharedPtr<Y>] *)
| SMoveAssign (i j : nat)     (* [p_i = std::move(p_j)] *)
| SReset (i : nat)            (* [p_i.reset()] *)
| SSwap (i j : nat)           (* [p_i.swap(p_j)] *)
| SDestroy (i : nat)          (* [p_i] goes out of scope *)
| WFromS (i : nat)            (* [WeakPtr<T> w(p_i)] *)
| WFromSY (i : nat)           (* [WeakPtr<T> w(p_i)], [p_i] a [SharedPtr<Y>] *)
| WCopy (i : nat)             (* [WeakPtr<T> v(w_i)] *)
| WCopyY (i : nat)            (* [WeakPtr<T> v(w_i)], [w_i] a [WeakPtr<Y>] *)
| WMove (i : nat)             (* [WeakPtr<T> v(std::move(w_i))] *)
| WAssign (i j : nat)         (* [w_i = w_j] *)
| WAssignY (i j : nat)        (* [w_i = w_j], [w_j] a [WeakPtr<Y>] *)
| WMoveAssign (i j : nat)     (* [w_i = std::move(w_j)] *)
| WDestroy (i : nat)          (* [w_i] goes out of scope *)
| WLock (i : nat).            (* [SharedPtr<T> q = w_i.lock()] *)

(** The object at position [i], if it exists and is alive. *)
Definition object {A} (l : list (option A)) (i : nat) : option A :=
  match l !! i with
  | Some (Some x) => Some x
  | _ => None
  end.

(** The argument of an assignment between positions [i] and [j]. *)
Definition refer {A} (i j : nat) (x : A) : reference A :=
  if Nat.eqb i j then This else Other x.

(** Where an assignment leaves its source. *)
Definition store_ref {A} (j : nat) (r : reference A) (l : list (option A))
  : list (option A) :=
  match r with
  | This => l
  | Other x => <[j := Some x]> l
  end.

(** A step is defined when the objects it names are alive and the
    operation has defined behaviour. *)
Definition finish {A} (r : outcome A) (k : A -> Memory -> Program) : option Program :=
  match r with
  | Done x m => Some (k x m)
  | _ => None
  end.

Definition step (o : op) (st : Program) : option Program :=
  let S := strongs st in
  let W := weaks st in
  match o with
  | SCopy i =>
      p ← object S i;
      finish (SharedPtr_copy_ctor p (mem st)) (fun q m => mkProgram (S ++ [Some q]) W m)
  | SCopyY i =>
      p ← object S i;
      finish (SharedPtr_copy_ctor_Y p (mem st)) (fun q m => mkProgram (S ++ [Some q]) W m)
  | SMove i =>
      p ← object S i;
      let '(q, p) := SharedPtr_move_ctor p in
      Some (mkProgram (<[i := Some p]> S ++ [Some q]) W (mem st))
  | SAssign i j =>
      p ← object S i;
      q ← object S j;
      finish (SharedPtr_assign p (refer i j q) (mem st))
        (fun p m => mkProgram (<[i := Some p]> S) W m)
  | SAssignY i j =>
      p ← object S i;
      q ← object S j;
      if Nat.eqb i j then None
      else finish (SharedPtr_assign_Y p q (mem st))
             (fun p m => mkProgram (<[i := Some p]> S) W m)
  | SMoveAssign i j =>
      p ← object S i;
      q ← object S j;
      finish (SharedPtr_move_assign p (refer i j q) (mem st))
        (fun '(p, r) m => mkProgram (<[i := Some p]> (store_ref j r S)) W m)
  | SReset i =>
      p ← object S i;
      finish (SharedPtr_reset p (mem st)) (fun p m => mkProgram (<[i := Some p]> S) W m)
  | SSwap i j =>
      p ← object S i;
      q ← object S j;
      let '(p, q) := SharedPtr_swap p q in
      Some (mkProgram (<[i := Some p]> (<[j := Some q]> S)) W (mem st))
  | SDestroy i =>
      p ← object S i;
      finish (SharedPtr_dtor p (mem st)) (fun _ m => mkProgram (<[i := None]> S) W m)
  | WFromS i =>
      p ← object S i;
      finish (WeakPtr_ctor_shared p (mem st)) (fun w m => mkProgram S (W ++ [Some w]) m)
  | WFromSY i =>
      p ← object S i;
      finish (WeakPtr_ctor_shared_Y p (mem st)) (fun w m => mkProgram S (W ++ [Some w]) m)
  | WCopy i =>
      w ← object W i;
      finish (WeakPtr_copy_ctor w (mem st)) (fun v m => mkProgram S (W ++ [Some v]) m)
  | WCopyY i =>
      w ← object W i;
      finish (WeakPtr_copy_ctor_Y w (mem st)) (fun v m => mkProgram S (W ++ [Some v]) m)
  | WMove i =>
      w ← object W i;
      let '(v, w) := WeakPtr_move_ctor w in
      Some (mkProgram S (<[i := Some w]> W ++ [Some v]) (mem st))
  | WAssign i j =>
      w ← object W i;
      v ← object W j;
      finish (WeakPtr_assign w (refer i j v) (mem st))
        (fun w m => mkProgram S (<[i := Some w]> W) m)
  | WAssignY i j =>
      w ← object W i;
      v ← object W j;
      if Nat.eqb i j then None
      else finish (WeakPtr_assign_Y w v (mem st))
             (fun w m => mkProgram S (<[i := Some w]> W) m)
  | WMoveAssign i j =>
      w ← object W i;
      v ← object W j;
      finish (WeakPtr_move_assign w (refer i j v) (mem st))
        (fun '(w, r) m => mkProgram S (<[i := Some w]> (store_ref j r W)) m)
  | WDestroy i =>
      w ← object W i;
      finish (WeakPtr_dtor w (mem st)) (fun _ m => mkProgram S (<[i := None]> W) m)
  | WLock i =>
      w ← object W i;
      finish (WeakPtr_lock w (mem st)) (fun q m => mkProgram (S ++ [Some q]) W m)
  end.

Fixpoint run (ops : list op) (st : Program) : option Program :=
  match ops with
  | [] => Some st
  | o :: ops' =>
      match step o st with
      | Some st' => run ops' st'
      | None => None
      end
  end.

(** The number of live handles in a collection that reference the block at
    [a]. *)
Definition references {A} (cb : A -> pointer) (a : addr) (o : option A) : bool :=
  match o with
  | Some h => bool_decide (cb h = Some a)
  | None => false
  end.

Fixpoint count_refs {A} (cb : A -> pointer) (a : addr) (l : list (option A)) : Z :=
  match l with
  | [] => 0
  | o :: l' => (if references cb a o then 1 else 0) + count_refs cb a l'
  end.

Definition strong_handles (a : addr) (st : Program) : Z := count_refs sp_cb a (strongs st).
Definition weak_handles (a : addr) (st : Program) : Z := count_refs wp_cb a (weaks st).

(** Is an operation one of [WeakPtr]'s own ([lock], which builds a
    [SharedPtr], included)? *)
Definition weak_op (o : op) : bool :=
  match o with
  | WFromS _ | WFromSY _ | WCopy _ | WCopyY _ | WMove _ | WAssign _ _
  | WAssignY _ _ | WMoveAssign _ _ | WDestroy _ | WLock _ => true
  | _ => false
  end.

(** All calls made so far on a block whose handles were created from one
    initial [SharedPtr], when [s] strong and [w] weak handles are left. *)
Definition history (a : addr) (s w : Z) : list event :=
  if s =? 0 then EvDestroy a :: (if w =? 0 then [EvDeallocate a] else []) else [].

(** * Definitions used by the statements

    What each operation does to a memory in which the control block it
    reaches is live. *)

Definition set_block (a : addr) (b : BaseControlBlock) (m : Memory) : Memory :=
  mkMemory (<[a := Block b]> (heap m)) (objects m) (log m).

Definition with_shared (s : Z) (b : BaseControlBlock) : BaseControlBlock :=
  mkBlock s (weak b) (kind b).

Definition with_weak (w : Z) (b : BaseControlBlock) : BaseControlBlock :=
  mkBlock (shared b) w (kind b).

(** The calls a strong release makes when it leaves the counters at
    [(s, w)], and the calls a weak release makes. *)
Definition strong_release_log (a : addr) (s w : Z) : list event :=
  if s =? 0 then EvDestroy a :: (if w =? 0 then [EvDeallocate a] else []) else [].

Definition weak_release_log (a : addr) (s w : Z) : list event :=
  if (s =? 0) && (w =? 0) then [EvDeallocate a] else [].

(** The heap after a release that leaves the block [b] behind. *)
Definition release_heap (a : addr) (b : BaseControlBlock) (h : gmap addr cell)
  : gmap addr cell :=
  if (shared b =? 0) && (weak b =? 0) then delete a h else <[a := Block b]> h.

(** ** One control block and its handles *)

(** A handle of the program is empty or references the block at [a]. *)
Definition local (a : addr) (c : pointer) : Prop := c = None \/ c = Some a.

Definition wt (a : addr) (c : pointer) : Z := if bool_decide (c = Some a) then 1 else 0.

(** A payload that holds no handle: its members and its base are empty
    [WeakPtr]s. *)
Definition WeakPtr_empty (w : WeakPtr) : bool :=
  match wp_cb w with
  | None => true
  | Some _ => false
  end.

Definition inert (o : Object) : bool :=
  forallb WeakPtr_empty (members o)
  && match base o with
     | Some e => WeakPtr_empty (wptr e)
     | None => true
     end.

(** The payload of the block at [a], as long as it is alive, holds no
    handle. *)
Definition payload_inert (a : addr) (k : block_kind) (m : Memory) : bool :=
  match payload_of a k with
  | None => true
  | Some q =>
      match objects m !! q with
      | Some o => inert o
      | None => true
      end
  end.

(** The memory when [s] strong and [w] weak handles are left: the block
    is live with exactly these counts unless both are zero, in which case
    its storage is gone; the log is the block's [history]; the payload
    holds no handle. *)
Definition Mem_ok (a : addr) (k : block_kind) (s w : Z) (m : Memory) : Prop :=
  heap m !! a
    = (if (s =? 0) && (w =? 0) then None else Some (Block (mkBlock s w k)))
  /\ log m = history a s w
  /\ payload_inert a k m = true.

Definition weight {A} (cb : A -> pointer) (a : addr) (o : option A) : Z :=
  if references cb a o then 1 else 0.

Definition all_local {A} (cb : A -> pointer) (a : addr) (l : list (option A)) : Prop :=
  Forall (fun o => forall h, o = Some h -> local a (cb h)) l.

(** The invariant of a program over the block at [a]: every handle is
    empty or references the block, and the memory matches the numbers of
    live handles. *)
Record Inv (a : addr) (k : block_kind) (st : Program) : Prop := mkInv {
  inv_strongs : all_local sp_cb a (strongs st);
  inv_weaks : all_local wp_cb a (weaks st);
  inv_mem : Mem_ok a k (strong_handles a st) (weak_handles a st) (mem st)
}.

Definition handles (a : addr) (st : Program) : Z :=
  strong_handles a st + weak_handles a st.

Definition both_zero (s w : Z) : bool := (s =? 0) && (w =? 0).

(** ** Calls *)

Definition is_destroy (e : event) : bool :=
  match e with
  | EvDestroy _ => true
  | EvDeallocate _ => false
  end.

(** From [m] to [m'] calls were made, none of them [destroy()]. *)
Definition quiet (m m' : Memory) : Prop :=
  exists evs, log m' = log m ++ evs /\ forallb (fun e => negb (is_destroy e)) evs = true.

#[global] Instance event_eq_dec : EqDecision event.
Proof. solve_decision. Defined.

(** How often a call occurs in a log. *)
Definition calls (e : event) (l : list event) : nat := count_occ event_eq_dec l e.

(** ** Release of a strong handle *)

(** [clear()], the destructor and [reset()] all complete on [this], leave
    it empty and take the memory from [m] to [m']. *)
Definition SharedPtr_released (this : SharedPtr) (m m' : Memory) : Prop :=
  SharedPtr_clear this m = Done (mkSharedPtr nullptr nullptr) m' /\
  SharedPtr_dtor this m = Done tt m' /\
  SharedPtr_reset this m = Done (mkSharedPtr nullptr nullptr) m'.

(** ** Operations that do not throw *)

Definition nothrow {A} (c : M A) : Prop := forall m e m', c m <> Throw e m'.

(** ** Well-formed weak handles *)

(** A [WeakPtr] that is not empty references a live block whose weak count
    includes it. *)
Definition WeakPtr_valid (this : WeakPtr) (m : Memory) : Prop :=
  match wp_cb this with
  | None => True
  | Some a =>
      exists b, heap m !! a = Some (Block b)
                /\ is_size (shared b) /\ 1 <= weak b <= SIZE_MAX
  end.

(** ** Assignment by a temporary *)

(** Follows the spec's words, "construct-a-temporary-then-swap": the
    temporary is constructed; when that fails nothing else happens;
    otherwise the two handles exchange their pointers and the temporary,
    which now holds the old state, is destroyed. *)
Definition construct_temporary_then_swap (construct : M SharedPtr) (this : SharedPtr)
  : M SharedPtr :=
  fun m =>
    match construct m with
    | Done tmp m1 =>
        let this' := mkSharedPtr (sp_ptr tmp) (sp_cb tmp) in
        let tmp' := mkSharedPtr (sp_ptr this) (sp_cb this) in
        match SharedPtr_clear tmp' m1 with
        | Done _ m2 => Done this' m2
        | Throw e m2 => Throw e m2
        | Undefined u => Undefined u
        end
    | Throw e m1 => Throw e m1
    | Undefined u => Undefined u
    end.

(** ** Release of an allocation when a constructor throws *)

(** Whatever a failed [allocateShared] had allocated has been handed back:
    the heap is as it was before the call. *)
Definition released_on_throw (alloc : Alloc) (T : Payload) (m : Memory) : Prop :=
  forall e m', allocateShared alloc T m = Throw e m' -> heap m' = heap m.

(** ** Programs that start from one handle *)

(** A program that has just received the only handle on a fresh block. *)
Definition initial (a : addr) (k : block_kind) (st : Program) : Prop :=
  exists sp,
    strongs st = [Some sp] /\ weaks st = [] /\ sp_cb sp = Some a /\
    heap (mem st) !! a = Some (Block (mkBlock 1 0 k)) /\
    log (mem st) = [] /\
    payload_inert a k (mem st) = true.

(** The states such a program reaches with defined behaviour. *)
Definition reachable (a : addr) (k : block_kind) (st0 st : Program) : Prop :=
  initial a k st0 /\
  exists ops, Z.of_nat (length ops) + 1 < SIZE_MAX /\ run ops st0 = Some st.

(** ** The lifetime of the payload *)

(** The block at [a], as long as it is allocated, is of kind [k]. *)
Definition kind_ok (a : addr) (k : block_kind) (m : Memory) : Prop :=
  forall b, heap m !! a = Some (Block b) -> kind b = k.

(** What happens to payload objects from [m] to [m']: none is created; the
    calls made are appended to the log; when [destroy()] is among them for
    the block at [a], that block's payload is gone; when no [destroy()] is
    among them, the objects are as they were. *)
Definition lifetime (a : addr) (k : block_kind) (m m' : Memory) : Prop :=
  kind_ok a k m ->
  kind_ok a k m' /\
  objects m' ⊆ objects m /\
  exists evs, log m' = log m ++ evs /\
    (In (EvDestroy a) evs ->
       forall q, payload_of a k = Some q -> objects m' !! q = None) /\
    (forallb (fun e => negb (is_destroy e)) evs = true -> objects m' = objects m).

(** A computation that treats payload objects in this way whenever it
    completes. *)
Definition tracks {A} (a : addr) (k : block_kind) (c : M A) : Prop :=
  forall m x m', c m = Done x m' -> lifetime a k m m'.

(** ** Operations with defined behaviour *)

(** Is the object at position [i] alive?  Is it alive and empty? *)
Definition alive {A} (l : list (option A)) (i : nat) : bool :=
  match object l i with
  | Some _ => true
  | None => false
  end.

Definition empty_source {A} (cb : A -> pointer) (l : list (option A)) (i : nat) : bool :=
  match object l i with
  | Some h => match cb h with None => true | Some _ => false end
  | None => false
  end.

(** The operations a program may perform: the objects named are alive; an
    assignment from a handle of another type names two different objects;
    and the source of an operation that does not test [cb] is not empty. *)
Definition well_defined (o : op) (st : Program) : bool :=
  let S := strongs st in
  let W := weaks st in
  match o with
  | SCopy i | SMove i | SReset i | SDestroy i | WFromSY i => alive S i
  | SCopyY i | WFromS i => alive S i && negb (empty_source sp_cb S i)
  | SAssign i j | SMoveAssign i j | SSwap i j => alive S i && alive S j
  | SAssignY i j =>
      alive S i && alive S j && negb (Nat.eqb i j) && negb (empty_source sp_cb S j)
  | WCopy i => alive W i && negb (empty_source wp_cb W i)
  | WCopyY i | WMove i | WDestroy i | WLock i => alive W i
  | WAssign i j =>
      alive W i && alive W j && (Nat.eqb i j || negb (empty_source wp_cb W j))
  | WAssignY i j => alive W i && alive W j && negb (Nat.eqb i j)
  | WMoveAssign i j => alive W i && alive W j
  end.

(** The operations that hand pointers over from one object to another. *)
Definition transfers (o : op) : bool :=
  match o with
  | SMove _ | SSwap _ _ | WMove _ => true
  | _ => false
  end.

(** ** Confinement to one block *)

(** From [m] to [m'] nothing but the block at [a] and its payload has
    changed. *)
Definition frame (a : addr) (k : block_kind) (m m' : Memory) : Prop :=
  (forall d, d <> a -> heap m' !! d = heap m !! d) /\
  (forall q, payload_of a k <> Some q -> objects m' !! q = objects m !! q).

(** The block at [a] is of kind [k] and its payload holds no handle. *)
Definition inside (a : addr) (k : block_kind) (m : Memory) : Prop :=
  kind_ok a k m /\ payload_inert a k m = true.

(** A computation that, whenever it completes, has changed nothing but the
    block at [a] and its payload. *)
Definition confined {A} (a : addr) (k : block_kind) (c : M A) : Prop :=
  forall m x m', inside a k m -> c m = Done x m' -> inside a k m' /\ frame a k m m'.

(** ** The strong count, whatever the payload holds *)

(** The strong count of the block at [a], while it is allocated. *)
Definition shared_at (a : addr) (m : Memory) : option Z :=
  match heap m !! a with
  | Some (Block b) => Some (shared b)
  | _ => None
  end.

(** From [m] to [m'] the strong count of the block at [a] has not been
    written, the block has been deallocated only with a strong count of 0,
    and [destroy()] has been called on it [n] times. *)
Definition evolves (a : addr) (n : nat) (m m' : Memory) : Prop :=
  (forall s, shared_at a m' = Some s -> shared_at a m = Some s) /\
  (forall s, shared_at a m = Some s -> s <> 0 -> shared_at a m' = Some s) /\
  calls (EvDestroy a) (log m') = (calls (EvDestroy a) (log m) + n)%nat.

(** The memory when [s] live strong handles are left, whatever the weak
    handles and the payload are: [destroy()] has been called once if [s] is
    0 and not at all otherwise; the block, while it is allocated, has the
    strong count [s], and it is allocated as long as [s] is not 0. *)
Definition Strong_ok (a : addr) (s : Z) (m : Memory) : Prop :=
  calls (EvDestroy a) (log m) = (if s =? 0 then 1%nat else 0%nat) /\
  (forall s', shared_at a m = Some s' -> s' = s) /\
  (s <> 0 -> shared_at a m = Some s).

(** The invariant of a program over the block at [a], for every payload:
    every handle is empty or references the block, and the strong count
    and the calls of [destroy()] match the number of live strong handles. *)
Record Inv_strong (a : addr) (st : Program) : Prop := mkInv_strong {
  inv_strong_strongs : all_local sp_cb a (strongs st);
  inv_strong_weaks : all_local wp_cb a (weaks st);
  inv_strong_mem : Strong_ok a (strong_handles a st) (mem st)
}.

(** [clear()], the destructor and [reset()] on [this] all have undefined
    behaviour [u] in the memory [m]. *)
Definition SharedPtr_release_undefined (this : SharedPtr) (m : Memory) (u : undefined)
  : Prop :=
  SharedPtr_clear this m = Undefined u /\
  SharedPtr_dtor this m = Undefined u /\
  SharedPtr_reset this m = Undefined u.

(** ** Sample programs *)

(** One [SharedPtr] on a block that [makeShared] has just built at address 0. *)
Definition demo_block : BaseControlBlock := mkBlock 1 0 MakeSharedControlBlock.
Definition demo_memory : Memory :=
  mkMemory {[ 0%N := Block demo_block ]} {[ 1%N := mkObject None [] ]} [].
Definition demo_handle : SharedPtr := mkSharedPtr nullptr (Some 0%N).
Definition demo_program : Program := mkProgram [Some demo_handle] [] demo_memory.

(** The same block observed by one [WeakPtr]. *)
Definition demo_weak : WeakPtr := mkWeakPtr (Some 1%N) (Some 0%N).
Definition demo_observed : Memory :=
  mkMemory {[ 0%N := Block (mkBlock 1 1 MakeSharedControlBlock) ]}
    {[ 1%N := mkObject None [] ]} [].

(** [struct Node { WeakPtr<Node> self; };] *)
Definition Node : Payload := mkPayload false 1 false.

(** [auto p = makeShared<Node>(); p->self = WeakPtr<Node>(p);]: a payload
    that observes itself. *)
Definition self_observed : M SharedPtr :=
  do p <- makeShared Node;
  do w <- WeakPtr_ctor_shared p;
  do q <- SharedPtr_arrow p;
  do w <- member_move_assign q 0 w;
  WeakPtr_dtor w ;;
  ret p.

(** Two strong handles and a weak one; the weak handle is released last. *)
Definition weak_last : list op :=
  [SCopy 0; WFromS 1; SDestroy 0; WLock 0; SReset 1; SDestroy 2; WLock 0; WDestroy 0].

(** Three weak handles come and go; the strong handle is released last. *)
Definition strong_last : list op :=
  [WFromS 0; WCopy 0; WDestroy 0; WMove 1; WDestroy 2; SMove 0; SDestroy 1].

(** [Node* n = new Node; SharedPtr<Node> p(n); p->self = WeakPtr<Node>(p);]:
    the payload that observes itself, owned through the owning
    constructor; the [Node] lives at address 5. *)
Definition owner_observed : M SharedPtr :=
  construct Node 5%N ;;
  do p <- SharedPtr_ctor_ptr (Some 5%N) default_allocator;
  do w <- WeakPtr_ctor_shared p;
  do q <- SharedPtr_arrow p;
  do w <- member_move_assign q 0 w;
  WeakPtr_dtor w ;;
  ret p.

(** The handle and the memory that [owner_observed] leaves: counts 1 and
    1, the weak handle being the payload's member. *)
Definition observed_handle : SharedPtr := mkSharedPtr (Some 5%N) (Some 0%N).
Definition observed_block : BaseControlBlock := mkBlock 1 1 (ControlBlock (Some 5%N)).
Definition observed_memory : Memory :=
  mkMemory {[ 0%N := Block observed_block ]}
    {[ 5%N := mkObject None [mkWeakPtr (Some 5%N) (Some 0%N)] ]} [].

(** * Execution lemmas *)

Ltac step_heap :=
  match goal with
  | H : heap ?m !! ?a = Some (Block ?b) |- context [heap ?m !! ?a] => rewrite H
  | |- context [<[?a := _]> _ !! ?a] => rewrite lookup_insert_eq
  end.

Ltac proj := cbn [sp_cb sp_ptr wp_cb wp_ptr heap objects log shared weak kind
                  with_shared with_weak set_block].

Ltac exec :=
  unfold SharedPtr_dtor, SharedPtr_clear, WeakPtr_dtor, WeakPtr_clear,
    incr_shared, decr_shared, incr_weak, decr_weak, read_shared, read_weak,
    destroy, deallocate, end_lifetime, emit, put, deref, bind, ret;
  proj; repeat (step_heap; proj).

Lemma size_wrap_id z : is_size z -> size_wrap z = z.
Proof. unfold is_size, size_wrap, SIZE_MAX. intros H. apply Z.mod_small. lia. Qed.

Lemma pre_incr_small z : 0 <= z < SIZE_MAX -> pre_incr z = z + 1.
Proof. intros H. unfold pre_incr. apply size_wrap_id. unfold is_size. lia. Qed.

Lemma pre_decr_pos z : 1 <= z <= SIZE_MAX -> pre_decr z = z - 1.
Proof. intros H. unfold pre_decr. apply size_wrap_id. unfold is_size. lia. Qed.

Lemma pre_decr_incr z : is_size z -> pre_decr (pre_incr z) = z.
Proof.
  unfold is_size, pre_decr, pre_incr, size_wrap, SIZE_MAX. intros H.
  rewrite Zminus_mod_idemp_l. replace (z + 1 - 1) with z by lia.
  apply Z.mod_small. lia.
Qed.

Lemma is_size_wrap z : is_size (size_wrap z).
Proof.
  unfold is_size, size_wrap, SIZE_MAX.
  pose proof (Z.mod_pos_bound z (18446744073709551615 + 1)). lia.
Qed.

Lemma WeakPtr_dtor_empty w m : WeakPtr_empty w = true -> WeakPtr_dtor w m = Done tt m.
Proof.
  unfold WeakPtr_empty, WeakPtr_dtor, WeakPtr_clear. destruct (wp_cb w); [discriminate|].
  reflexivity.
Qed.

Lemma destroy_all_empty ws m :
  (forall w, In w ws -> WeakPtr_empty w = true) -> destroy_all ws m = Done tt m.
Proof.
  induction ws as [|w ws IH]; intros H; [reflexivity|].
  cbn [destroy_all]. unfold bind. rewrite (WeakPtr_dtor_empty w m (H w (or_introl eq_refl))).
  apply IH. intros w' Hw'. apply H. now right.
Qed.

Lemma Object_dtor_inert o m : inert o = true -> Object_dtor o m = Done tt m.
Proof.
  unfold inert, Object_dtor. intros H. apply andb_prop in H as [Hm Hb].
  unfold bind. rewrite destroy_all_empty.
  - destruct (base o) as [e|]; [now apply WeakPtr_dtor_empty|reflexivity].
  - intros w Hw. apply in_rev in Hw. exact (proj1 (forallb_forall _ _) Hm w Hw).
Qed.

Lemma payload_inert_subseteq a k (m m' : Memory) :
  objects m' ⊆ objects m -> payload_inert a k m = true -> payload_inert a k m' = true.
Proof.
  unfold payload_inert. intros Hsub. destruct (payload_of a k) as [q|]; [|trivial].
  destruct (objects m' !! q) as [o|] eqn:E; [|trivial].
  now rewrite (lookup_weaken _ _ _ _ E Hsub).
Qed.

Lemma payload_inert_objects a k (m m' : Memory) :
  objects m' = objects m -> payload_inert a k m' = payload_inert a k m.
Proof. unfold payload_inert. now intros ->. Qed.

Section Live.
Variables (m : Memory) (a : addr) (b : BaseControlBlock).
Hypothesis Hlive : heap m !! a = Some (Block b).

Lemma incr_shared_live :
  incr_shared (Some a) m = Done tt (set_block a (with_shared (pre_incr (shared b)) b) m).
Proof using Hlive. exec. reflexivity. Qed.

Lemma incr_weak_live :
  incr_weak (Some a) m = Done tt (set_block a (with_weak (pre_incr (weak b)) b) m).
Proof using Hlive. exec. reflexivity. Qed.

Lemma read_shared_live : read_shared (Some a) m = Done (shared b) m.
Proof using Hlive. exec. reflexivity. Qed.

Lemma decr_shared_live :
  decr_shared (Some a) m = Done tt (set_block a (with_shared (pre_decr (shared b)) b) m).
Proof using Hlive. exec. reflexivity. Qed.

Lemma read_weak_live : read_weak (Some a) m = Done (weak b) m.
Proof using Hlive. exec. reflexivity. Qed.

Lemma deallocate_live :
  deallocate (Some a) m
  = Done tt (mkMemory (delete a (heap m)) (objects m) (log m ++ [EvDeallocate a])).
Proof using Hlive. exec. reflexivity. Qed.

(** [destroy()] on a block whose payload holds no handle: the call is
    logged, the payload is gone, the heap is untouched. *)
Lemma destroy_inert :
  payload_inert a (kind b) m = true ->
  exists m', destroy (Some a) m = Done tt m' /\ heap m' = heap m
             /\ log m' = log m ++ [EvDestroy a] /\ objects m' ⊆ objects m.
Proof using Hlive.
  intros Hin. unfold destroy, bind, deref, emit. rewrite Hlive.
  assert (Hp : destroy_payload (payload_of a (kind b))
                 (mkMemory (heap m) (objects m) (log m ++ [EvDestroy a]))
               = match payload_of a (kind b) with
                 | Some q =>
                     match objects m !! q with
                     | Some _ => Done tt (mkMemory (heap m) (delete q (objects m))
                                            (log m ++ [EvDestroy a]))
                     | None => Done tt (mkMemory (heap m) (objects m) (log m ++ [EvDestroy a]))
                     end
                 | None => Done tt (mkMemory (heap m) (objects m) (log m ++ [EvDestroy a]))
                 end).
  { unfold payload_inert in Hin. unfold destroy_payload. proj.
    destruct (payload_of a (kind b)) as [q|]; [|reflexivity].
    destruct (objects m !! q) as [o|]; [|reflexivity].
    unfold bind. rewrite (Object_dtor_inert o _ Hin). reflexivity. }
  assert (Hk : (match kind b with
                | MakeSharedControlBlock => destroy_payload (Some (get_ptr a))
                | ControlBlock ptr => destroy_payload ptr
                end) = destroy_payload (payload_of a (kind b))).
  { destruct (kind b); reflexivity. }
  rewrite Hk, Hp.
  destruct (payload_of a (kind b)) as [q|]; [destruct (objects m !! q)|];
    eexists; (split; [reflexivity|]); proj; repeat split; try reflexivity.
  apply delete_subseteq.
Qed.
End Live.

Lemma SharedPtr_clear_live m a b (this : SharedPtr) :
  heap m !! a = Some (Block b) ->
  payload_inert a (kind b) m = true ->
  sp_cb this = Some a ->
  exists m',
    SharedPtr_clear this m = Done (mkSharedPtr nullptr nullptr) m' /\
    heap m' = release_heap a (with_shared (pre_decr (shared b)) b) (heap m) /\
    log m' = log m ++ strong_release_log a (pre_decr (shared b)) (weak b) /\
    objects m' ⊆ objects m.
Proof.
  intros Hlive Hin Hcb. unfold SharedPtr_clear. rewrite Hcb.
  pose proof (decr_shared_live m a b Hlive) as E1.
  remember (with_shared (pre_decr (shared b)) b) as b1 eqn:Eb1.
  remember (set_block a b1 m) as m1 eqn:Em1.
  assert (Hs1 : shared b1 = pre_decr (shared b)) by now subst b1.
  assert (Hw1 : weak b1 = weak b) by now subst b1.
  assert (Hk1 : kind b1 = kind b) by now subst b1.
  assert (Hh1 : heap m1 = <[a := Block b1]> (heap m)) by now subst m1.
  assert (Hl1 : log m1 = log m) by now subst m1.
  assert (Ho1 : objects m1 = objects m) by now subst m1.
  assert (H1 : heap m1 !! a = Some (Block b1)) by (rewrite Hh1; apply lookup_insert_eq).
  assert (Hin1 : payload_inert a (kind b1) m1 = true).
  { rewrite Hk1, (payload_inert_objects a (kind b) m m1 Ho1). exact Hin. }
  unfold bind, ret. rewrite E1, (read_shared_live m1 a b1 H1), Hs1.
  unfold release_heap, strong_release_log. rewrite Hs1, Hw1.
  destruct (pre_decr (shared b) =? 0) eqn:Hs; cbn [andb].
  - destruct (destroy_inert m1 a b1 H1 Hin1) as (m2 & E2 & Hh2 & Hl2 & Ho2).
    rewrite E2.
    assert (H2 : heap m2 !! a = Some (Block b1)) by (rewrite Hh2; exact H1).
    rewrite (read_weak_live m2 a b1 H2), Hw1.
    destruct (weak b =? 0) eqn:Hw.
    + rewrite (deallocate_live m2 a b1 H2). eexists. split; [reflexivity|]. proj.
      rewrite Hh2, Hl2, Hh1, Hl1, <- app_assoc. rewrite <- Ho1.
      repeat split; trivial. apply delete_insert_eq.
    + eexists. split; [reflexivity|]. rewrite Hh2, Hl2, Hh1, Hl1, <- Ho1.
      repeat split; trivial.
  - eexists. split; [reflexivity|]. rewrite Hh1, Hl1, Ho1, app_nil_r.
    repeat split; trivial.
Qed.

Section LiveWeak.
Variables (m : Memory) (a : addr) (b : BaseControlBlock).
Hypothesis Hlive : heap m !! a = Some (Block b).

Lemma WeakPtr_clear_live (this : WeakPtr) :
  wp_cb this = Some a ->
  exists m',
    WeakPtr_clear this m = Done (mkWeakPtr nullptr nullptr) m' /\
    heap m' = release_heap a (with_weak (pre_decr (weak b)) b) (heap m) /\
    objects m' = objects m /\
    log m' = log m ++ weak_release_log a (shared b) (pre_decr (weak b)).
Proof using Hlive.
  intros Hcb. unfold WeakPtr_clear. rewrite Hcb. exec.
  unfold release_heap, weak_release_log. proj.
  destruct ((shared b =? 0) && (pre_decr (weak b) =? 0)) eqn:Hs.
  - exec. eexists; split; [reflexivity|]. proj.
    repeat split; try reflexivity. apply delete_insert_eq.
  - eexists; split; [reflexivity|]. proj. now rewrite app_nil_r.
Qed.
End LiveWeak.

(** * One control block and its handles *)

Section OneBlock.
Variables (a : addr) (k : block_kind).

Lemma wt_None : wt a None = 0.
Proof. reflexivity. Qed.

Lemma wt_Some : wt a (Some a) = 1.
Proof. unfold wt. now rewrite bool_decide_eq_true_2. Qed.

Lemma wt_range c : 0 <= wt a c <= 1.
Proof. unfold wt. destruct (bool_decide _); lia. Qed.

Lemma Mem_ok_live s w m :
  Mem_ok a k s w m -> 0 <= s -> 0 <= w -> 1 <= s + w ->
  heap m !! a = Some (Block (mkBlock s w k)).
Proof.
  intros [Hh _] Hs Hw Hsw. rewrite Hh.
  destruct (s =? 0) eqn:E1; destruct (w =? 0) eqn:E2; try reflexivity. lia.
Qed.

Lemma Mem_ok_set s w s' w' m :
  Mem_ok a k s w m -> 0 <= s' -> 0 <= w' -> 1 <= s' + w' ->
  history a s' w' = history a s w ->
  Mem_ok a k s' w' (set_block a (mkBlock s' w' k) m).
Proof.
  intros (_ & Hl & Hin) Hs Hw Hsw Hh. split; [|split]; proj.
  - rewrite lookup_insert_eq.
    destruct (s' =? 0) eqn:E1; destruct (w' =? 0) eqn:E2; try reflexivity. lia.
  - congruence.
  - exact Hin.
Qed.

Lemma history_alive s w w' : 1 <= s -> history a s w = history a (s + 1) w'.
Proof.
  intros H. unfold history.
  destruct (s =? 0) eqn:E1; destruct (s + 1 =? 0) eqn:E2; try reflexivity; lia.
Qed.

Lemma history_weak s w w' :
  0 <= s -> 1 <= s + w -> 1 <= s + w' -> 0 <= w -> 0 <= w' ->
  history a s w = history a s w'.
Proof.
  intros. unfold history.
  destruct (s =? 0) eqn:E1; try reflexivity.
  destruct (w =? 0) eqn:E2; destruct (w' =? 0) eqn:E3; try reflexivity; lia.
Qed.

Section Ops.
Variables (s w : Z) (m : Memory).
Hypothesis Hm : Mem_ok a k s w m.
Hypothesis Hs : 0 <= s.
Hypothesis Hw : 0 <= w.

(** [++cb->shared] through a live handle. *)
Lemma acquire_strong :
  1 <= s < SIZE_MAX ->
  exists m', incr_shared (Some a) m = Done tt m' /\ Mem_ok a k (s + 1) w m'.
Proof using Hm Hs Hw.
  intros H. pose proof (Mem_ok_live _ _ _ Hm Hs Hw ltac:(lia)) as Hl.
  rewrite (incr_shared_live _ _ _ Hl). eexists; split; [reflexivity|].
  unfold with_shared; proj. rewrite pre_incr_small by lia.
  apply (Mem_ok_set s w); try lia; trivial. symmetry. apply history_alive. lia.
Qed.

(** [++cb->weak] through a live handle. *)
Lemma acquire_weak :
  1 <= s + w -> w < SIZE_MAX ->
  exists m', incr_weak (Some a) m = Done tt m' /\ Mem_ok a k s (w + 1) m'.
Proof using Hm Hs Hw.
  intros H H'. pose proof (Mem_ok_live _ _ _ Hm Hs Hw ltac:(lia)) as Hl.
  rewrite (incr_weak_live _ _ _ Hl). eexists; split; [reflexivity|].
  unfold with_weak; proj. rewrite pre_incr_small by lia.
  apply (Mem_ok_set s w); try lia; trivial. apply history_weak; lia.
Qed.

(** [SharedPtr::clear] on a handle of the block. *)
Lemma release_strong (this : SharedPtr) :
  sp_cb this = Some a -> 1 <= s <= SIZE_MAX ->
  exists m', SharedPtr_clear this m = Done (mkSharedPtr nullptr nullptr) m'
             /\ Mem_ok a k (s - 1) w m'.
Proof using Hm Hs Hw.
  intros Hcb H. pose proof (Mem_ok_live _ _ _ Hm Hs Hw ltac:(lia)) as Hl.
  destruct Hm as (_ & Hl0 & Hin).
  destruct (SharedPtr_clear_live _ _ _ this Hl Hin Hcb) as (m' & E & Hh & Hlog & Hsub).
  exists m'. split; [exact E|].
  revert Hh Hlog. unfold release_heap, with_shared; proj.
  rewrite pre_decr_pos by lia. rewrite Hl0.
  unfold history, strong_release_log. intros Hh Hlog. split; [|split].
  - rewrite Hh.
    destruct (s - 1 =? 0) eqn:E1; destruct (w =? 0) eqn:E2; cbn [andb];
      rewrite ?lookup_delete_eq, ?lookup_insert_eq; reflexivity.
  - rewrite Hlog. destruct (s =? 0) eqn:E0; [lia|]. reflexivity.
  - exact (payload_inert_subseteq a k m m' Hsub Hin).
Qed.

(** [WeakPtr::clear] on a handle of the block. *)
Lemma release_weak (this : WeakPtr) :
  wp_cb this = Some a -> 1 <= w <= SIZE_MAX ->
  exists m', WeakPtr_clear this m = Done (mkWeakPtr nullptr nullptr) m'
             /\ Mem_ok a k s (w - 1) m'.
Proof using Hm Hs Hw.
  intros Hcb H. pose proof (Mem_ok_live _ _ _ Hm Hs Hw ltac:(lia)) as Hl.
  destruct Hm as (_ & Hl0 & Hin).
  destruct (WeakPtr_clear_live _ _ _ Hl this Hcb) as (m' & E & Hh & Hobj & Hlog).
  exists m'. split; [exact E|].
  revert Hh Hlog. unfold release_heap, with_weak; proj.
  rewrite pre_decr_pos by lia. rewrite Hl0.
  unfold history, weak_release_log. intros Hh Hlog. split; [|split].
  - rewrite Hh.
    destruct (s =? 0) eqn:E1; destruct (w - 1 =? 0) eqn:E2; cbn [andb];
      rewrite ?lookup_delete_eq, ?lookup_insert_eq; reflexivity.
  - rewrite Hlog. unfold history. destruct (w =? 0) eqn:E0; [lia|].
    destruct (s =? 0) eqn:E1; destruct (w - 1 =? 0) eqn:E2; cbn [andb app];
      rewrite ?app_nil_r; reflexivity.
  - rewrite (payload_inert_objects a k m m' Hobj). exact Hin.
Qed.

Lemma local_cases c : local a c -> (c = None /\ wt a c = 0) \/ (c = Some a /\ wt a c = 1).
Proof. intros [->| ->]; [left|right]; split; auto using wt_None, wt_Some. Qed.

Lemma Mem_ok_same s' w' : s' = s -> w' = w -> Mem_ok a k s' w' m.
Proof using Hm. now intros -> ->. Qed.

Lemma SharedPtr_copy_ctor_spec (p : SharedPtr) :
  local a (sp_cb p) -> wt a (sp_cb p) <= s -> s < SIZE_MAX ->
  exists q m', SharedPtr_copy_ctor p m = Done q m' /\ sp_cb q = sp_cb p
               /\ Mem_ok a k (s + wt a (sp_cb p)) w m'.
Proof using Hm Hs Hw.
  intros Hl Hle Hlt. unfold SharedPtr_copy_ctor.
  destruct (local_cases _ Hl) as [[E Ew]|[E Ew]]; rewrite E in *; rewrite Ew in *.
  - do 2 eexists. split; [reflexivity|]. split; [reflexivity|].
    apply Mem_ok_same; lia.
  - destruct acquire_strong as (m' & E' & Hm'); [lia|].
    unfold bind, ret. rewrite E'. eauto.
Qed.

Lemma SharedPtr_copy_ctor_Y_spec (p q : SharedPtr) m' :
  SharedPtr_copy_ctor_Y p m = Done q m' ->
  local a (sp_cb p) -> wt a (sp_cb p) <= s -> s < SIZE_MAX ->
  sp_cb q = sp_cb p /\ Mem_ok a k (s + wt a (sp_cb p)) w m'.
Proof using Hm Hs Hw.
  intros Hrun Hl Hle Hlt. unfold SharedPtr_copy_ctor_Y in Hrun.
  destruct (local_cases _ Hl) as [[E Ew]|[E Ew]]; rewrite E in *; rewrite Ew in *.
  - discriminate Hrun.
  - destruct acquire_strong as (m1 & E' & Hm'); [lia|].
    unfold bind, ret in Hrun. rewrite E' in Hrun. injection Hrun as <- <-. auto.
Qed.

Lemma SharedPtr_clear_spec (p : SharedPtr) :
  local a (sp_cb p) -> wt a (sp_cb p) <= s -> s <= SIZE_MAX ->
  exists q m', SharedPtr_clear p m = Done q m' /\ sp_cb q = None
               /\ Mem_ok a k (s - wt a (sp_cb p)) w m'.
Proof using Hm Hs Hw.
  intros Hl Hle Hlt.
  destruct (local_cases _ Hl) as [[E Ew]|[E Ew]]; rewrite Ew in *.
  - unfold SharedPtr_clear. rewrite E. exists p, m. split; [reflexivity|].
    split; [exact E|]. apply Mem_ok_same; lia.
  - destruct (release_strong p E) as (m' & E' & Hm'); [lia|]. eauto.
Qed.

Lemma WeakPtr_ctor_shared_spec (p : SharedPtr) (v : WeakPtr) m' :
  WeakPtr_ctor_shared p m = Done v m' ->
  local a (sp_cb p) -> wt a (sp_cb p) <= s -> w < SIZE_MAX ->
  wp_cb v = sp_cb p /\ Mem_ok a k s (w + wt a (sp_cb p)) m'.
Proof using Hm Hs Hw.
  intros Hrun Hl Hle Hlt. unfold WeakPtr_ctor_shared in Hrun.
  destruct (local_cases _ Hl) as [[E Ew]|[E Ew]]; rewrite E in *; rewrite Ew in *.
  - discriminate Hrun.
  - destruct acquire_weak as (m1 & E' & Hm'); [lia|lia|].
    unfold bind, ret in Hrun. rewrite E' in Hrun. injection Hrun as <- <-. auto.
Qed.

Lemma WeakPtr_ctor_shared_Y_spec (p : SharedPtr) :
  local a (sp_cb p) -> wt a (sp_cb p) <= s -> w < SIZE_MAX ->
  exists v m', WeakPtr_ctor_shared_Y p m = Done v m' /\ wp_cb v = sp_cb p
               /\ Mem_ok a k s (w + wt a (sp_cb p)) m'.
Proof using Hm Hs Hw.
  intros Hl Hle Hlt. unfold WeakPtr_ctor_shared_Y.
  destruct (local_cases _ Hl) as [[E Ew]|[E Ew]]; rewrite E in *; rewrite Ew in *.
  - do 2 eexists. split; [reflexivity|]. split; [reflexivity|].
    apply Mem_ok_same; lia.
  - destruct acquire_weak as (m' & E' & Hm'); [lia|lia|].
    unfold bind, ret. rewrite E'. eauto.
Qed.

Lemma WeakPtr_copy_ctor_spec (u v : WeakPtr) m' :
  WeakPtr_copy_ctor u m = Done v m' ->
  local a (wp_cb u) -> wt a (wp_cb u) <= w -> w < SIZE_MAX ->
  wp_cb v = wp_cb u /\ Mem_ok a k s (w + wt a (wp_cb u)) m'.
Proof using Hm Hs Hw.
  intros Hrun Hl Hle Hlt. unfold WeakPtr_copy_ctor in Hrun.
  destruct (local_cases _ Hl) as [[E Ew]|[E Ew]]; rewrite E in *; rewrite Ew in *.
  - discriminate Hrun.
  - destruct acquire_weak as (m1 & E' & Hm'); [lia|lia|].
    unfold bind, ret in Hrun. rewrite E' in Hrun. injection Hrun as <- <-. auto.
Qed.

Lemma WeakPtr_copy_ctor_Y_spec (u : WeakPtr) :
  local a (wp_cb u) -> wt a (wp_cb u) <= w -> w < SIZE_MAX ->
  exists v m', WeakPtr_copy_ctor_Y u m = Done v m' /\ wp_cb v = wp_cb u
               /\ Mem_ok a k s (w + wt a (wp_cb u)) m'.
Proof using Hm Hs Hw.
  intros Hl Hle Hlt. unfold WeakPtr_copy_ctor_Y.
  destruct (local_cases _ Hl) as [[E Ew]|[E Ew]]; rewrite E in *; rewrite Ew in *.
  - do 2 eexists. split; [reflexivity|]. split; [reflexivity|].
    apply Mem_ok_same; lia.
  - destruct acquire_weak as (m' & E' & Hm'); [lia|lia|].
    unfold bind, ret. rewrite E'. eauto.
Qed.

Lemma WeakPtr_clear_spec (u : WeakPtr) :
  local a (wp_cb u) -> wt a (wp_cb u) <= w -> w <= SIZE_MAX ->
  exists v m', WeakPtr_clear u m = Done v m' /\ wp_cb v = None
               /\ Mem_ok a k s (w - wt a (wp_cb u)) m'.
Proof using Hm Hs Hw.
  intros Hl Hle Hlt.
  destruct (local_cases _ Hl) as [[E Ew]|[E Ew]]; rewrite Ew in *.
  - unfold WeakPtr_clear. rewrite E. exists u, m. split; [reflexivity|].
    split; [exact E|]. apply Mem_ok_same; lia.
  - destruct (release_weak u E) as (m' & E' & Hm'); [lia|]. eauto.
Qed.
End Ops.

Lemma destruct_done {A B} (c : M A) (f : A -> M B) mm :
  forall x m1, c mm = Done x m1 -> bind c f mm = f x m1.
Proof. intros x m1 E. unfold bind. now rewrite E. Qed.

Lemma SharedPtr_dtor_spec s w m (p : SharedPtr) :
  Mem_ok a k s w m -> 0 <= s -> 0 <= w ->
  local a (sp_cb p) -> wt a (sp_cb p) <= s -> s <= SIZE_MAX ->
  exists m', SharedPtr_dtor p m = Done tt m' /\ Mem_ok a k (s - wt a (sp_cb p)) w m'.
Proof.
  intros Hm Hs Hw Hl Hle Hlt.
  destruct (SharedPtr_clear_spec s w m Hm Hs Hw p Hl Hle Hlt) as (q & m' & E & _ & Hm').
  exists m'. split; [|exact Hm']. unfold SharedPtr_dtor.
  now rewrite (destruct_done _ _ _ _ _ E).
Qed.

Lemma WeakPtr_dtor_spec s w m (u : WeakPtr) :
  Mem_ok a k s w m -> 0 <= s -> 0 <= w ->
  local a (wp_cb u) -> wt a (wp_cb u) <= w -> w <= SIZE_MAX ->
  exists m', WeakPtr_dtor u m = Done tt m' /\ Mem_ok a k s (w - wt a (wp_cb u)) m'.
Proof.
  intros Hm Hs Hw Hl Hle Hlt.
  destruct (WeakPtr_clear_spec s w m Hm Hs Hw u Hl Hle Hlt) as (q & m' & E & _ & Hm').
  exists m'. split; [|exact Hm']. unfold WeakPtr_dtor.
  now rewrite (destruct_done _ _ _ _ _ E).
Qed.

Lemma SharedPtr_reset_spec s w m (p : SharedPtr) :
  Mem_ok a k s w m -> 0 <= s -> 0 <= w ->
  local a (sp_cb p) -> wt a (sp_cb p) <= s -> s <= SIZE_MAX ->
  exists m', SharedPtr_reset p m = Done (mkSharedPtr nullptr nullptr) m'
             /\ Mem_ok a k (s - wt a (sp_cb p)) w m'.
Proof.
  intros Hm Hs Hw Hl Hle Hlt. unfold SharedPtr_reset, SharedPtr_swap.
  destruct (SharedPtr_dtor_spec s w m (mkSharedPtr (sp_ptr p) (sp_cb p)) Hm Hs Hw Hl Hle Hlt)
    as (m' & E & Hm').
  exists m'. split; [|exact Hm']. now rewrite (destruct_done _ _ _ _ _ E).
Qed.

Lemma SharedPtr_assign_spec s w m (p q : SharedPtr) :
  Mem_ok a k s w m -> 0 <= s -> 0 <= w ->
  local a (sp_cb p) -> wt a (sp_cb p) <= s ->
  local a (sp_cb q) -> wt a (sp_cb q) <= s -> s < SIZE_MAX ->
  exists r m', SharedPtr_assign p (Other q) m = Done r m' /\ sp_cb r = sp_cb q
               /\ Mem_ok a k (s + wt a (sp_cb q) - wt a (sp_cb p)) w m'.
Proof.
  intros Hm Hs Hw Hlp Hp Hlq Hq Hlt. unfold SharedPtr_assign.
  destruct (SharedPtr_copy_ctor_spec s w m Hm Hs Hw q Hlq Hq Hlt) as (c & m1 & E1 & Hc & Hm1).
  rewrite (destruct_done _ _ _ _ _ E1). unfold SharedPtr_swap.
  pose proof (wt_range (sp_cb q)).
  destruct (SharedPtr_dtor_spec _ w m1 (mkSharedPtr (sp_ptr p) (sp_cb p)) Hm1) as (m2 & E2 & Hm2);
    try (proj; lia); [exact Hlp|].
  rewrite (destruct_done _ _ _ _ _ E2). do 2 eexists. split; [reflexivity|].
  split; [exact Hc|exact Hm2].
Qed.

Lemma SharedPtr_assign_Y_spec s w m (p q r : SharedPtr) m' :
  SharedPtr_assign_Y p q m = Done r m' ->
  Mem_ok a k s w m -> 0 <= s -> 0 <= w ->
  local a (sp_cb p) -> wt a (sp_cb p) <= s ->
  local a (sp_cb q) -> wt a (sp_cb q) <= s -> s < SIZE_MAX ->
  sp_cb r = sp_cb q /\ Mem_ok a k (s + wt a (sp_cb q) - wt a (sp_cb p)) w m'.
Proof.
  intros Hrun Hm Hs Hw Hlp Hp Hlq Hq Hlt. unfold SharedPtr_assign_Y in Hrun.
  unfold bind at 1 in Hrun.
  destruct (SharedPtr_copy_ctor_Y q m) as [c m1| |] eqn:E1; try discriminate Hrun.
  destruct (SharedPtr_copy_ctor_Y_spec s w m Hm Hs Hw q c m1 E1 Hlq Hq Hlt) as [Hc Hm1].
  unfold SharedPtr_swap in Hrun. pose proof (wt_range (sp_cb q)).
  destruct (SharedPtr_dtor_spec _ w m1 (mkSharedPtr (sp_ptr p) (sp_cb p)) Hm1) as (m2 & E2 & Hm2);
    try (proj; lia); [exact Hlp|].
  rewrite (destruct_done _ _ _ _ _ E2) in Hrun. injection Hrun as <- <-.
  split; [exact Hc|exact Hm2].
Qed.

Lemma SharedPtr_move_assign_spec s w m (p q : SharedPtr) :
  Mem_ok a k s w m -> 0 <= s -> 0 <= w ->
  local a (sp_cb p) -> wt a (sp_cb p) <= s -> s <= SIZE_MAX ->
  exists r m', SharedPtr_move_assign p (Other q) m
                 = Done (r, Other (mkSharedPtr nullptr nullptr)) m'
               /\ sp_cb r = sp_cb q /\ Mem_ok a k (s - wt a (sp_cb p)) w m'.
Proof.
  intros Hm Hs Hw Hlp Hp Hlt. unfold SharedPtr_move_assign, SharedPtr_move_ctor, SharedPtr_swap.
  destruct (SharedPtr_dtor_spec s w m (mkSharedPtr (sp_ptr p) (sp_cb p)) Hm Hs Hw Hlp Hp Hlt)
    as (m2 & E2 & Hm2). proj.
  rewrite (destruct_done _ _ _ _ _ E2). do 2 eexists. split; [reflexivity|].
  split; [reflexivity|exact Hm2].
Qed.

Lemma SharedPtr_move_assign_self m (p : SharedPtr) :
  SharedPtr_move_assign p This m
    = Done (mkSharedPtr (sp_ptr p) (sp_cb p), This) m.
Proof. reflexivity. Qed.

Lemma WeakPtr_assign_spec s w m (u v r : WeakPtr) m' :
  WeakPtr_assign u (Other v) m = Done r m' ->
  Mem_ok a k s w m -> 0 <= s -> 0 <= w ->
  local a (wp_cb u) -> wt a (wp_cb u) <= w ->
  local a (wp_cb v) -> wt a (wp_cb v) <= w -> w < SIZE_MAX ->
  wp_cb r = wp_cb v /\ Mem_ok a k s (w + wt a (wp_cb v) - wt a (wp_cb u)) m'.
Proof.
  intros Hrun Hm Hs Hw Hlp Hp Hlq Hq Hlt. unfold WeakPtr_assign in Hrun.
  unfold bind at 1 in Hrun.
  destruct (WeakPtr_copy_ctor v m) as [c m1| |] eqn:E1; try discriminate Hrun.
  destruct (WeakPtr_copy_ctor_spec s w m Hm Hs Hw v c m1 E1 Hlq Hq Hlt) as [Hc Hm1].
  unfold WeakPtr_swap in Hrun. pose proof (wt_range (wp_cb v)).
  destruct (WeakPtr_dtor_spec s _ m1 (mkWeakPtr (wp_ptr u) (wp_cb u)) Hm1) as (m2 & E2 & Hm2);
    try (proj; lia); [exact Hlp|].
  rewrite (destruct_done _ _ _ _ _ E2) in Hrun. injection Hrun as <- <-.
  split; [exact Hc|exact Hm2].
Qed.

Lemma WeakPtr_assign_Y_spec s w m (u v : WeakPtr) :
  Mem_ok a k s w m -> 0 <= s -> 0 <= w ->
  local a (wp_cb u) -> wt a (wp_cb u) <= w ->
  local a (wp_cb v) -> wt a (wp_cb v) <= w -> w < SIZE_MAX ->
  exists r m', WeakPtr_assign_Y u v m = Done r m' /\ wp_cb r = wp_cb v
               /\ Mem_ok a k s (w + wt a (wp_cb v) - wt a (wp_cb u)) m'.
Proof.
  intros Hm Hs Hw Hlp Hp Hlq Hq Hlt. unfold WeakPtr_assign_Y.
  destruct (WeakPtr_copy_ctor_Y_spec s w m Hm Hs Hw v Hlq Hq Hlt) as (c & m1 & E1 & Hc & Hm1).
  rewrite (destruct_done _ _ _ _ _ E1). unfold WeakPtr_swap.
  pose proof (wt_range (wp_cb v)).
  destruct (WeakPtr_dtor_spec s _ m1 (mkWeakPtr (wp_ptr u) (wp_cb u)) Hm1) as (m2 & E2 & Hm2);
    try (proj; lia); [exact Hlp|].
  rewrite (destruct_done _ _ _ _ _ E2). do 2 eexists. split; [reflexivity|].
  split; [exact Hc|exact Hm2].
Qed.

Lemma WeakPtr_move_assign_spec s w m (u v : WeakPtr) :
  Mem_ok a k s w m -> 0 <= s -> 0 <= w ->
  local a (wp_cb u) -> wt a (wp_cb u) <= w -> w <= SIZE_MAX ->
  exists r m', WeakPtr_move_assign u (Other v) m
                 = Done (r, Other (mkWeakPtr nullptr nullptr)) m'
               /\ wp_cb r = wp_cb v /\ Mem_ok a k s (w - wt a (wp_cb u)) m'.
Proof.
  intros Hm Hs Hw Hlp Hp Hlt. unfold WeakPtr_move_assign, WeakPtr_move_ctor, WeakPtr_swap.
  destruct (WeakPtr_dtor_spec s w m (mkWeakPtr (wp_ptr u) (wp_cb u)) Hm Hs Hw Hlp Hp Hlt)
    as (m2 & E2 & Hm2). proj.
  rewrite (destruct_done _ _ _ _ _ E2). do 2 eexists. split; [reflexivity|].
  split; [reflexivity|exact Hm2].
Qed.

Lemma WeakPtr_move_assign_self m (u : WeakPtr) :
  WeakPtr_move_assign u This m = Done (mkWeakPtr (wp_ptr u) (wp_cb u), This) m.
Proof. reflexivity. Qed.

(** [lock()] on a handle of the block: an upgrade while strong handles
    are left, an empty handle otherwise. *)
Lemma WeakPtr_lock_spec s w m (u : WeakPtr) :
  Mem_ok a k s w m -> 0 <= s -> 0 <= w ->
  local a (wp_cb u) -> wt a (wp_cb u) <= w -> s < SIZE_MAX -> w < SIZE_MAX ->
  exists q m', WeakPtr_lock u m = Done q m' /\ local a (sp_cb q)
               /\ Mem_ok a k (s + wt a (sp_cb q)) w m'.
Proof.
  intros Hm Hs Hw Hl Hle Hlts Hltw. unfold WeakPtr_lock, WeakPtr_expired, WeakPtr_use_count.
  destruct (local_cases _ Hl) as [[E Ew]|[E Ew]]; rewrite E in *; rewrite Ew in *.
  - exists SharedPtr_ctor, m. split; [reflexivity|]. split; [now left|].
    apply (Mem_ok_same s w m Hm); trivial. cbn. unfold nullptr. rewrite wt_None. lia.
  - pose proof (Mem_ok_live _ _ _ Hm Hs Hw ltac:(lia)) as Hlive.
    unfold WeakPtr_copy_ctor, SharedPtr_ctor_weak, bind, ret. proj.
    rewrite (read_shared_live _ _ _ Hlive). proj.
    destruct (s =? 0) eqn:Es.
    + exists SharedPtr_ctor, m. split; [reflexivity|]. split; [now left|].
      apply (Mem_ok_same s w m Hm); trivial. cbn. unfold nullptr. rewrite wt_None. lia.
    + destruct (acquire_weak s w m Hm Hs Hw) as (m1 & E1 & Hm1); [lia|lia|].
      rewrite E, E1. proj.
      pose proof (Mem_ok_live _ _ _ Hm1 Hs ltac:(lia) ltac:(lia)) as Hlive1.
      rewrite (read_shared_live _ _ _ Hlive1). proj. rewrite Es.
      destruct (acquire_strong s (w + 1) m1 Hm1 Hs ltac:(lia)) as (m2 & E2 & Hm2); [lia|].
      rewrite E2.
      destruct (WeakPtr_dtor_spec (s + 1) (w + 1) m2 (mkWeakPtr (wp_ptr u) (Some a)) Hm2)
        as (m3 & E3 & Hm3); proj; rewrite ?wt_Some; try lia; [now right|].
      rewrite E3. do 2 eexists. split; [reflexivity|].
      proj. split; [now right|]. cbn [wp_cb] in Hm3. rewrite wt_Some in *.
      replace (w + 1 - 1) with w in Hm3 by lia. exact Hm3.
Qed.
End OneBlock.

(** * Counting handles *)

Lemma weight_Some {A} (cb : A -> pointer) a h : weight cb a (Some h) = wt a (cb h).
Proof. reflexivity. Qed.

Lemma weight_None {A} (cb : A -> pointer) a : weight cb a None = 0.
Proof. reflexivity. Qed.

Lemma count_refs_cons {A} (cb : A -> pointer) a o l :
  count_refs cb a (o :: l) = weight cb a o + count_refs cb a l.
Proof. reflexivity. Qed.

Lemma weight_range {A} (cb : A -> pointer) a o : 0 <= weight cb a o <= 1.
Proof. unfold weight. destruct (references cb a o); lia. Qed.

Lemma count_refs_nonneg {A} (cb : A -> pointer) a l : 0 <= count_refs cb a l.
Proof.
  induction l as [|o l IH]; [reflexivity|].
  rewrite count_refs_cons. pose proof (weight_range cb a o). lia.
Qed.

Lemma count_refs_app {A} (cb : A -> pointer) a l1 l2 :
  count_refs cb a (l1 ++ l2) = count_refs cb a l1 + count_refs cb a l2.
Proof.
  induction l1 as [|o l1 IH]; [reflexivity|].
  rewrite <- app_comm_cons, !count_refs_cons, IH. lia.
Qed.

Lemma count_refs_snoc {A} (cb : A -> pointer) a l o :
  count_refs cb a (l ++ [o]) = count_refs cb a l + weight cb a o.
Proof. rewrite count_refs_app, count_refs_cons. cbn. lia. Qed.

Lemma count_refs_insert {A} (cb : A -> pointer) a l i o o' :
  l !! i = Some o ->
  count_refs cb a (<[i := o']> l) = count_refs cb a l - weight cb a o + weight cb a o'.
Proof.
  revert i. induction l as [|x l IH]; intros [|i] H; try discriminate.
  - injection H as ->. cbn [insert list_insert]. rewrite !count_refs_cons. lia.
  - cbn in H. change (<[S i := o']> (x :: l)) with (x :: <[i := o']> l).
    rewrite !count_refs_cons, (IH i H). lia.
Qed.

Lemma count_refs_lookup {A} (cb : A -> pointer) a l i o :
  l !! i = Some o -> weight cb a o <= count_refs cb a l.
Proof.
  revert i. induction l as [|x l IH]; intros [|i] H; try discriminate.
  - injection H as ->. rewrite count_refs_cons. pose proof (count_refs_nonneg cb a l). lia.
  - cbn in H. rewrite count_refs_cons. pose proof (IH i H). pose proof (weight_range cb a x). lia.
Qed.

Lemma object_Some {A} (l : list (option A)) i x :
  object l i = Some x -> l !! i = Some (Some x).
Proof.
  unfold object. destruct (l !! i) as [[y|]|]; try discriminate. now intros [= ->].
Qed.

(** * The invariant of a program over one control block *)

Lemma all_local_snoc {A} (cb : A -> pointer) a l h :
  all_local cb a l -> local a (cb h) -> all_local cb a (l ++ [Some h]).
Proof.
  intros Hl Hh. apply Forall_app. split; [exact Hl|].
  constructor; [|constructor]. now intros ? [= <-].
Qed.

Lemma all_local_insert {A} (cb : A -> pointer) a l i h :
  all_local cb a l -> local a (cb h) -> all_local cb a (<[i := Some h]> l).
Proof. intros Hl Hh. apply Forall_insert; [exact Hl|]. now intros ? [= <-]. Qed.

Lemma all_local_kill {A} (cb : A -> pointer) a l i :
  all_local cb a l -> all_local cb a (<[i := None]> l).
Proof. intros Hl. apply Forall_insert; [exact Hl|]. discriminate. Qed.

Lemma all_local_object {A} (cb : A -> pointer) a l i h :
  all_local cb a l -> object l i = Some h ->
  l !! i = Some (Some h) /\ local a (cb h) /\ wt a (cb h) <= count_refs cb a l.
Proof.
  intros Hl Ho. apply object_Some in Ho. split; [exact Ho|]. split.
  - exact (Forall_lookup_1 _ _ _ _ Hl Ho h eq_refl).
  - rewrite <- weight_Some. now apply count_refs_lookup with i.
Qed.

Lemma local_None a : local a None.
Proof. now left. Qed.

(** * Steps preserve the invariant *)

Lemma finish_Some {A} (r : outcome A) k st' :
  finish r k = Some st' -> exists x m, r = Done x m /\ st' = k x m.
Proof. destruct r; try discriminate. intros [= <-]. eauto. Qed.

Lemma insert_other_lookup {A} (l : list A) i j x y :
  Nat.eqb i j = false -> l !! i = Some x -> <[j := y]> l !! i = Some x.
Proof.
  intros Hne Hi. apply Nat.eqb_neq in Hne. rewrite list_lookup_insert_ne; auto.
Qed.

Lemma insert_same_lookup {A} (l : list A) i x y :
  l !! i = Some x -> <[i := y]> l !! i = Some y.
Proof. intros Hi. apply list_lookup_insert_eq. eauto using lookup_lt_Some. Qed.

Ltac counts :=
  unfold handles, strong_handles, weak_handles in *; cbn [strongs weaks mem] in *;
  repeat match goal with
  | |- context [count_refs _ _ (_ ++ [_])] => rewrite count_refs_snoc
  | |- context [count_refs _ _ (<[_ := _]> _)] => erewrite count_refs_insert by eassumption
  end;
  rewrite ?weight_Some, ?weight_None; cbn [sp_cb wp_cb]; unfold nullptr; rewrite ?wt_None.

Ltac same Hm := eapply (Mem_ok_same _ _ _ _ _ Hm); lia.

Ltac locals :=
  cbn [strongs weaks];
  repeat first
    [ assumption
    | apply all_local_snoc
    | apply all_local_insert
    | apply all_local_kill
    | apply local_None
    | progress cbn [sp_cb wp_cb]
    | match goal with E : ?x = _ |- local _ ?x => rewrite E end ].

Ltac strong_obj H HS a i p :=
  let Hp := fresh "Hp" in
  destruct (object _ i) as [p|] eqn:Hp; [|discriminate H]; simpl in H;
  let Hi := fresh "Hi" in let Hl := fresh "Hl" in let Hle := fresh "Hle" in
  destruct (all_local_object _ _ _ _ _ HS Hp) as (Hi & Hl & Hle);
  pose proof (wt_range a (sp_cb p)).

Ltac weak_obj H HW a i p :=
  let Hp := fresh "Hp" in
  destruct (object _ i) as [p|] eqn:Hp; [|discriminate H]; simpl in H;
  let Hi := fresh "Hi" in let Hl := fresh "Hl" in let Hle := fresh "Hle" in
  destruct (all_local_object _ _ _ _ _ HW Hp) as (Hi & Hl & Hle);
  pose proof (wt_range a (wp_cb p)).

Ltac use_eqs :=
  repeat match goal with
  | E : sp_cb ?x = _ |- context [sp_cb ?x] => rewrite E
  | E : wp_cb ?x = _ |- context [wp_cb ?x] => rewrite E
  end.

Ltac done_inv Hm :=
  split; [constructor; [locals | locals | counts; use_eqs; same Hm]
         | counts; use_eqs; lia].

Section Step.
Variables (a : addr) (k : block_kind).

Lemma step_Inv o st st' :
  Inv a k st -> handles a st < SIZE_MAX -> step o st = Some st' ->
  Inv a k st' /\ handles a st' <= handles a st + 1.
Proof.
  intros [HS HW HM] Hb H.
  pose proof (count_refs_nonneg sp_cb a (strongs st)) as Hs0.
  pose proof (count_refs_nonneg wp_cb a (weaks st)) as Hw0.
  unfold handles, strong_handles, weak_handles in Hb, HM.
  destruct o; unfold step in H.
  - (* SCopy *)
    strong_obj H HS a i p.
    destruct (SharedPtr_copy_ctor_spec a k _ _ _ HM Hs0 Hw0 p Hl Hle ltac:(lia))
      as (q & m' & E & Hq & Hm').
    rewrite E in H. injection H as <-. done_inv Hm'.
  - (* SCopyY *)
    strong_obj H HS a i p.
    apply finish_Some in H as (q & m' & E & ->).
    destruct (SharedPtr_copy_ctor_Y_spec a k _ _ _ HM Hs0 Hw0 p q m' E Hl Hle ltac:(lia))
      as (Hq & Hm').
    done_inv Hm'.
  - (* SMove *)
    strong_obj H HS a i p. injection H as <-. done_inv HM.
  - (* SAssign *)
    strong_obj H HS a i p. strong_obj H HS a j q. unfold refer in H.
    destruct (Nat.eqb i j) eqn:Eij.
    + injection H as <-. done_inv HM.
    + destruct (SharedPtr_assign_spec a k _ _ _ p q HM Hs0 Hw0 Hl Hle Hl0 Hle0 ltac:(lia))
        as (r & m' & E & Hr & Hm').
      rewrite E in H. injection H as <-. done_inv Hm'.
  - (* SAssignY *)
    strong_obj H HS a i p. strong_obj H HS a j q.
    destruct (Nat.eqb i j) eqn:Eij; [discriminate H|].
    apply finish_Some in H as (r & m' & E & ->).
    destruct (SharedPtr_assign_Y_spec a k _ _ _ p q r m' E HM Hs0 Hw0 Hl Hle Hl0 Hle0 ltac:(lia))
      as (Hr & Hm').
    done_inv Hm'.
  - (* SMoveAssign *)
    strong_obj H HS a i p. strong_obj H HS a j q. unfold refer in H.
    destruct (Nat.eqb i j) eqn:Eij.
    + rewrite SharedPtr_move_assign_self in H. injection H as <-.
      cbn [store_ref]. done_inv HM.
    + destruct (SharedPtr_move_assign_spec a k _ _ _ p q HM Hs0 Hw0 Hl Hle ltac:(lia))
        as (r & m' & E & Hr & Hm').
      rewrite E in H. injection H as <-. cbn [store_ref].
      pose proof (insert_other_lookup _ _ _ _ (Some (mkSharedPtr nullptr nullptr)) Eij Hi).
      done_inv Hm'.
  - (* SReset *)
    strong_obj H HS a i p.
    destruct (SharedPtr_reset_spec a k _ _ _ p HM Hs0 Hw0 Hl Hle ltac:(lia))
      as (m' & E & Hm').
    rewrite E in H. injection H as <-. done_inv Hm'.
  - (* SSwap *)
    strong_obj H HS a i p. strong_obj H HS a j q. injection H as <-.
    destruct (Nat.eqb i j) eqn:Eij.
    + apply Nat.eqb_eq in Eij. subst j.
      assert (q = p) as -> by congruence.
      pose proof (insert_same_lookup _ _ _ (Some (mkSharedPtr (sp_ptr p) (sp_cb p))) Hi).
      done_inv HM.
    + pose proof (insert_other_lookup _ _ _ _ (Some (mkSharedPtr (sp_ptr p) (sp_cb p))) Eij Hi).
      done_inv HM.
  - (* SDestroy *)
    strong_obj H HS a i p.
    destruct (SharedPtr_dtor_spec a k _ _ _ p HM Hs0 Hw0 Hl Hle ltac:(lia))
      as (m' & E & Hm').
    rewrite E in H. injection H as <-. done_inv Hm'.
  - (* WFromS *)
    strong_obj H HS a i p.
    apply finish_Some in H as (v & m' & E & ->).
    destruct (WeakPtr_ctor_shared_spec a k _ _ _ HM Hs0 Hw0 p v m' E Hl Hle ltac:(lia))
      as (Hv & Hm').
    done_inv Hm'.
  - (* WFromSY *)
    strong_obj H HS a i p.
    destruct (WeakPtr_ctor_shared_Y_spec a k _ _ _ HM Hs0 Hw0 p Hl Hle ltac:(lia))
      as (v & m' & E & Hv & Hm').
    rewrite E in H. injection H as <-. done_inv Hm'.
  - (* WCopy *)
    weak_obj H HW a i u.
    apply finish_Some in H as (v & m' & E & ->).
    destruct (WeakPtr_copy_ctor_spec a k _ _ _ HM Hs0 Hw0 u v m' E Hl Hle ltac:(lia))
      as (Hv & Hm').
    done_inv Hm'.
  - (* WCopyY *)
    weak_obj H HW a i u.
    destruct (WeakPtr_copy_ctor_Y_spec a k _ _ _ HM Hs0 Hw0 u Hl Hle ltac:(lia))
      as (v & m' & E & Hv & Hm').
    rewrite E in H. injection H as <-. done_inv Hm'.
  - (* WMove *)
    weak_obj H HW a i u. injection H as <-. done_inv HM.
  - (* WAssign *)
    weak_obj H HW a i u. weak_obj H HW a j v. unfold refer in H.
    destruct (Nat.eqb i j) eqn:Eij.
    + injection H as <-. done_inv HM.
    + apply finish_Some in H as (r & m' & E & ->).
      destruct (WeakPtr_assign_spec a k _ _ _ u v r m' E HM Hs0 Hw0 Hl Hle Hl0 Hle0 ltac:(lia))
        as (Hr & Hm').
      done_inv Hm'.
  - (* WAssignY *)
    weak_obj H HW a i u. weak_obj H HW a j v.
    destruct (Nat.eqb i j) eqn:Eij; [discriminate H|].
    destruct (WeakPtr_assign_Y_spec a k _ _ _ u v HM Hs0 Hw0 Hl Hle Hl0 Hle0 ltac:(lia))
      as (r & m' & E & Hr & Hm').
    rewrite E in H. injection H as <-. done_inv Hm'.
  - (* WMoveAssign *)
    weak_obj H HW a i u. weak_obj H HW a j v. unfold refer in H.
    destruct (Nat.eqb i j) eqn:Eij.
    + rewrite WeakPtr_move_assign_self in H. injection H as <-.
      cbn [store_ref]. done_inv HM.
    + destruct (WeakPtr_move_assign_spec a k _ _ _ u v HM Hs0 Hw0 Hl Hle ltac:(lia))
        as (r & m' & E & Hr & Hm').
      rewrite E in H. injection H as <-. cbn [store_ref].
      pose proof (insert_other_lookup _ _ _ _ (Some (mkWeakPtr nullptr nullptr)) Eij Hi).
      done_inv Hm'.
  - (* WDestroy *)
    weak_obj H HW a i u.
    destruct (WeakPtr_dtor_spec a k _ _ _ u HM Hs0 Hw0 Hl Hle ltac:(lia))
      as (m' & E & Hm').
    rewrite E in H. injection H as <-. done_inv Hm'.
  - (* WLock *)
    weak_obj H HW a i u.
    destruct (WeakPtr_lock_spec a k _ _ _ u HM Hs0 Hw0 Hl Hle ltac:(lia) ltac:(lia))
      as (q & m' & E & Hq & Hm').
    rewrite E in H. injection H as <-. pose proof (wt_range a (sp_cb q)). done_inv Hm'.
Qed.
End Step.

Section Run.
Variables (a : addr) (k : block_kind).

Lemma run_Inv ops : forall st st',
  Inv a k st -> handles a st + Z.of_nat (length ops) <= SIZE_MAX ->
  run ops st = Some st' -> Inv a k st'.
Proof.
  induction ops as [|o ops IH]; intros st st' HI Hb H.
  - now injection H as <-.
  - cbn [run] in H. destruct (step o st) as [st1|] eqn:E; [|discriminate H].
    cbn [length] in Hb.
    destruct (step_Inv a k o st st1 HI ltac:(lia) E) as [HI1 Hb1].
    apply (IH st1 st' HI1); [lia|exact H].
Qed.

Lemma run_app ops1 ops2 st :
  run (ops1 ++ ops2) st = match run ops1 st with
                          | Some st1 => run ops2 st1
                          | None => None
                          end.
Proof.
  revert st. induction ops1 as [|o ops1 IH]; intros st; [reflexivity|].
  cbn [run app]. destruct (step o st); [apply IH|reflexivity].
Qed.

(** A program that starts with one [SharedPtr] on a freshly made block. *)
Lemma Inv_initial (sp : SharedPtr) (m0 : Memory) :
  sp_cb sp = Some a -> heap m0 !! a = Some (Block (mkBlock 1 0 k)) -> log m0 = [] ->
  payload_inert a k m0 = true ->
  Inv a k (mkProgram [Some sp] [] m0) /\ handles a (mkProgram [Some sp] [] m0) = 1.
Proof.
  intros Hcb Hh Hl Hin.
  assert (Hc : count_refs sp_cb a [Some sp] = 1).
  { cbn. rewrite Hcb, bool_decide_eq_true_2; reflexivity. }
  split.
  - constructor; cbn [strongs weaks mem].
    + constructor; [|constructor]. intros h [= <-]. right. exact Hcb.
    + constructor.
    + unfold strong_handles, weak_handles. cbn [strongs weaks]. rewrite Hc.
      split; [exact Hh|split; [exact Hl|exact Hin]].
  - unfold handles, strong_handles, weak_handles. cbn [strongs weaks]. rewrite Hc. reflexivity.
Qed.

Lemma reachable_Inv (sp : SharedPtr) (m0 : Memory) ops st :
  sp_cb sp = Some a -> heap m0 !! a = Some (Block (mkBlock 1 0 k)) -> log m0 = [] ->
  payload_inert a k m0 = true ->
  Z.of_nat (length ops) < SIZE_MAX ->
  run ops (mkProgram [Some sp] [] m0) = Some st ->
  Inv a k st.
Proof.
  intros Hcb Hh Hl Hin Hb H.
  destruct (Inv_initial sp m0 Hcb Hh Hl Hin) as [HI H1].
  apply (run_Inv ops _ st HI); [lia|exact H].
Qed.
End Run.

(** * Calls made by the operations of [WeakPtr] *)

Lemma bind_inv {A B} (c : M A) (f : A -> M B) m x m' :
  bind c f m = Done x m' -> exists y m1, c m = Done y m1 /\ f y m1 = Done x m'.
Proof. unfold bind. destruct (c m) as [y m1| |]; try discriminate. eauto. Qed.

Lemma ret_inv {A} (x y : A) m m' : ret x m = Done y m' -> y = x /\ m' = m.
Proof. now intros [= -> ->]. Qed.

Lemma quiet_refl m : quiet m m.
Proof. exists []. now rewrite app_nil_r. Qed.

Lemma quiet_same m m' : log m' = log m -> quiet m m'.
Proof. intros E. exists []. now rewrite app_nil_r. Qed.

Lemma quiet_trans m1 m2 m3 : quiet m1 m2 -> quiet m2 m3 -> quiet m1 m3.
Proof.
  intros (e1 & E1 & F1) (e2 & E2 & F2). exists (e1 ++ e2). split.
  - now rewrite E2, E1, app_assoc.
  - now rewrite forallb_app, F1, F2.
Qed.

Ltac prim H :=
  unfold incr_shared, decr_shared, incr_weak, decr_weak, read_shared, read_weak,
    deallocate, put, deref, bind, ret in H;
  match type of H with
  | context [match ?c with Some _ => _ | None => _ end] =>
      destruct c as [?a|]; [|discriminate H]
  end;
  match type of H with
  | context [heap ?m !! ?a] => destruct (heap m !! a) as [[|?b]|]; try discriminate H
  end;
  injection H as <- <-.

Lemma incr_shared_log c m x m' : incr_shared c m = Done x m' -> log m' = log m.
Proof. intros H. prim H. reflexivity. Qed.

Lemma incr_weak_log c m x m' : incr_weak c m = Done x m' -> log m' = log m.
Proof. intros H. prim H. reflexivity. Qed.

Lemma decr_weak_log c m x m' : decr_weak c m = Done x m' -> log m' = log m.
Proof. intros H. prim H. reflexivity. Qed.

Lemma read_shared_same c m x m' : read_shared c m = Done x m' -> m' = m.
Proof. intros H. prim H. reflexivity. Qed.

Lemma read_weak_same c m x m' : read_weak c m = Done x m' -> m' = m.
Proof. intros H. prim H. reflexivity. Qed.

Lemma deallocate_quiet c m x m' : deallocate c m = Done x m' -> quiet m m'.
Proof. intros H. prim H. eexists. split; reflexivity. Qed.

Lemma WeakPtr_clear_quiet u m v m' : WeakPtr_clear u m = Done v m' -> quiet m m'.
Proof.
  unfold WeakPtr_clear. destruct (wp_cb u) as [a|].
  - intros H.
    apply bind_inv in H as (? & m1 & H1 & H). apply decr_weak_log in H1.
    apply bind_inv in H as (s & m2 & H2 & H). apply read_shared_same in H2 as ->.
    apply bind_inv in H as (w & m3 & H3 & H). apply read_weak_same in H3 as ->.
    apply bind_inv in H as (? & m4 & H4 & H). apply ret_inv in H as [_ ->].
    apply quiet_trans with m1; [now apply quiet_same|].
    destruct ((s =? 0) && (w =? 0)).
    + now apply deallocate_quiet in H4.
    + apply ret_inv in H4 as [_ ->]. apply quiet_refl.
  - intros H. apply ret_inv in H as [_ ->]. apply quiet_refl.
Qed.

Lemma WeakPtr_dtor_quiet u m x m' : WeakPtr_dtor u m = Done x m' -> quiet m m'.
Proof.
  unfold WeakPtr_dtor. intros H. apply bind_inv in H as (v & m1 & H1 & H).
  apply ret_inv in H as [_ ->]. now apply WeakPtr_clear_quiet in H1.
Qed.

Lemma WeakPtr_ctor_shared_log p m v m' : WeakPtr_ctor_shared p m = Done v m' -> log m' = log m.
Proof.
  unfold WeakPtr_ctor_shared. intros H. apply bind_inv in H as (? & m1 & H1 & H).
  apply ret_inv in H as [_ ->]. now apply incr_weak_log in H1.
Qed.

Lemma WeakPtr_ctor_shared_Y_log p m v m' :
  WeakPtr_ctor_shared_Y p m = Done v m' -> log m' = log m.
Proof.
  unfold WeakPtr_ctor_shared_Y. destruct (sp_cb p); intros H.
  - apply bind_inv in H as (? & m1 & H1 & H).
    apply ret_inv in H as [_ ->]. now apply incr_weak_log in H1.
  - now apply ret_inv in H as [_ ->].
Qed.

Lemma WeakPtr_copy_ctor_log u m v m' : WeakPtr_copy_ctor u m = Done v m' -> log m' = log m.
Proof.
  unfold WeakPtr_copy_ctor. intros H. apply bind_inv in H as (? & m1 & H1 & H).
  apply ret_inv in H as [_ ->]. now apply incr_weak_log in H1.
Qed.

Lemma WeakPtr_copy_ctor_Y_log u m v m' :
  WeakPtr_copy_ctor_Y u m = Done v m' -> log m' = log m.
Proof.
  unfold WeakPtr_copy_ctor_Y. destruct (wp_cb u); intros H.
  - apply bind_inv in H as (? & m1 & H1 & H).
    apply ret_inv in H as [_ ->]. now apply incr_weak_log in H1.
  - now apply ret_inv in H as [_ ->].
Qed.

Lemma SharedPtr_ctor_weak_log u m q m' : SharedPtr_ctor_weak u m = Done q m' -> log m' = log m.
Proof.
  unfold SharedPtr_ctor_weak. destruct (wp_cb u); intros H.
  - apply bind_inv in H as (s & m1 & H1 & H). apply read_shared_same in H1 as ->.
    destruct (s =? 0).
    + now apply ret_inv in H as [_ ->].
    + apply bind_inv in H as (? & m2 & H2 & H). apply ret_inv in H as [_ ->].
      now apply incr_shared_log in H2.
  - now apply ret_inv in H as [_ ->].
Qed.

Lemma WeakPtr_lock_quiet u m q m' : WeakPtr_lock u m = Done q m' -> quiet m m'.
Proof.
  unfold WeakPtr_lock, WeakPtr_expired. intros H.
  apply bind_inv in H as (e & m1 & H1 & H).
  apply bind_inv in H1 as (n & m2 & H2 & H1). apply ret_inv in H1 as [-> ->].
  assert (m2 = m) as ->.
  { unfold WeakPtr_use_count in H2. destruct (wp_cb u).
    - now apply read_shared_same in H2.
    - now apply ret_inv in H2 as [_ ->]. }
  destruct (n =? 0).
  - apply ret_inv in H as [_ ->]. apply quiet_refl.
  - apply bind_inv in H as (v & m3 & H3 & H). apply WeakPtr_copy_ctor_log in H3.
    apply bind_inv in H as (r & m4 & H4 & H). apply SharedPtr_ctor_weak_log in H4.
    apply bind_inv in H as (? & m5 & H5 & H). apply ret_inv in H as [_ ->].
    apply WeakPtr_dtor_quiet in H5.
    apply quiet_trans with m4; [|exact H5]. apply quiet_same. congruence.
Qed.

Lemma WeakPtr_assign_quiet u r m v m' : WeakPtr_assign u r m = Done v m' -> quiet m m'.
Proof.
  unfold WeakPtr_assign. destruct r as [|x]; intros H.
  - apply ret_inv in H as [_ ->]. apply quiet_refl.
  - apply bind_inv in H as (c & m1 & H1 & H). apply WeakPtr_copy_ctor_log in H1.
    unfold WeakPtr_swap in H.
    apply bind_inv in H as (? & m2 & H2 & H). apply ret_inv in H as [_ ->].
    apply WeakPtr_dtor_quiet in H2. apply quiet_trans with m1; [now apply quiet_same|exact H2].
Qed.

Lemma WeakPtr_assign_Y_quiet u x m v m' : WeakPtr_assign_Y u x m = Done v m' -> quiet m m'.
Proof.
  unfold WeakPtr_assign_Y. intros H.
  apply bind_inv in H as (c & m1 & H1 & H). apply WeakPtr_copy_ctor_Y_log in H1.
  unfold WeakPtr_swap in H.
  apply bind_inv in H as (? & m2 & H2 & H). apply ret_inv in H as [_ ->].
  apply WeakPtr_dtor_quiet in H2. apply quiet_trans with m1; [now apply quiet_same|exact H2].
Qed.

Lemma WeakPtr_move_assign_quiet u r m v m' :
  WeakPtr_move_assign u r m = Done v m' -> quiet m m'.
Proof.
  unfold WeakPtr_move_assign, WeakPtr_move_ctor, WeakPtr_swap. destruct r as [|x]; intros H.
  - apply bind_inv in H as (? & m2 & H2 & H). apply ret_inv in H as [_ ->].
    now apply WeakPtr_dtor_quiet in H2.
  - apply bind_inv in H as (? & m2 & H2 & H). apply ret_inv in H as [_ ->].
    now apply WeakPtr_dtor_quiet in H2.
Qed.

Lemma weak_step_quiet o st st' :
  weak_op o = true -> step o st = Some st' -> quiet (mem st) (mem st').
Proof.
  intros Hw H. destruct o; try discriminate Hw; unfold step in H;
    repeat match type of H with
    | context [object ?l ?i] => destruct (object l i); [|discriminate H]; simpl in H
    end;
    try (destruct (Nat.eqb _ _); [discriminate H|]);
    try (injection H as <-; apply quiet_refl);
    apply finish_Some in H as (x & m' & E & ->); cbn [mem];
    try (destruct x; cbn [mem]);
    eauto using quiet_same, WeakPtr_ctor_shared_log, WeakPtr_ctor_shared_Y_log,
      WeakPtr_copy_ctor_log, WeakPtr_copy_ctor_Y_log, WeakPtr_assign_quiet,
      WeakPtr_assign_Y_quiet, WeakPtr_move_assign_quiet, WeakPtr_dtor_quiet,
      WeakPtr_lock_quiet.
Qed.

(** * Counting calls *)

Lemma calls_deallocate_history a s w :
  calls (EvDeallocate a) (history a s w) = if (s =? 0) && (w =? 0) then 1%nat else 0%nat.
Proof.
  unfold calls, history. destruct (s =? 0); destruct (w =? 0); cbn [andb count_occ];
    repeat (destruct (event_eq_dec _ _) as [?|?]); try discriminate; congruence.
Qed.

Lemma calls_destroy_history a s w :
  calls (EvDestroy a) (history a s w) = if s =? 0 then 1%nat else 0%nat.
Proof.
  unfold calls, history. destruct (s =? 0); destruct (w =? 0); cbn [andb count_occ];
    repeat (destruct (event_eq_dec _ _) as [?|?]); try discriminate; congruence.
Qed.

Lemma history_order a s w pre post :
  history a s w = pre ++ EvDeallocate a :: post -> pre = [EvDestroy a] /\ post = [].
Proof.
  unfold history. destruct (s =? 0); destruct (w =? 0); intros H;
    destruct pre as [|e1 [|e2 [|e3 pre]]]; simplify_eq/=; auto.
Qed.

(** * The construction helpers build the programs' starting point *)

Example makeShared_initial :
  makeShared (mkPayload false 0 false) empty_memory = Done demo_handle demo_memory.
Proof. reflexivity. Qed.

Lemma forallb_replicate_empty n : forallb WeakPtr_empty (replicate n WeakPtr_ctor) = true.
Proof. induction n as [|n IH]; [reflexivity|exact IH]. Qed.

(** A helper whose payload constructor does not throw returns the only
    handle on a block with counts 1 and 0 whose payload holds no handle. *)
Lemma allocateShared_starts (T : Payload) (m : Memory) :
  ctor_throws T = false ->
  let a := fresh (dom (heap m)) in
  exists m',
    allocateShared (mkAlloc false) T m = Done (mkSharedPtr nullptr (Some a)) m' /\
    makeShared T m = Done (mkSharedPtr nullptr (Some a)) m' /\
    heap m' !! a = Some (Block (mkBlock 1 0 MakeSharedControlBlock)) /\
    payload_inert a MakeSharedControlBlock m' = true /\
    log m' = log m.
Proof.
  intros Ht a.
  unfold allocateShared, makeShared, allocate, MakeSharedControlBlock_ctor, unwinding,
    construct, put, bind, ret, default_allocator.
  rewrite Ht. cbn [allocate_fails heap objects log]. eexists.
  split; [reflexivity|]. split; [reflexivity|]. cbn [heap objects log].
  split; [apply lookup_insert_eq|]. split; [|reflexivity].
  unfold payload_inert, payload_of. cbn [objects]. rewrite lookup_insert_eq.
  unfold inert. cbn [members base]. rewrite forallb_replicate_empty.
  destruct (self_observing T); reflexivity.
Qed.

Lemma reachable_step a k sp m0 ops st o st' :
  sp_cb sp = Some a -> heap m0 !! a = Some (Block (mkBlock 1 0 k)) -> log m0 = [] ->
  payload_inert a k m0 = true ->
  Z.of_nat (length ops) + 1 < SIZE_MAX ->
  run ops (mkProgram [Some sp] [] m0) = Some st ->
  step o st = Some st' ->
  Inv a k st /\ Inv a k st'.
Proof.
  intros Hcb Hh Hl Hin Hb Hrun Hstep. split.
  - apply (reachable_Inv a k sp m0 ops st); trivial. lia.
  - apply (reachable_Inv a k sp m0 (ops ++ [o]) st'); trivial.
    + rewrite length_app. cbn [length]. lia.
    + rewrite run_app, Hrun. cbn [run]. now rewrite Hstep.
Qed.

(** * No operation of the handles throws *)

Lemma nothrow_ret {A} (x : A) : nothrow (ret x).
Proof. intros m e m'. discriminate. Qed.

Lemma nothrow_bind {A B} (c : M A) (f : A -> M B) :
  nothrow c -> (forall x, nothrow (f x)) -> nothrow (bind c f).
Proof.
  intros Hc Hf m e m'. unfold bind.
  destruct (c m) as [x m1|e1 m1|] eqn:E; [apply Hf| |discriminate].
  now destruct (Hc m e1 m1).
Qed.

Lemma nothrow_deref cb : nothrow (deref cb).
Proof.
  intros m e m'. unfold deref. destruct cb as [a|]; [|discriminate].
  destruct (heap m !! a) as [[|b]|]; discriminate.
Qed.

Lemma nothrow_put a b : nothrow (put a b).
Proof. intros m e m'. discriminate. Qed.

Lemma nothrow_emit ev : nothrow (emit ev).
Proof. intros m e m'. discriminate. Qed.

Lemma nothrow_end_lifetime q : nothrow (end_lifetime q).
Proof. intros m e m'. discriminate. Qed.

Create HintDb nothrow.

#[local] Hint Resolve nothrow_ret nothrow_deref nothrow_put nothrow_emit
  nothrow_end_lifetime : nothrow.

Ltac nothrow :=
  repeat first
    [ solve [auto with nothrow]
    | apply nothrow_bind
    | match goal with
      | |- forall _ : _ * _, nothrow _ => intros [? ?]
      | |- forall _, nothrow _ => intro
      | |- nothrow (if ?c then _ else _) => destruct c
      | |- nothrow (match ?c with Some _ => _ | None => _ end) => destruct c
      end ].

Lemma nothrow_read_shared cb : nothrow (read_shared cb).
Proof. unfold read_shared. nothrow. Qed.

Lemma nothrow_read_weak cb : nothrow (read_weak cb).
Proof. unfold read_weak. nothrow. Qed.

Lemma nothrow_incr_shared cb : nothrow (incr_shared cb).
Proof. unfold incr_shared. nothrow. Qed.

Lemma nothrow_decr_shared cb : nothrow (decr_shared cb).
Proof. unfold decr_shared. nothrow. Qed.

Lemma nothrow_decr_weak cb : nothrow (decr_weak cb).
Proof. unfold decr_weak. nothrow. Qed.

Lemma nothrow_deallocate cb : nothrow (deallocate cb).
Proof.
  unfold deallocate. apply nothrow_bind; [apply nothrow_deref|].
  intros [a b] m e m'. discriminate.
Qed.

#[local] Hint Resolve nothrow_read_shared nothrow_read_weak nothrow_incr_shared
  nothrow_decr_shared nothrow_decr_weak nothrow_deallocate : nothrow.

Lemma nothrow_WeakPtr_clear w : nothrow (WeakPtr_clear w).
Proof. unfold WeakPtr_clear. nothrow. Qed.

Lemma nothrow_WeakPtr_dtor w : nothrow (WeakPtr_dtor w).
Proof. unfold WeakPtr_dtor. apply nothrow_bind; auto using nothrow_WeakPtr_clear with nothrow. Qed.

Lemma nothrow_destroy_all ws : nothrow (destroy_all ws).
Proof.
  induction ws as [|w ws IH]; cbn [destroy_all]; [apply nothrow_ret|].
  apply nothrow_bind; [apply nothrow_WeakPtr_dtor|intros _; exact IH].
Qed.

Lemma nothrow_Object_dtor o : nothrow (Object_dtor o).
Proof.
  unfold Object_dtor. apply nothrow_bind; [apply nothrow_destroy_all|].
  intros _. destruct (base o); [apply nothrow_WeakPtr_dtor|apply nothrow_ret].
Qed.

Lemma nothrow_destroy_payload p : nothrow (destroy_payload p).
Proof.
  intros m. unfold destroy_payload. destruct p as [q|]; [|discriminate].
  destruct (objects m !! q) as [o|]; [|discriminate].
  apply (nothrow_bind _ _ (nothrow_Object_dtor o) (fun _ => nothrow_end_lifetime q)).
Qed.

Lemma nothrow_destroy cb : nothrow (destroy cb).
Proof.
  unfold destroy. apply nothrow_bind; [apply nothrow_deref|]. intros [a b].
  apply nothrow_bind; [apply nothrow_emit|]. intros _.
  destruct (kind b); apply nothrow_destroy_payload.
Qed.

#[local] Hint Resolve nothrow_destroy : nothrow.

Lemma nothrow_SharedPtr_clear p : nothrow (SharedPtr_clear p).
Proof. unfold SharedPtr_clear. nothrow. Qed.

Lemma SharedPtr_clear_no_throw p m e m' : SharedPtr_clear p m <> Throw e m'.
Proof. apply nothrow_SharedPtr_clear. Qed.

Lemma SharedPtr_copy_ctor_no_throw s m e m' : SharedPtr_copy_ctor s m <> Throw e m'.
Proof. revert m e m'. change (nothrow (SharedPtr_copy_ctor s)). unfold SharedPtr_copy_ctor. nothrow. Qed.

Lemma SharedPtr_copy_ctor_Y_no_throw s m e m' : SharedPtr_copy_ctor_Y s m <> Throw e m'.
Proof.
  revert m e m'. change (nothrow (SharedPtr_copy_ctor_Y s)). unfold SharedPtr_copy_ctor_Y.
  nothrow.
Qed.

Lemma SharedPtr_dtor_clear p m :
  SharedPtr_dtor p m = match SharedPtr_clear p m with
                       | Done _ m' => Done tt m'
                       | Throw e m' => Throw e m'
                       | Undefined u => Undefined u
                       end.
Proof. reflexivity. Qed.

Lemma construct_temporary_then_swap_no_throw construct this m :
  (forall e m', construct m <> Throw e m') ->
  forall e m', construct_temporary_then_swap construct this m <> Throw e m'.
Proof.
  intros Hc e m'. unfold construct_temporary_then_swap.
  destruct (construct m) as [tmp m1|e1 m1|] eqn:E; [|now destruct (Hc e1 m1)|discriminate].
  pose proof (SharedPtr_clear_no_throw (mkSharedPtr (sp_ptr this) (sp_cb this)) m1) as Hn.
  destruct (SharedPtr_clear _ m1); [discriminate| |discriminate].
  intros _. now apply (Hn e0 m0).
Qed.

Lemma SharedPtr_assign_refines this s m :
  SharedPtr_assign this (Other s) m
  = construct_temporary_then_swap (SharedPtr_copy_ctor s) this m.
Proof.
  unfold SharedPtr_assign, construct_temporary_then_swap, bind.
  destruct (SharedPtr_copy_ctor s m) as [c m1| |]; try reflexivity.
  unfold SharedPtr_swap. rewrite SharedPtr_dtor_clear.
  destruct (SharedPtr_clear _ m1); reflexivity.
Qed.

Lemma SharedPtr_assign_Y_refines this s m :
  SharedPtr_assign_Y this s m
  = construct_temporary_then_swap (SharedPtr_copy_ctor_Y s) this m.
Proof.
  unfold SharedPtr_assign_Y, construct_temporary_then_swap, bind.
  destruct (SharedPtr_copy_ctor_Y s m) as [c m1| |]; try reflexivity.
  unfold SharedPtr_swap. rewrite SharedPtr_dtor_clear.
  destruct (SharedPtr_clear _ m1); reflexivity.
Qed.

Lemma WeakPtr_lock_live (this : WeakPtr) m a b :
  wp_cb this = Some a -> heap m !! a = Some (Block b) ->
  shared b <> 0 -> 1 <= weak b <= SIZE_MAX ->
  WeakPtr_lock this m
  = Done (mkSharedPtr (match wp_ptr this with None => Some (get_ptr a) | Some p => Some p end)
            (Some a))
         (set_block a (with_shared (pre_incr (shared b)) b) m).
Proof.
  intros Hcb Hb Hs Hw.
  unfold WeakPtr_lock, WeakPtr_expired, WeakPtr_use_count, WeakPtr_copy_ctor,
    SharedPtr_ctor_weak. rewrite Hcb. exec.
  destruct (shared b =? 0) eqn:E0; [lia|]. exec. rewrite E0. exec.
  rewrite pre_decr_incr by (unfold is_size; lia).
  destruct (weak b =? 0) eqn:E1; [lia|]. rewrite andb_false_r.
  unfold set_block, with_shared. rewrite !insert_insert_eq. reflexivity.
Qed.

Lemma destroy_all_quiet ws m x m' : destroy_all ws m = Done x m' -> quiet m m'.
Proof.
  revert m. induction ws as [|w ws IH]; intros m H.
  - apply ret_inv in H as [_ ->]. apply quiet_refl.
  - cbn [destroy_all] in H. apply bind_inv in H as (? & m1 & H1 & H).
    apply quiet_trans with m1; [now apply WeakPtr_dtor_quiet in H1|now apply IH].
Qed.

Lemma destroy_payload_quiet p m x m' : destroy_payload p m = Done x m' -> quiet m m'.
Proof.
  unfold destroy_payload. destruct p as [q|]; [|intros [= _ <-]; apply quiet_refl].
  destruct (objects m !! q) as [o|]; [|intros [= _ <-]; apply quiet_refl].
  intros H. apply bind_inv in H as (? & m1 & H1 & H).
  assert (Hl : log m' = log m1) by (injection H as _ <-; reflexivity).
  apply quiet_trans with m1; [|now apply quiet_same].
  unfold Object_dtor in H1. apply bind_inv in H1 as (? & m2 & H2 & H1).
  apply destroy_all_quiet in H2. apply quiet_trans with m2; [exact H2|].
  destruct (base o).
  - now apply WeakPtr_dtor_quiet in H1.
  - apply ret_inv in H1 as [_ ->]. apply quiet_refl.
Qed.

(** [destroy()] logs its call first; what the payload's destructor then
    adds is no second [destroy()]. *)
Lemma destroy_log a b m m' :
  heap m !! a = Some (Block b) -> destroy (Some a) m = Done tt m' ->
  exists evs, log m' = log m ++ EvDestroy a :: evs
              /\ forallb (fun e => negb (is_destroy e)) evs = true.
Proof.
  intros Hb H. unfold destroy, bind, deref, emit in H. rewrite Hb in H.
  assert (Hq : quiet (mkMemory (heap m) (objects m) (log m ++ [EvDestroy a])) m').
  { destruct (kind b); now apply destroy_payload_quiet in H. }
  destruct Hq as (evs & E & F). exists evs. split; [|exact F].
  rewrite E. cbn [log]. now rewrite <- app_assoc.
Qed.

Lemma SharedPtr_clear_steps (this : SharedPtr) m a b :
  sp_cb this = Some a -> heap m !! a = Some (Block b) ->
  SharedPtr_clear this m
  = (if pre_decr (shared b) =? 0 then
       (destroy (Some a) ;;
        do w <- read_weak (Some a);
        if w =? 0 then deallocate (Some a) else ret tt) ;;
       ret (mkSharedPtr nullptr nullptr)
     else ret (mkSharedPtr nullptr nullptr))
      (set_block a (with_shared (pre_decr (shared b)) b) m).
Proof.
  intros Hcb Hb. unfold SharedPtr_clear. rewrite Hcb.
  unfold bind at 1. rewrite (decr_shared_live m a b Hb).
  unfold bind at 1. erewrite read_shared_live by apply lookup_insert_eq.
  cbn [shared with_shared]. destruct (pre_decr (shared b) =? 0); reflexivity.
Qed.

Lemma SharedPtr_released_clear (this : SharedPtr) m m' a :
  sp_cb this = Some a ->
  SharedPtr_clear this m = Done (mkSharedPtr nullptr nullptr) m' ->
  SharedPtr_released this m m'.
Proof.
  intros Hcb E. split; [exact E|]. split.
  - unfold SharedPtr_dtor, bind. now rewrite E.
  - unfold SharedPtr_reset, SharedPtr_swap, SharedPtr_dtor, bind.
    assert (SharedPtr_clear (mkSharedPtr (sp_ptr this) (sp_cb this)) m = SharedPtr_clear this m)
      as ->.
    { unfold SharedPtr_clear. cbn [sp_cb]. now rewrite Hcb. }
    now rewrite E.
Qed.

(** * The strong count and the calls of [destroy()], for every payload *)

Section Strong.
Variable a : addr.

Lemma shared_at_live m b : heap m !! a = Some (Block b) -> shared_at a m = Some (shared b).
Proof. unfold shared_at. now intros ->. Qed.

Lemma shared_at_Some m s :
  shared_at a m = Some s -> exists b, heap m !! a = Some (Block b) /\ shared b = s.
Proof.
  unfold shared_at. destruct (heap m !! a) as [[|b]|]; try discriminate.
  intros [= <-]. eauto.
Qed.

Lemma calls_app e l1 l2 : calls e (l1 ++ l2) = (calls e l1 + calls e l2)%nat.
Proof. unfold calls. apply count_occ_app. Qed.

Lemma calls_deallocate c l : calls (EvDestroy a) (l ++ [EvDeallocate c]) = calls (EvDestroy a) l.
Proof.
  rewrite calls_app. unfold calls. cbn [count_occ].
  destruct (event_eq_dec _ _) as [E|_]; [discriminate E|]. lia.
Qed.

Lemma evolves_refl m : evolves a 0 m m.
Proof. repeat split; auto. Qed.

Lemma evolves_trans n1 n2 m1 m2 m3 :
  evolves a n1 m1 m2 -> evolves a n2 m2 m3 -> evolves a (n1 + n2) m1 m3.
Proof.
  intros (B1 & F1 & C1) (B2 & F2 & C2). split; [|split].
  - intros s H. apply B1. now apply B2.
  - intros s H Hs. apply F2; [|exact Hs]. now apply F1.
  - rewrite C2, C1. lia.
Qed.

Lemma evolves_weak m1 m2 m3 : evolves a 0 m1 m2 -> evolves a 0 m2 m3 -> evolves a 0 m1 m3.
Proof. apply (evolves_trans 0 0). Qed.

(** A change that leaves the strong count at [a] and the log alone. *)
Lemma evolves_same m m' :
  shared_at a m' = shared_at a m -> log m' = log m -> evolves a 0 m m'.
Proof. intros Hs Hl. unfold evolves. rewrite Hs, Hl. repeat split; auto. Qed.

Lemma shared_at_put m c b b' :
  heap m !! c = Some (Block b) -> shared b' = shared b ->
  shared_at a (mkMemory (<[c := Block b']> (heap m)) (objects m) (log m)) = shared_at a m.
Proof.
  intros Hb Hs. unfold shared_at. cbn [heap]. destruct (decide (c = a)) as [->|Hne].
  - now rewrite lookup_insert_eq, Hb, Hs.
  - now rewrite lookup_insert_ne.
Qed.

Lemma incr_weak_evolves cb m x m' : incr_weak cb m = Done x m' -> evolves a 0 m m'.
Proof.
  intros H. unfold incr_weak, bind, deref, put in H.
  destruct cb as [c|]; [|discriminate H].
  destruct (heap m !! c) as [[|b]|] eqn:Hb; try discriminate H.
  injection H as _ <-. apply evolves_same; [|reflexivity]. now apply (shared_at_put m c b).
Qed.

Lemma decr_weak_evolves cb m x m' : decr_weak cb m = Done x m' -> evolves a 0 m m'.
Proof.
  intros H. unfold decr_weak, bind, deref, put in H.
  destruct cb as [c|]; [|discriminate H].
  destruct (heap m !! c) as [[|b]|] eqn:Hb; try discriminate H.
  injection H as _ <-. apply evolves_same; [|reflexivity]. now apply (shared_at_put m c b).
Qed.

Lemma read_shared_inv c m s m' :
  read_shared (Some c) m = Done s m' ->
  m' = m /\ exists b, heap m !! c = Some (Block b) /\ s = shared b.
Proof.
  unfold read_shared, bind, deref, ret.
  destruct (heap m !! c) as [[|b]|]; try discriminate. intros [= <- <-]. eauto.
Qed.

Lemma read_weak_inv c m w m' :
  read_weak (Some c) m = Done w m' ->
  m' = m /\ exists b, heap m !! c = Some (Block b) /\ w = weak b.
Proof.
  unfold read_weak, bind, deref, ret.
  destruct (heap m !! c) as [[|b]|]; try discriminate. intros [= <- <-]. eauto.
Qed.

(** [deallocate()] on a block whose strong count is 0. *)
Lemma deallocate_evolves c m b x m' :
  heap m !! c = Some (Block b) -> shared b = 0 ->
  deallocate (Some c) m = Done x m' -> evolves a 0 m m'.
Proof.
  intros Hb Hs H. rewrite (deallocate_live m c b Hb) in H. injection H as _ <-.
  split; [|split]; cbn [log].
  - unfold shared_at. cbn [heap]. intros s. destruct (decide (c = a)) as [->|Hne].
    + now rewrite lookup_delete_eq.
    + now rewrite lookup_delete_ne.
  - unfold shared_at. cbn [heap]. intros s. destruct (decide (c = a)) as [->|Hne].
    + rewrite Hb. intros [= <-] Hn. contradiction.
    + now rewrite lookup_delete_ne.
  - rewrite calls_deallocate. lia.
Qed.

Lemma WeakPtr_clear_evolves w m v m' : WeakPtr_clear w m = Done v m' -> evolves a 0 m m'.
Proof.
  unfold WeakPtr_clear. destruct (wp_cb w) as [c|].
  - intros H.
    apply bind_inv in H as (? & m1 & H1 & H). apply decr_weak_evolves in H1.
    apply bind_inv in H as (s & m2 & H2 & H). apply read_shared_inv in H2 as (-> & b & Hb & ->).
    apply bind_inv in H as (n & m3 & H3 & H). apply read_weak_inv in H3 as (-> & b' & Hb' & ->).
    apply bind_inv in H as (? & m4 & H4 & H). apply ret_inv in H as [_ ->].
    apply evolves_weak with m1; [exact H1|].
    destruct (shared b =? 0) eqn:Es; cbn [andb] in H4.
    + destruct (weak b' =? 0).
      * eapply (deallocate_evolves c m1 b _ _ Hb); [lia|exact H4].
      * apply ret_inv in H4 as [_ ->]. apply evolves_refl.
    + apply ret_inv in H4 as [_ ->]. apply evolves_refl.
  - intros H. apply ret_inv in H as [_ ->]. apply evolves_refl.
Qed.

Lemma WeakPtr_dtor_evolves w m x m' : WeakPtr_dtor w m = Done x m' -> evolves a 0 m m'.
Proof.
  unfold WeakPtr_dtor. intros H. apply bind_inv in H as (v & m1 & H1 & H).
  apply ret_inv in H as [_ ->]. now apply WeakPtr_clear_evolves in H1.
Qed.

Lemma destroy_all_evolves ws m x m' : destroy_all ws m = Done x m' -> evolves a 0 m m'.
Proof.
  revert m. induction ws as [|w ws IH]; intros m H.
  - apply ret_inv in H as [_ ->]. apply evolves_refl.
  - cbn [destroy_all] in H. apply bind_inv in H as (? & m1 & H1 & H).
    apply evolves_weak with m1; [now apply WeakPtr_dtor_evolves in H1|now apply IH].
Qed.

(** The payload's destructor destroys handles of [WeakPtr] only. *)
Lemma destroy_payload_evolves p m x m' : destroy_payload p m = Done x m' -> evolves a 0 m m'.
Proof.
  unfold destroy_payload. destruct p as [q|]; [|intros [= _ <-]; apply evolves_refl].
  destruct (objects m !! q) as [o|]; [|intros [= _ <-]; apply evolves_refl].
  intros H. apply bind_inv in H as (? & m1 & H1 & H).
  assert (Hend : evolves a 0 m1 m').
  { injection H as _ <-. now apply evolves_same. }
  apply evolves_weak with m1; [|exact Hend].
  unfold Object_dtor in H1. apply bind_inv in H1 as (? & m2 & H2 & H1).
  apply destroy_all_evolves in H2. apply evolves_weak with m2; [exact H2|].
  destruct (base o).
  - now apply WeakPtr_dtor_evolves in H1.
  - apply ret_inv in H1 as [_ ->]. apply evolves_refl.
Qed.

(** [destroy()] on the block at [a] is one call. *)
Lemma destroy_evolves m x m' : destroy (Some a) m = Done x m' -> evolves a 1 m m'.
Proof.
  intros H. unfold destroy, bind, deref, emit in H.
  destruct (heap m !! a) as [[|b]|] eqn:Hb; try discriminate H.
  set (m1 := mkMemory (heap m) (objects m) (log m ++ [EvDestroy a])) in H.
  assert (H1 : evolves a 1 m m1).
  { split; [|split]; try (unfold shared_at, m1; cbn [heap]; now auto).
    unfold m1. cbn [log]. rewrite calls_app. f_equal. unfold calls. cbn [count_occ].
    destruct (event_eq_dec _ _) as [_|N]; [reflexivity|now destruct N]. }
  assert (H2 : evolves a 0 m1 m').
  { destruct (kind b); now apply destroy_payload_evolves in H. }
  exact (evolves_trans 1 0 _ _ _ H1 H2).
Qed.

Lemma Strong_ok_same s s' m : Strong_ok a s m -> s' = s -> Strong_ok a s' m.
Proof. now intros H ->. Qed.

Lemma Strong_ok_evolves s m m' : Strong_ok a s m -> evolves a 0 m m' -> Strong_ok a s m'.
Proof.
  intros (C & U & L) (B & F & C'). split; [|split].
  - rewrite C', C. lia.
  - intros s' H. apply U. now apply B.
  - intros Hs. apply F; [now apply L|exact Hs].
Qed.

Lemma Strong_ok_live s m :
  Strong_ok a s m -> s <> 0 -> exists b, heap m !! a = Some (Block b) /\ shared b = s.
Proof. intros (_ & _ & L) Hs. apply shared_at_Some. now apply L. Qed.

(** [++cb->shared] through a handle on the block. *)
Lemma Strong_ok_incr s m x m' :
  Strong_ok a s m -> 1 <= s < SIZE_MAX ->
  incr_shared (Some a) m = Done x m' -> Strong_ok a (s + 1) m'.
Proof.
  intros Hm Hs H. destruct (Strong_ok_live s m Hm ltac:(lia)) as (b & Hb & Hsb).
  rewrite (incr_shared_live m a b Hb) in H. injection H as _ <-.
  destruct Hm as (C & _ & _).
  assert (E : shared_at a (set_block a (with_shared (pre_incr (shared b)) b) m) = Some (s + 1)).
  { unfold shared_at, set_block. cbn [heap]. rewrite lookup_insert_eq. cbn [shared with_shared].
    rewrite Hsb, pre_incr_small by lia. reflexivity. }
  split; [|split].
  - cbn [set_block log]. rewrite C.
    destruct (s =? 0) eqn:E0; destruct (s + 1 =? 0) eqn:E1; try reflexivity; lia.
  - intros s'. rewrite E. now intros [= <-].
  - intros _. exact E.
Qed.

(** [SharedPtr::clear] on a handle of the block, when it completes. *)
Lemma Strong_ok_clear s m (p q : SharedPtr) m' :
  Strong_ok a s m -> 1 <= s <= SIZE_MAX -> sp_cb p = Some a ->
  SharedPtr_clear p m = Done q m' -> Strong_ok a (s - 1) m'.
Proof.
  intros Hm Hs Hp H. destruct (Strong_ok_live s m Hm ltac:(lia)) as (b & Hb & Hsb).
  destruct Hm as (C & _ & _). destruct (s =? 0) eqn:E0; [lia|].
  rewrite (SharedPtr_clear_steps p m a b Hp Hb), Hsb, pre_decr_pos in H by lia.
  set (m1 := set_block a (with_shared (s - 1) b) m) in H.
  assert (E1 : shared_at a m1 = Some (s - 1)).
  { unfold shared_at, m1, set_block. cbn [heap]. now rewrite lookup_insert_eq. }
  assert (C1 : calls (EvDestroy a) (log m1) = 0%nat) by exact C.
  destruct (s - 1 =? 0) eqn:Ez.
  - assert (Hz : s - 1 = 0) by lia. rewrite Hz in *.
    apply bind_inv in H as (? & m3 & H & Hr). apply ret_inv in Hr as [_ ->].
    apply bind_inv in H as (? & m2 & Hd & H).
    apply destroy_evolves in Hd as (B2 & _ & C2).
    apply bind_inv in H as (w & ? & Hw & H). apply read_weak_inv in Hw as (-> & b2 & Hb2 & ->).
    pose proof (B2 _ (shared_at_live m2 b2 Hb2)) as Hs2. rewrite E1 in Hs2.
    injection Hs2 as Hs2.
    assert (Hok2 : Strong_ok a 0 m2).
    { split; [|split].
      - rewrite C2, C1. reflexivity.
      - intros s'. rewrite (shared_at_live m2 b2 Hb2), <- Hs2. now intros [= <-].
      - intros N. now destruct N. }
    destruct (weak b2 =? 0).
    + apply (Strong_ok_evolves 0 m2); [exact Hok2|].
      eapply (deallocate_evolves a m2 b2 _ _ Hb2); [lia|exact H].
    + apply ret_inv in H as [_ ->]. exact Hok2.
  - apply ret_inv in H as [_ ->]. split; [|split].
    + rewrite C1, Ez. reflexivity.
    + intros s'. rewrite E1. now intros [= <-].
    + intros _. exact E1.
Qed.

Section StrongOps.
Variables (s : Z) (m : Memory).
Hypothesis Hm : Strong_ok a s m.
Hypothesis Hs : 0 <= s.

Lemma SharedPtr_copy_ctor_strong (p q : SharedPtr) m' :
  SharedPtr_copy_ctor p m = Done q m' ->
  local a (sp_cb p) -> wt a (sp_cb p) <= s -> s < SIZE_MAX ->
  sp_cb q = sp_cb p /\ Strong_ok a (s + wt a (sp_cb p)) m'.
Proof using Hm Hs.
  intros H Hl Hle Hlt. unfold SharedPtr_copy_ctor in H.
  destruct (local_cases a _ Hl) as [[E Ew]|[E Ew]]; rewrite E in *; rewrite Ew in *.
  - apply ret_inv in H as [-> ->]. split; [reflexivity|]. apply (Strong_ok_same s); [exact Hm|lia].
  - apply bind_inv in H as (? & m1 & H1 & H). apply ret_inv in H as [-> ->].
    split; [reflexivity|]. eapply (Strong_ok_incr s m _ m1 Hm); [lia|exact H1].
Qed.

Lemma SharedPtr_copy_ctor_Y_strong (p q : SharedPtr) m' :
  SharedPtr_copy_ctor_Y p m = Done q m' ->
  local a (sp_cb p) -> wt a (sp_cb p) <= s -> s < SIZE_MAX ->
  sp_cb q = sp_cb p /\ Strong_ok a (s + wt a (sp_cb p)) m'.
Proof using Hm Hs.
  intros H Hl Hle Hlt. unfold SharedPtr_copy_ctor_Y in H.
  destruct (local_cases a _ Hl) as [[E Ew]|[E Ew]]; rewrite E in *; rewrite Ew in *.
  - discriminate H.
  - apply bind_inv in H as (? & m1 & H1 & H). apply ret_inv in H as [-> ->].
    split; [reflexivity|]. eapply (Strong_ok_incr s m _ m1 Hm); [lia|exact H1].
Qed.

Lemma SharedPtr_clear_strong (p q : SharedPtr) m' :
  SharedPtr_clear p m = Done q m' ->
  local a (sp_cb p) -> wt a (sp_cb p) <= s -> s <= SIZE_MAX ->
  Strong_ok a (s - wt a (sp_cb p)) m'.
Proof using Hm Hs.
  intros H Hl Hle Hlt.
  destruct (local_cases a _ Hl) as [[E Ew]|[E Ew]]; rewrite Ew in *.
  - unfold SharedPtr_clear in H. rewrite E in H. apply ret_inv in H as [_ ->].
    apply (Strong_ok_same s); [exact Hm|lia].
  - apply (Strong_ok_clear s m p q m' Hm); [lia|exact E|exact H].
Qed.

Lemma SharedPtr_dtor_strong (p : SharedPtr) x m' :
  SharedPtr_dtor p m = Done x m' ->
  local a (sp_cb p) -> wt a (sp_cb p) <= s -> s <= SIZE_MAX ->
  Strong_ok a (s - wt a (sp_cb p)) m'.
Proof using Hm Hs.
  intros H Hl Hle Hlt. unfold SharedPtr_dtor in H.
  apply bind_inv in H as (q & m1 & H1 & H). apply ret_inv in H as [_ ->].
  exact (SharedPtr_clear_strong p q m1 H1 Hl Hle Hlt).
Qed.
End StrongOps.

Lemma SharedPtr_reset_strong s m (p q : SharedPtr) m' :
  Strong_ok a s m -> 0 <= s ->
  SharedPtr_reset p m = Done q m' ->
  local a (sp_cb p) -> wt a (sp_cb p) <= s -> s <= SIZE_MAX ->
  q = mkSharedPtr nullptr nullptr /\ Strong_ok a (s - wt a (sp_cb p)) m'.
Proof.
  intros Hm Hs H Hl Hle Hlt. unfold SharedPtr_reset, SharedPtr_swap in H.
  apply bind_inv in H as (? & m1 & H1 & H). apply ret_inv in H as [-> ->].
  split; [reflexivity|].
  exact (SharedPtr_dtor_strong s m Hm Hs (mkSharedPtr (sp_ptr p) (sp_cb p)) _ m1 H1 Hl Hle Hlt).
Qed.

Lemma SharedPtr_assign_strong s m (p q r : SharedPtr) m' :
  Strong_ok a s m -> 0 <= s ->
  SharedPtr_assign p (Other q) m = Done r m' ->
  local a (sp_cb p) -> wt a (sp_cb p) <= s ->
  local a (sp_cb q) -> wt a (sp_cb q) <= s -> s < SIZE_MAX ->
  sp_cb r = sp_cb q /\ Strong_ok a (s + wt a (sp_cb q) - wt a (sp_cb p)) m'.
Proof.
  intros Hm Hs H Hlp Hp Hlq Hq Hlt. unfold SharedPtr_assign in H.
  apply bind_inv in H as (c & m1 & H1 & H).
  destruct (SharedPtr_copy_ctor_strong s m Hm Hs q c m1 H1 Hlq Hq Hlt) as [Hc Hm1].
  unfold SharedPtr_swap in H. apply bind_inv in H as (? & m2 & H2 & H).
  apply ret_inv in H as [-> ->]. split; [exact Hc|].
  pose proof (wt_range a (sp_cb q)).
  apply (SharedPtr_dtor_strong _ m1 Hm1 ltac:(lia) (mkSharedPtr (sp_ptr p) (sp_cb p)) _ m2 H2);
    cbn [sp_cb]; [exact Hlp|lia|lia].
Qed.

Lemma SharedPtr_assign_Y_strong s m (p q r : SharedPtr) m' :
  Strong_ok a s m -> 0 <= s ->
  SharedPtr_assign_Y p q m = Done r m' ->
  local a (sp_cb p) -> wt a (sp_cb p) <= s ->
  local a (sp_cb q) -> wt a (sp_cb q) <= s -> s < SIZE_MAX ->
  sp_cb r = sp_cb q /\ Strong_ok a (s + wt a (sp_cb q) - wt a (sp_cb p)) m'.
Proof.
  intros Hm Hs H Hlp Hp Hlq Hq Hlt. unfold SharedPtr_assign_Y in H.
  apply bind_inv in H as (c & m1 & H1 & H).
  destruct (SharedPtr_copy_ctor_Y_strong s m Hm Hs q c m1 H1 Hlq Hq Hlt) as [Hc Hm1].
  unfold SharedPtr_swap in H. apply bind_inv in H as (? & m2 & H2 & H).
  apply ret_inv in H as [-> ->]. split; [exact Hc|].
  pose proof (wt_range a (sp_cb q)).
  apply (SharedPtr_dtor_strong _ m1 Hm1 ltac:(lia) (mkSharedPtr (sp_ptr p) (sp_cb p)) _ m2 H2);
    cbn [sp_cb]; [exact Hlp|lia|lia].
Qed.

Lemma SharedPtr_move_assign_strong s m (p q r : SharedPtr) x m' :
  Strong_ok a s m -> 0 <= s ->
  SharedPtr_move_assign p (Other q) m = Done (r, x) m' ->
  local a (sp_cb p) -> wt a (sp_cb p) <= s -> s <= SIZE_MAX ->
  sp_cb r = sp_cb q /\ x = Other (mkSharedPtr nullptr nullptr)
  /\ Strong_ok a (s - wt a (sp_cb p)) m'.
Proof.
  intros Hm Hs H Hlp Hp Hlt.
  unfold SharedPtr_move_assign, SharedPtr_move_ctor, SharedPtr_swap in H.
  apply bind_inv in H as (? & m2 & H2 & H). apply ret_inv in H as [[= -> ->] ->].
  split; [reflexivity|]. split; [reflexivity|].
  exact (SharedPtr_dtor_strong s m Hm Hs (mkSharedPtr (sp_ptr p) (sp_cb p)) _ m2 H2 Hlp Hp Hlt).
Qed.

(** What the operations of [WeakPtr] return. *)
Lemma WeakPtr_ctor_shared_cb p m v m' :
  WeakPtr_ctor_shared p m = Done v m' -> wp_cb v = sp_cb p /\ evolves a 0 m m'.
Proof.
  unfold WeakPtr_ctor_shared. intros H. apply bind_inv in H as (? & m1 & H1 & H).
  apply ret_inv in H as [-> ->]. split; [reflexivity|]. now apply incr_weak_evolves in H1.
Qed.

Lemma WeakPtr_ctor_shared_Y_cb p m v m' :
  WeakPtr_ctor_shared_Y p m = Done v m' -> wp_cb v = sp_cb p /\ evolves a 0 m m'.
Proof.
  unfold WeakPtr_ctor_shared_Y. destruct (sp_cb p) eqn:E; intros H.
  - apply bind_inv in H as (? & m1 & H1 & H). apply ret_inv in H as [-> ->].
    split; [reflexivity|]. now apply incr_weak_evolves in H1.
  - apply ret_inv in H as [-> ->]. split; [reflexivity|apply evolves_refl].
Qed.

Lemma WeakPtr_copy_ctor_cb u m v m' :
  WeakPtr_copy_ctor u m = Done v m' -> wp_cb v = wp_cb u /\ evolves a 0 m m'.
Proof.
  unfold WeakPtr_copy_ctor. intros H. apply bind_inv in H as (? & m1 & H1 & H).
  apply ret_inv in H as [-> ->]. split; [reflexivity|]. now apply incr_weak_evolves in H1.
Qed.

Lemma WeakPtr_copy_ctor_Y_cb u m v m' :
  WeakPtr_copy_ctor_Y u m = Done v m' -> wp_cb v = wp_cb u /\ evolves a 0 m m'.
Proof.
  unfold WeakPtr_copy_ctor_Y. destruct (wp_cb u) eqn:E; intros H.
  - apply bind_inv in H as (? & m1 & H1 & H). apply ret_inv in H as [-> ->].
    split; [reflexivity|]. now apply incr_weak_evolves in H1.
  - apply ret_inv in H as [-> ->]. split; [reflexivity|apply evolves_refl].
Qed.

Lemma WeakPtr_assign_cb u v m r m' :
  WeakPtr_assign u (Other v) m = Done r m' -> wp_cb r = wp_cb v /\ evolves a 0 m m'.
Proof.
  unfold WeakPtr_assign. intros H. apply bind_inv in H as (c & m1 & H1 & H).
  apply WeakPtr_copy_ctor_cb in H1 as [Hc H1]. unfold WeakPtr_swap in H.
  apply bind_inv in H as (? & m2 & H2 & H). apply ret_inv in H as [-> ->].
  split; [exact Hc|]. apply evolves_weak with m1; [exact H1|now apply WeakPtr_dtor_evolves in H2].
Qed.

Lemma WeakPtr_assign_Y_cb u v m r m' :
  WeakPtr_assign_Y u v m = Done r m' -> wp_cb r = wp_cb v /\ evolves a 0 m m'.
Proof.
  unfold WeakPtr_assign_Y. intros H. apply bind_inv in H as (c & m1 & H1 & H).
  apply WeakPtr_copy_ctor_Y_cb in H1 as [Hc H1]. unfold WeakPtr_swap in H.
  apply bind_inv in H as (? & m2 & H2 & H). apply ret_inv in H as [-> ->].
  split; [exact Hc|]. apply evolves_weak with m1; [exact H1|now apply WeakPtr_dtor_evolves in H2].
Qed.

Lemma WeakPtr_move_assign_cb u v m r x m' :
  WeakPtr_move_assign u (Other v) m = Done (r, x) m' ->
  wp_cb r = wp_cb v /\ x = Other (mkWeakPtr nullptr nullptr) /\ evolves a 0 m m'.
Proof.
  unfold WeakPtr_move_assign, WeakPtr_move_ctor, WeakPtr_swap. intros H.
  apply bind_inv in H as (? & m2 & H2 & H). apply ret_inv in H as [[= -> ->] ->].
  split; [reflexivity|]. split; [reflexivity|]. now apply WeakPtr_dtor_evolves in H2.
Qed.

(** [lock()] on a handle of the block, when it completes. *)
Lemma WeakPtr_lock_strong s m (u : WeakPtr) q m' :
  Strong_ok a s m -> 0 <= s ->
  WeakPtr_lock u m = Done q m' ->
  local a (wp_cb u) -> s < SIZE_MAX ->
  local a (sp_cb q) /\ Strong_ok a (s + wt a (sp_cb q)) m'.
Proof.
  intros Hm Hs H Hl Hlt. unfold WeakPtr_lock, WeakPtr_expired, WeakPtr_use_count in H.
  destruct (local_cases a _ Hl) as [[E Ew]|[E Ew]]; rewrite E in H.
  - apply ret_inv in H as [-> ->]. split; [now left|].
    apply (Strong_ok_same s); [exact Hm|]. cbn. unfold nullptr. rewrite wt_None. lia.
  - apply bind_inv in H as (e & m1 & H1 & H).
    apply bind_inv in H1 as (n & m2 & H2 & H1). apply ret_inv in H1 as [-> ->].
    apply read_shared_inv in H2 as (-> & b & Hb & ->).
    destruct Hm as (C & U & L). pose proof (U _ (shared_at_live m b Hb)) as Hsb.
    destruct (shared b =? 0) eqn:E0.
    + apply ret_inv in H as [-> ->]. split; [now left|].
      apply (Strong_ok_same s); [now split|]. cbn. unfold nullptr. rewrite wt_None. lia.
    + apply bind_inv in H as (v & m3 & H3 & H).
      apply WeakPtr_copy_ctor_cb in H3 as [Hv H3].
      apply bind_inv in H as (r & m4 & H4 & H).
      apply bind_inv in H as (? & m5 & H5 & H). apply ret_inv in H as [-> ->].
      apply WeakPtr_dtor_evolves in H5.
      assert (Hm3 : Strong_ok a s m3) by (apply (Strong_ok_evolves s m); [now split|exact H3]).
      unfold SharedPtr_ctor_weak in H4. rewrite Hv, E in H4.
      apply bind_inv in H4 as (n & ? & H6 & H4).
      apply read_shared_inv in H6 as (-> & b3 & Hb3 & ->).
      destruct Hm3 as (C3 & U3 & L3). pose proof (U3 _ (shared_at_live m3 b3 Hb3)) as Hsb3.
      rewrite Hsb3, <- Hsb, E0 in H4.
      apply bind_inv in H4 as (? & m6 & H6 & H4). apply ret_inv in H4 as [-> ->].
      cbn [sp_cb]. rewrite wt_Some. split; [now right|].
      apply (Strong_ok_evolves (s + 1) m6); [|exact H5].
      eapply (Strong_ok_incr s m3 _ m6); [now split|lia|exact H6].
Qed.
End Strong.

Ltac done_strong Hm :=
  split; [constructor; [locals | locals | counts; use_eqs; eapply Strong_ok_same; [exact Hm|lia]]
         | counts; use_eqs; lia].

Ltac weakly Hm E :=
  split; [constructor; [locals | locals
                       | counts; use_eqs; eapply Strong_ok_evolves; [exact Hm|exact E]]
         | counts; use_eqs; lia].

Section StepStrong.
Variable a : addr.

Lemma step_Inv_strong o st st' :
  Inv_strong a st -> strong_handles a st < SIZE_MAX -> step o st = Some st' ->
  Inv_strong a st' /\ strong_handles a st' <= strong_handles a st + 1.
Proof.
  intros [HS HW HM] Hb H.
  pose proof (count_refs_nonneg sp_cb a (strongs st)) as Hs0.
  unfold strong_handles in Hb, HM.
  destruct o; unfold step in H.
  - (* SCopy *)
    strong_obj H HS a i p. apply finish_Some in H as (q & m' & E & ->).
    destruct (SharedPtr_copy_ctor_strong a _ _ HM Hs0 p q m' E Hl Hle ltac:(lia)) as (Hq & Hm').
    done_strong Hm'.
  - (* SCopyY *)
    strong_obj H HS a i p. apply finish_Some in H as (q & m' & E & ->).
    destruct (SharedPtr_copy_ctor_Y_strong a _ _ HM Hs0 p q m' E Hl Hle ltac:(lia)) as (Hq & Hm').
    done_strong Hm'.
  - (* SMove *)
    strong_obj H HS a i p. injection H as <-. done_strong HM.
  - (* SAssign *)
    strong_obj H HS a i p. strong_obj H HS a j q. unfold refer in H.
    destruct (Nat.eqb i j) eqn:Eij.
    + injection H as <-. done_strong HM.
    + apply finish_Some in H as (r & m' & E & ->).
      destruct (SharedPtr_assign_strong a _ _ p q r m' HM Hs0 E Hl Hle Hl0 Hle0 ltac:(lia))
        as (Hr & Hm').
      done_strong Hm'.
  - (* SAssignY *)
    strong_obj H HS a i p. strong_obj H HS a j q.
    destruct (Nat.eqb i j) eqn:Eij; [discriminate H|].
    apply finish_Some in H as (r & m' & E & ->).
    destruct (SharedPtr_assign_Y_strong a _ _ p q r m' HM Hs0 E Hl Hle Hl0 Hle0 ltac:(lia))
      as (Hr & Hm').
    done_strong Hm'.
  - (* SMoveAssign *)
    strong_obj H HS a i p. strong_obj H HS a j q. unfold refer in H.
    destruct (Nat.eqb i j) eqn:Eij.
    + rewrite SharedPtr_move_assign_self in H. injection H as <-.
      cbn [store_ref]. done_strong HM.
    + apply finish_Some in H as ([r x] & m' & E & ->).
      destruct (SharedPtr_move_assign_strong a _ _ p q r x m' HM Hs0 E Hl Hle ltac:(lia))
        as (Hr & -> & Hm').
      cbn [store_ref].
      pose proof (insert_other_lookup _ _ _ _ (Some (mkSharedPtr nullptr nullptr)) Eij Hi).
      done_strong Hm'.
  - (* SReset *)
    strong_obj H HS a i p. apply finish_Some in H as (q & m' & E & ->).
    destruct (SharedPtr_reset_strong a _ _ p q m' HM Hs0 E Hl Hle ltac:(lia)) as (-> & Hm').
    done_strong Hm'.
  - (* SSwap *)
    strong_obj H HS a i p. strong_obj H HS a j q. injection H as <-.
    destruct (Nat.eqb i j) eqn:Eij.
    + apply Nat.eqb_eq in Eij. subst j.
      assert (q = p) as -> by congruence.
      pose proof (insert_same_lookup _ _ _ (Some (mkSharedPtr (sp_ptr p) (sp_cb p))) Hi).
      done_strong HM.
    + pose proof (insert_other_lookup _ _ _ _ (Some (mkSharedPtr (sp_ptr p) (sp_cb p))) Eij Hi).
      done_strong HM.
  - (* SDestroy *)
    strong_obj H HS a i p. apply finish_Some in H as (x & m' & E & ->).
    pose proof (SharedPtr_dtor_strong a _ _ HM Hs0 p x m' E Hl Hle ltac:(lia)) as Hm'.
    done_strong Hm'.
  - (* WFromS *)
    strong_obj H HS a i p. apply finish_Some in H as (v & m' & E & ->).
    apply (WeakPtr_ctor_shared_cb a) in E as [Hv E]. weakly HM E.
  - (* WFromSY *)
    strong_obj H HS a i p. apply finish_Some in H as (v & m' & E & ->).
    apply (WeakPtr_ctor_shared_Y_cb a) in E as [Hv E]. weakly HM E.
  - (* WCopy *)
    weak_obj H HW a i u. apply finish_Some in H as (v & m' & E & ->).
    apply (WeakPtr_copy_ctor_cb a) in E as [Hv E]. weakly HM E.
  - (* WCopyY *)
    weak_obj H HW a i u. apply finish_Some in H as (v & m' & E & ->).
    apply (WeakPtr_copy_ctor_Y_cb a) in E as [Hv E]. weakly HM E.
  - (* WMove *)
    weak_obj H HW a i u. injection H as <-. done_strong HM.
  - (* WAssign *)
    weak_obj H HW a i u. weak_obj H HW a j v. unfold refer in H.
    destruct (Nat.eqb i j) eqn:Eij.
    + injection H as <-. done_strong HM.
    + apply finish_Some in H as (r & m' & E & ->).
      apply (WeakPtr_assign_cb a) in E as [Hr E]. weakly HM E.
  - (* WAssignY *)
    weak_obj H HW a i u. weak_obj H HW a j v.
    destruct (Nat.eqb i j) eqn:Eij; [discriminate H|].
    apply finish_Some in H as (r & m' & E & ->).
    apply (WeakPtr_assign_Y_cb a) in E as [Hr E]. weakly HM E.
  - (* WMoveAssign *)
    weak_obj H HW a i u. weak_obj H HW a j v. unfold refer in H.
    destruct (Nat.eqb i j) eqn:Eij.
    + rewrite WeakPtr_move_assign_self in H. injection H as <-.
      cbn [store_ref]. done_strong HM.
    + apply finish_Some in H as ([r x] & m' & E & ->).
      apply (WeakPtr_move_assign_cb a) in E as (Hr & -> & E). cbn [store_ref].
      weakly HM E.
  - (* WDestroy *)
    weak_obj H HW a i u. apply finish_Some in H as (x & m' & E & ->).
    apply (WeakPtr_dtor_evolves a) in E. weakly HM E.
  - (* WLock *)
    weak_obj H HW a i u. apply finish_Some in H as (q & m' & E & ->).
    destruct (WeakPtr_lock_strong a _ _ u q m' HM Hs0 E Hl ltac:(lia)) as (Hq & Hm').
    pose proof (wt_range a (sp_cb q)). done_strong Hm'.
Qed.

Lemma run_Inv_strong ops : forall st st',
  Inv_strong a st -> strong_handles a st + Z.of_nat (length ops) <= SIZE_MAX ->
  run ops st = Some st' ->
  Inv_strong a st' /\ strong_handles a st' <= strong_handles a st + Z.of_nat (length ops).
Proof.
  induction ops as [|o ops IH]; intros st st' HI Hb H.
  - injection H as <-. split; [exact HI|cbn; lia].
  - cbn [run] in H. destruct (step o st) as [st1|] eqn:E; [|discriminate H].
    rewrite length_cons, Nat2Z.inj_succ in *.
    assert (H0 : strong_handles a st < SIZE_MAX) by lia.
    destruct (step_Inv_strong o st st1 HI H0 E) as [HI1 Hb1].
    assert (H1 : strong_handles a st1 + Z.of_nat (length ops) <= SIZE_MAX) by lia.
    destruct (IH st1 st' HI1 H1 H) as [HI' Hb']. split; [exact HI'|lia].
Qed.

(** A program that starts with the only [SharedPtr] on a block, whatever
    the block's payload and weak count are. *)
Lemma Inv_strong_initial (sp : SharedPtr) (m0 : Memory) b0 :
  sp_cb sp = Some a -> heap m0 !! a = Some (Block b0) -> shared b0 = 1 ->
  calls (EvDestroy a) (log m0) = 0%nat ->
  Inv_strong a (mkProgram [Some sp] [] m0)
  /\ strong_handles a (mkProgram [Some sp] [] m0) = 1.
Proof.
  intros Hcb Hh Hs Hl.
  assert (Hc : count_refs sp_cb a [Some sp] = 1).
  { cbn. rewrite Hcb, bool_decide_eq_true_2; reflexivity. }
  split.
  - constructor; cbn [strongs weaks mem].
    + constructor; [|constructor]. intros h [= <-]. right. exact Hcb.
    + constructor.
    + unfold strong_handles. cbn [strongs]. rewrite Hc. split; [exact Hl|split].
      * intros s'. rewrite (shared_at_live a m0 b0 Hh), Hs. now intros [= <-].
      * intros _. now rewrite (shared_at_live a m0 b0 Hh), Hs.
  - unfold strong_handles. cbn [strongs]. exact Hc.
Qed.
End StepStrong.

Example owner_observed_memory :
  owner_observed empty_memory = Done observed_handle observed_memory.
Proof. vm_compute. reflexivity. Qed.

Lemma SharedPtr_release_undefined_clear (this : SharedPtr) m u a :
  sp_cb this = Some a ->
  SharedPtr_clear this m = Undefined u -> SharedPtr_release_undefined this m u.
Proof.
  intros Hcb E. split; [exact E|]. split.
  - unfold SharedPtr_dtor, bind. now rewrite E.
  - unfold SharedPtr_reset, SharedPtr_swap, SharedPtr_dtor, bind.
    assert (SharedPtr_clear (mkSharedPtr (sp_ptr this) (sp_cb this)) m = SharedPtr_clear this m)
      as ->.
    { unfold SharedPtr_clear. cbn [sp_cb]. now rewrite Hcb. }
    now rewrite E.
Qed.

(** * The properties of the specification *)

(** C1.  The release of a [SharedPtr] that holds a live control block, in
    every case.  The destructor, [clear()] and [reset()] all decrement
    [shared].  When the count stays positive they call nothing and leave
    the handle with both its pointers null.  When it reaches 0 they call
    [destroy()], which never throws.  If [destroy()] returns with the block
    still allocated, they call [deallocate()] exactly when the block's
    [weak] is then 0, call nothing else, and leave the handle with both its
    pointers null; for a payload that holds no handle [destroy()] returns
    and leaves the block as it is, so that [weak] is the count from before
    the release.  If [destroy()] has undefined behaviour, so has the
    release.  And if [destroy()] returns with the block deallocated,
    because the payload's destructor has released the last [WeakPtr] on
    it, the release reads [weak] in the freed block: it has undefined
    behaviour and does not null the handle, where it should call
    [deallocate()] only if the weak count is 0 and then null the handle. *)
Theorem SharedPtr_release_two_phase
  (this : SharedPtr) (m : Memory) (a : addr) (b : BaseControlBlock) :
  sp_cb this = Some a ->
  heap m !! a = Some (Block b) ->
  let s := pre_decr (shared b) in
  let m1 := set_block a (with_shared s b) m in
  (1 <= shared b <= SIZE_MAX -> s = shared b - 1) /\
  (s <> 0 -> SharedPtr_released this m m1 /\ log m1 = log m) /\
  (s = 0 ->
     (forall e m2, destroy (Some a) m1 <> Throw e m2) /\
     (forall u, destroy (Some a) m1 = Undefined u -> SharedPtr_release_undefined this m u) /\
     (forall m2, destroy (Some a) m1 = Done tt m2 ->
        (exists evs, log m2 = log m ++ EvDestroy a :: evs
                     /\ forallb (fun e => negb (is_destroy e)) evs = true) /\
        match heap m2 !! a with
        | Some (Block b2) =>
            if weak b2 =? 0 then
              SharedPtr_released this m
                (mkMemory (delete a (heap m2)) (objects m2) (log m2 ++ [EvDeallocate a]))
            else SharedPtr_released this m m2
        | _ => SharedPtr_release_undefined this m (InvalidAccess a)
        end)) /\
  (s = 0 -> payload_inert a (kind b) m = true ->
     exists m2, destroy (Some a) m1 = Done tt m2
                /\ heap m2 = heap m1 /\ log m2 = log m ++ [EvDestroy a]).
Proof.
  intros Hcb Hb s m1.
  assert (H1 : heap m1 !! a = Some (Block (with_shared s b))) by apply lookup_insert_eq.
  pose proof (SharedPtr_clear_steps this m a b Hcb Hb) as Hsteps. fold s m1 in Hsteps.
  split; [intros H; now apply pre_decr_pos|]. split; [|split].
  - intros Hs. destruct (s =? 0) eqn:E0; [lia|]. split; [|reflexivity].
    now apply (SharedPtr_released_clear this m m1 a Hcb).
  - intros Hs. rewrite Hs, Z.eqb_refl in Hsteps. split; [|split].
    + intros e m2. apply nothrow_destroy.
    + intros u Hd. apply (SharedPtr_release_undefined_clear this m u a Hcb).
      rewrite Hsteps. unfold bind. now rewrite Hd.
    + intros m2 Hd. split.
      { destruct (destroy_log a _ m1 m2 H1 Hd) as (evs & E & F). exists evs. now split. }
      unfold bind in Hsteps. rewrite Hd in Hsteps.
      destruct (heap m2 !! a) as [[|b2]|] eqn:Hb2.
      * apply (SharedPtr_release_undefined_clear this m _ a Hcb). rewrite Hsteps.
        unfold read_weak, bind, deref. now rewrite Hb2.
      * rewrite (read_weak_live m2 a b2 Hb2) in Hsteps.
        destruct (weak b2 =? 0) eqn:E0;
          apply (SharedPtr_released_clear this m _ a Hcb); rewrite Hsteps;
          [rewrite (deallocate_live m2 a b2 Hb2)|]; reflexivity.
      * apply (SharedPtr_release_undefined_clear this m _ a Hcb). rewrite Hsteps.
        unfold read_weak, bind, deref. now rewrite Hb2.
  - intros Hs Hin.
    assert (Hin1 : payload_inert a (kind (with_shared s b)) m1 = true) by exact Hin.
    destruct (destroy_inert m1 a _ H1 Hin1) as (m2 & E2 & Hh2 & Hl2 & _). eauto.
Qed.

Lemma SharedPtr_release_two_phase_witness :
  SharedPtr_release_undefined observed_handle observed_memory (InvalidAccess 0%N) /\
  SharedPtr_released demo_handle demo_memory
    (mkMemory ∅ ∅ [EvDestroy 0%N; EvDeallocate 0%N]).
Proof.
  split.
  - destruct (SharedPtr_release_two_phase observed_handle observed_memory 0%N observed_block
                eq_refl eq_refl) as (_ & _ & H & _).
    destruct (H eq_refl) as (_ & _ & Hd).
    exact (proj2 (Hd (mkMemory ∅ ∅ [EvDestroy 0%N; EvDeallocate 0%N]) eq_refl)).
  - destruct (SharedPtr_release_two_phase demo_handle demo_memory 0%N demo_block
                eq_refl eq_refl) as (_ & _ & H & _).
    destruct (H eq_refl) as (_ & _ & Hd).
    exact (proj2 (Hd (mkMemory {[ 0%N := Block (mkBlock 0 0 MakeSharedControlBlock) ]} ∅
                        [EvDestroy 0%N]) eq_refl)).
Defined.

(** X1.  Programs whose payload holds no handle.  A program starts with
    one [SharedPtr] on a fresh control block (counts 1 and 0) and runs any
    sequence of copies, moves, assignments, swaps, resets, destructions and
    locks of [SharedPtr] and [WeakPtr] objects that has defined behaviour.
    In the state it reaches, the block's counters are the numbers of live
    strong and weak handles; [deallocate()] has been called once if both
    numbers are zero and not at all otherwise; in the log it comes directly
    after the one call of [destroy()] and nothing follows it; and a further
    step adds a call of [deallocate()] exactly when it is the step that
    brings both numbers to zero, whichever kind of handle it releases. *)
Theorem deallocate_once_at_both_zero
  (a : addr) (k : block_kind) (sp : SharedPtr) (m0 : Memory) (ops : list op) (st : Program) :
  sp_cb sp = Some a ->
  heap m0 !! a = Some (Block (mkBlock 1 0 k)) ->
  log m0 = [] ->
  payload_inert a k m0 = true ->
  Z.of_nat (length ops) + 1 < SIZE_MAX ->
  run ops (mkProgram [Some sp] [] m0) = Some st ->
  let s := strong_handles a st in
  let w := weak_handles a st in
  heap (mem st) !! a
    = (if both_zero s w then None else Some (Block (mkBlock s w k))) /\
  calls (EvDeallocate a) (log (mem st)) = (if both_zero s w then 1%nat else 0%nat) /\
  (forall pre post, log (mem st) = pre ++ EvDeallocate a :: post ->
     pre = [EvDestroy a] /\ post = []) /\
  (forall o st', step o st = Some st' ->
     (calls (EvDeallocate a) (log (mem st')) = S (calls (EvDeallocate a) (log (mem st)))
      <-> both_zero (strong_handles a st') (weak_handles a st') = true
          /\ both_zero s w = false)).
Proof.
  intros Hcb Hh Hl Hin Hb Hrun s w.
  assert (HI : Inv a k st) by (apply (reachable_Inv a k sp m0 ops st); trivial; lia).
  destruct HI as [_ _ (HH & HL & _)]. fold s w in HH, HL.
  split; [exact HH|]. split; [rewrite HL; apply calls_deallocate_history|].
  split; [intros pre post E; rewrite HL in E; exact (history_order _ _ _ _ _ E)|].
  intros o st' Hstep.
  destruct (reachable_step a k sp m0 ops st o st' Hcb Hh Hl Hin Hb Hrun Hstep)
    as [_ [_ _ (_ & HL' & _)]].
  rewrite HL, HL', !calls_deallocate_history. unfold both_zero.
  destruct ((strong_handles a st' =? 0) && (weak_handles a st' =? 0));
    destruct ((s =? 0) && (w =? 0)); split; try discriminate; try tauto; intros [? ?]; discriminate.
Qed.

Lemma deallocate_once_at_both_zero_sample :
  (exists st, run weak_last demo_program = Some st /\
     calls (EvDeallocate 0%N) (log (mem st)) = 1%nat) /\
  (exists st, run strong_last demo_program = Some st /\
     calls (EvDeallocate 0%N) (log (mem st)) = 1%nat).
Proof.
  split; (eexists; split; [vm_compute; reflexivity|]).
  - refine (proj1 (proj2 (deallocate_once_at_both_zero 0%N MakeSharedControlBlock
             demo_handle demo_memory weak_last _ _ _ _ _ _ _))); reflexivity.
  - refine (proj1 (proj2 (deallocate_once_at_both_zero 0%N MakeSharedControlBlock
             demo_handle demo_memory strong_last _ _ _ _ _ _ _))); reflexivity.
Defined.

(** C2.  A payload that holds a [WeakPtr] on its own control block, and one
    [SharedPtr] besides: the counts are 1 and 1.  When the [SharedPtr] is
    released, [shared] drops to 0 and [destroy()] runs the payload's
    destructor, which destroys the member; that brings [weak] to 0 too, so
    the member's [clear()] calls [deallocate()] while [destroy()] is still
    running.  [SharedPtr::clear] then reads [cb->weak] from the block that
    has just been freed in order to decide whether to call [deallocate()]:
    the release has undefined behaviour, be it through the destructor or
    through [reset()]. *)
Theorem release_of_self_observed_payload :
  exists p m,
    self_observed empty_memory = Done p m /\
    sp_cb p = Some 0%N /\
    heap m !! 0%N = Some (Block (mkBlock 1 1 MakeSharedControlBlock)) /\
    objects m !! 1%N = Some (mkObject None [mkWeakPtr (Some 1%N) (Some 0%N)]) /\
    (exists m1 m2,
       decr_shared (sp_cb p) m = Done tt m1 /\
       read_shared (sp_cb p) m1 = Done 0 m1 /\
       destroy (sp_cb p) m1 = Done tt m2 /\
       log m2 = [EvDestroy 0%N; EvDeallocate 0%N] /\
       heap m2 !! 0%N = None /\
       read_weak (sp_cb p) m2 = Undefined (InvalidAccess 0%N)) /\
    SharedPtr_clear p m = Undefined (InvalidAccess 0%N) /\
    SharedPtr_dtor p m = Undefined (InvalidAccess 0%N) /\
    SharedPtr_reset p m = Undefined (InvalidAccess 0%N).
Proof.
  do 2 eexists. split; [vm_compute; reflexivity|].
  split; [reflexivity|]. split; [reflexivity|]. split; [reflexivity|].
  split.
  - do 2 eexists. split; [vm_compute; reflexivity|].
    split; [reflexivity|]. split; [vm_compute; reflexivity|].
    repeat split.
  - repeat split.
Qed.



(** C4.  What the helpers do for a payload that derives from
    [EnableSharedFromThis]: [makeShared] and [allocateShared] return a
    handle with [use_count()] 1 and leave the payload's embedded [wptr] as
    its default constructor made it, empty; [shared_from_this()] then
    returns an empty [SharedPtr] whose [use_count()] is 0, not a handle on
    the block with [use_count()] 2. *)
Theorem shared_from_this_after_construction_helper (m : Memory) :
  let T := mkPayload true 0 false in
  let a := fresh (dom (heap m)) in
  let sp := mkSharedPtr nullptr (Some a) in
  exists m',
    makeShared T m = Done sp m' /\
    allocateShared (mkAlloc false) T m = Done sp m' /\
    SharedPtr_get sp = Some (get_ptr a) /\
    objects m' !! get_ptr a = Some (mkObject (Some (mkESFT WeakPtr_ctor)) []) /\
    SharedPtr_use_count sp m' = Done 1 m' /\
    shared_from_this (get_ptr a) m' = Done SharedPtr_ctor m' /\
    SharedPtr_use_count SharedPtr_ctor m' = Done 0 m'.
Proof.
  intros T a sp. eexists. split; [reflexivity|]. split; [reflexivity|].
  split; [reflexivity|]. cbn [objects heap].
  split; [apply lookup_insert_eq|]. split.
  { unfold SharedPtr_use_count, read_shared, bind, deref, ret. cbn [sp_cb sp heap].
    rewrite lookup_insert_eq. reflexivity. }
  split; [|reflexivity].
  unfold shared_from_this. cbn [objects]. rewrite lookup_insert_eq. reflexivity.
Qed.

(** C5.  [lock()] on a well-formed [WeakPtr] always completes.
    [use_count()] returns the block's strong count, and 0 for an empty
    handle.  When that is 0 (the handle is empty or expired), [lock()]
    returns an empty [SharedPtr], whose [use_count()] is 0, and changes
    nothing; otherwise it returns a [SharedPtr] on the same control block,
    and the only change is that [shared] has been incremented (by 1 as long
    as the counter does not wrap). *)
Theorem WeakPtr_lock_never_fails (this : WeakPtr) (m : Memory) :
  WeakPtr_valid this m ->
  exists n q m',
    WeakPtr_use_count this m = Done n m /\
    WeakPtr_lock this m = Done q m' /\
    match wp_cb this with
    | None => n = 0
    | Some a => exists b, heap m !! a = Some (Block b) /\ n = shared b
    end /\
    (n = 0 -> q = SharedPtr_ctor /\ m' = m /\ SharedPtr_use_count q m' = Done 0 m') /\
    (n <> 0 ->
       exists a b, wp_cb this = Some a /\ heap m !! a = Some (Block b) /\
         sp_cb q = Some a /\
         m' = set_block a (with_shared (pre_incr (shared b)) b) m /\
         SharedPtr_use_count q m' = Done (pre_incr (shared b)) m' /\
         (shared b < SIZE_MAX -> pre_incr (shared b) = shared b + 1)).
Proof.
  unfold WeakPtr_valid. destruct (wp_cb this) as [a|] eqn:Hcb.
  - intros (b & Hb & Hsz & Hw).
    assert (Hu : WeakPtr_use_count this m = Done (shared b) m).
    { unfold WeakPtr_use_count. rewrite Hcb. apply (read_shared_live _ _ _ Hb). }
    destruct (Z.eq_dec (shared b) 0) as [E0|E0].
    + exists (shared b), SharedPtr_ctor, m. split; [exact Hu|]. split.
      { unfold WeakPtr_lock, WeakPtr_expired, bind. rewrite Hu. unfold ret.
        rewrite E0. reflexivity. }
      split; [eauto|]. split; [auto|contradiction].
    + eexists (shared b), _, _. split; [exact Hu|].
      split; [apply (WeakPtr_lock_live this m a b Hcb Hb E0 Hw)|].
      split; [eauto|]. split; [contradiction|]. intros _.
      exists a, b. repeat split; trivial.
      * unfold SharedPtr_use_count, read_shared, bind, deref, set_block, ret.
        cbn [sp_cb heap]. rewrite lookup_insert_eq. reflexivity.
      * intros H. apply pre_incr_small. unfold is_size in Hsz. lia.
  - intros _. exists 0, SharedPtr_ctor, m.
    assert (Hu : WeakPtr_use_count this m = Done 0 m).
    { unfold WeakPtr_use_count. now rewrite Hcb. }
    split; [exact Hu|]. split.
    { unfold WeakPtr_lock, WeakPtr_expired, bind. rewrite Hu. reflexivity. }
    split; [reflexivity|]. split; [auto|contradiction].
Qed.

Lemma WeakPtr_lock_never_fails_witness :
  WeakPtr_valid demo_weak demo_observed /\
  exists n q m', WeakPtr_use_count demo_weak demo_observed = Done n demo_observed /\
                 WeakPtr_lock demo_weak demo_observed = Done q m'.
Proof.
  assert (Hv : WeakPtr_valid demo_weak demo_observed).
  { exists (mkBlock 1 1 MakeSharedControlBlock). unfold is_size, SIZE_MAX. cbn.
    split; [reflexivity|lia]. }
  split; [exact Hv|].
  destruct (WeakPtr_lock_never_fails demo_weak demo_observed Hv) as (n & q & m' & H1 & H2 & _).
  eauto.
Defined.

(** C6.  The same-type copy constructor of [WeakPtr] on an empty source:
    it increments [weak] through the null control-block pointer, and so
    does the copy assignment built on it, whereas the covariant [WeakPtr]
    copy constructor and the same-type [SharedPtr] copy constructor return
    an empty handle and touch nothing. *)
Theorem WeakPtr_copy_of_empty_source (m : Memory) :
  WeakPtr_copy_ctor WeakPtr_ctor m = Undefined NullDereference /\
  WeakPtr_assign WeakPtr_ctor (Other WeakPtr_ctor) m = Undefined NullDereference /\
  WeakPtr_copy_ctor_Y WeakPtr_ctor m = Done WeakPtr_ctor m /\
  SharedPtr_copy_ctor SharedPtr_ctor m = Done SharedPtr_ctor m.
Proof. repeat split. Qed.

(** C7, as the specification states it, fails: after [makeShared] has
    allocated and the payload's constructor has thrown, the allocation is
    still held. *)
Lemma allocation_not_released_on_throw :
  ~ released_on_throw default_allocator (mkPayload false 0 true) empty_memory.
Proof.
  intros H. specialize (H ctor_exception _ eq_refl).
  assert (E : heap empty_memory !! 0%N = Some Raw) by (rewrite <- H; reflexivity).
  discriminate E.
Qed.

(** C7, amended.  When the allocation succeeds and the payload's
    constructor throws, [allocateShared] and [makeShared] pass the
    exception on to the caller: no handle is formed, the storage holds no
    control block and no payload, and no call of [deallocate()] is made, so
    the storage the allocator handed out remains allocated. *)
Theorem construction_helper_throw (alloc : Alloc) (T : Payload) (m : Memory) :
  allocate_fails alloc = false ->
  ctor_throws T = true ->
  let a := fresh (dom (heap m)) in
  let m' := mkMemory (<[a := Raw]> (heap m)) (objects m) (log m) in
  allocateShared alloc T m = Throw ctor_exception m' /\
  makeShared T m = Throw ctor_exception m'.
Proof.
  intros Ha Ht a m'.
  unfold allocateShared, makeShared, allocate, MakeSharedControlBlock_ctor, unwinding,
    construct, unconstruct, put, bind, default_allocator.
  rewrite Ha, Ht. cbn [allocate_fails heap objects log].
  unfold m'. rewrite !insert_insert_eq. split; reflexivity.
Qed.

Lemma construction_helper_throw_witness :
  exists m', makeShared (mkPayload false 0 true) empty_memory = Throw ctor_exception m'
             /\ heap m' !! 0%N = Some Raw /\ log m' = [].
Proof.
  eexists. split.
  - exact (proj2 (construction_helper_throw default_allocator (mkPayload false 0 true)
                    empty_memory eq_refl eq_refl)).
  - split; reflexivity.
Defined.

(** C8.  The assignment operators of [SharedPtr] construct a temporary and
    swap.  Same-type copy self-assignment returns at the identity check and
    leaves the handle and the memory as they are.  The other assignments
    are [construct_temporary_then_swap] of the matching constructor; when
    the construction does not complete, the operation ends there with the
    construction's outcome and has swapped nothing; none of the operators
    throws; and a completed copy assignment leaves the source's pointers in
    the handle. *)
Theorem SharedPtr_assignment_by_swap (this s : SharedPtr) (m : Memory) :
  SharedPtr_assign this This m = Done this m /\
  SharedPtr_assign this (Other s) m
    = construct_temporary_then_swap (SharedPtr_copy_ctor s) this m /\
  SharedPtr_assign_Y this s m
    = construct_temporary_then_swap (SharedPtr_copy_ctor_Y s) this m /\
  (forall r s' m', SharedPtr_move_assign this (Other s) m = Done (r, s') m' ->
     construct_temporary_then_swap (ret (fst (SharedPtr_move_ctor s))) this m = Done r m'
     /\ s' = Other (snd (SharedPtr_move_ctor s))) /\
  (forall construct e m', construct m = Throw e m' ->
     construct_temporary_then_swap construct this m = Throw e m') /\
  (forall construct u, construct m = Undefined u ->
     construct_temporary_then_swap construct this m = Undefined u) /\
  (forall r e m', SharedPtr_assign this r m <> Throw e m'
                  /\ SharedPtr_assign_Y this s m <> Throw e m'
                  /\ SharedPtr_move_assign this r m <> Throw e m') /\
  (forall r m', SharedPtr_assign this (Other s) m = Done r m' ->
     r = mkSharedPtr (sp_ptr s) (sp_cb s)).
Proof.
  split; [reflexivity|]. split; [apply SharedPtr_assign_refines|].
  split; [apply SharedPtr_assign_Y_refines|]. split.
  { intros r s' m'. unfold SharedPtr_move_assign, SharedPtr_move_ctor, SharedPtr_swap,
      construct_temporary_then_swap, bind, ret. cbn [fst snd sp_ptr sp_cb].
    rewrite SharedPtr_dtor_clear.
    destruct (SharedPtr_clear _ m); try discriminate. intros [= <- <- <-]. auto. }
  split.
  { intros c e m' H. unfold construct_temporary_then_swap. now rewrite H. }
  split.
  { intros c u H. unfold construct_temporary_then_swap. now rewrite H. }
  split.
  { intros r e m'. split; [|split].
    - destruct r as [|x]; [discriminate|]. rewrite SharedPtr_assign_refines.
      apply construct_temporary_then_swap_no_throw. intros. apply SharedPtr_copy_ctor_no_throw.
    - rewrite SharedPtr_assign_Y_refines.
      apply construct_temporary_then_swap_no_throw. intros. apply SharedPtr_copy_ctor_Y_no_throw.
    - unfold SharedPtr_move_assign, SharedPtr_move_ctor, SharedPtr_swap, bind.
      destruct r as [|x]; rewrite SharedPtr_dtor_clear;
        match goal with |- context [SharedPtr_clear ?p ?mm] =>
          pose proof (SharedPtr_clear_no_throw p mm) as Hn;
          destruct (SharedPtr_clear p mm); [discriminate| |discriminate]
        end; intros _; now apply (Hn e0 m0). }
  intros r m'. rewrite SharedPtr_assign_refines. unfold construct_temporary_then_swap.
  destruct (SharedPtr_copy_ctor s m) as [c m1| |] eqn:E; try discriminate.
  destruct (SharedPtr_clear _ m1); try discriminate. intros [= <- <-].
  unfold SharedPtr_copy_ctor in E. destruct (sp_cb s) eqn:Es.
  - unfold bind in E. destruct (incr_shared _ m); try discriminate.
    injection E as <- _. reflexivity.
  - injection E as <- _. reflexivity.
Qed.

Lemma SharedPtr_assignment_by_swap_witness :
  SharedPtr_assign demo_handle This demo_memory = Done demo_handle demo_memory /\
  construct_temporary_then_swap (throw bad_alloc) demo_handle demo_memory
    = Throw bad_alloc demo_memory /\
  construct_temporary_then_swap (SharedPtr_copy_ctor_Y SharedPtr_ctor) demo_handle demo_memory
    = Undefined NullDereference.
Proof.
  destruct (SharedPtr_assignment_by_swap demo_handle SharedPtr_ctor demo_memory)
    as (H1 & _ & _ & _ & H5 & H6 & _).
  split; [exact H1|]. split.
  - exact (H5 (throw bad_alloc) bad_alloc demo_memory eq_refl).
  - exact (H6 (SharedPtr_copy_ctor_Y SharedPtr_ctor) NullDereference eq_refl).
Defined.

(** C9.  Constructing a [WeakPtr] from a [SharedPtr].  From a source that
    holds a live control block both overloads return a handle on that
    block, with the payload address [get()] reports, and increment [weak].
    From an empty source the same-type overload dereferences the null
    control-block pointer, which is undefined behaviour, while the
    covariant overload returns an empty handle and touches no counter. *)
Theorem WeakPtr_from_SharedPtr (sp : SharedPtr) (m : Memory) :
  (forall a b, sp_cb sp = Some a -> heap m !! a = Some (Block b) ->
     let m' := set_block a (with_weak (pre_incr (weak b)) b) m in
     WeakPtr_ctor_shared sp m = Done (mkWeakPtr (SharedPtr_get sp) (Some a)) m' /\
     WeakPtr_ctor_shared_Y sp m = Done (mkWeakPtr (SharedPtr_get sp) (Some a)) m' /\
     (0 <= weak b < SIZE_MAX -> pre_incr (weak b) = weak b + 1)) /\
  (sp_cb sp = None ->
     WeakPtr_ctor_shared sp m = Undefined NullDereference /\
     WeakPtr_ctor_shared_Y sp m = Done (mkWeakPtr (SharedPtr_get sp) nullptr) m /\
     (sp_ptr sp = None -> WeakPtr_ctor_shared_Y sp m = Done WeakPtr_ctor m)).
Proof.
  split.
  - intros a b Hcb Hb m'. unfold WeakPtr_ctor_shared, WeakPtr_ctor_shared_Y, bind, ret.
    rewrite Hcb, (incr_weak_live _ _ _ Hb). repeat split. apply pre_incr_small.
  - intros Hcb. unfold WeakPtr_ctor_shared, WeakPtr_ctor_shared_Y, ret. rewrite Hcb.
    repeat split. intros Hp. unfold SharedPtr_get. now rewrite Hp, Hcb.
Qed.

Lemma WeakPtr_from_SharedPtr_witness :
  WeakPtr_ctor_shared demo_handle demo_memory
    = Done (mkWeakPtr (Some 1%N) (Some 0%N))
        (set_block 0%N (mkBlock 1 1 MakeSharedControlBlock) demo_memory) /\
  WeakPtr_ctor_shared SharedPtr_ctor demo_memory = Undefined NullDereference /\
  WeakPtr_ctor_shared_Y SharedPtr_ctor demo_memory = Done WeakPtr_ctor demo_memory.
Proof.
  split.
  - exact (proj1 (proj1 (WeakPtr_from_SharedPtr demo_handle demo_memory)
                    0%N demo_block eq_refl eq_refl)).
  - destruct (proj2 (WeakPtr_from_SharedPtr SharedPtr_ctor demo_memory) eq_refl)
      as (H1 & _ & H3).
    split; [exact H1|exact (H3 eq_refl)].
Defined.

(** C10.  The covariant copy constructor of [SharedPtr] needs a source that
    is not empty.  From a source that holds a live control block it returns
    a handle on that block and increments [shared], as the same-type copy
    constructor does.  From an empty source it increments through the null
    control-block pointer, where the same-type constructor returns an empty
    handle; and that null dereference happens for an empty source only. *)
Theorem SharedPtr_covariant_copy_requires_source (shptr : SharedPtr) (m : Memory) :
  (forall a b, sp_cb shptr = Some a -> heap m !! a = Some (Block b) ->
     let m' := set_block a (with_shared (pre_incr (shared b)) b) m in
     SharedPtr_copy_ctor_Y shptr m = Done (mkSharedPtr (sp_ptr shptr) (Some a)) m' /\
     SharedPtr_copy_ctor shptr m = Done (mkSharedPtr (sp_ptr shptr) (Some a)) m' /\
     (0 <= shared b < SIZE_MAX -> pre_incr (shared b) = shared b + 1)) /\
  (sp_cb shptr = None ->
     SharedPtr_copy_ctor_Y shptr m = Undefined NullDereference /\
     SharedPtr_copy_ctor shptr m = Done (mkSharedPtr (sp_ptr shptr) nullptr) m) /\
  (SharedPtr_copy_ctor_Y shptr m = Undefined NullDereference -> sp_cb shptr = None).
Proof.
  split; [|split].
  - intros a b Hcb Hb m'. unfold SharedPtr_copy_ctor, SharedPtr_copy_ctor_Y, bind, ret.
    rewrite Hcb, (incr_shared_live _ _ _ Hb). repeat split. apply pre_incr_small.
  - intros Hcb. unfold SharedPtr_copy_ctor, SharedPtr_copy_ctor_Y, ret. rewrite Hcb.
    repeat split.
  - unfold SharedPtr_copy_ctor_Y, incr_shared, bind, deref.
    destruct (sp_cb shptr) as [a|]; [|reflexivity].
    destruct (heap m !! a) as [[|b]|]; discriminate.
Qed.

Lemma SharedPtr_covariant_copy_requires_source_witness :
  SharedPtr_copy_ctor_Y demo_handle demo_memory
    = Done demo_handle (set_block 0%N (mkBlock 2 0 MakeSharedControlBlock) demo_memory) /\
  SharedPtr_copy_ctor_Y SharedPtr_ctor demo_memory = Undefined NullDereference /\
  SharedPtr_copy_ctor SharedPtr_ctor demo_memory = Done SharedPtr_ctor demo_memory.
Proof.
  split.
  - exact (proj1 (proj1 (SharedPtr_covariant_copy_requires_source demo_handle demo_memory)
                    0%N demo_block eq_refl eq_refl)).
  - exact (proj1 (proj2 (SharedPtr_covariant_copy_requires_source SharedPtr_ctor demo_memory))
             eq_refl).
Defined.

(** * Further properties of the code *)

(** ** What the operations do to payload objects *)

Section Lifetime.
Variables (a : addr) (k : block_kind).

Lemma lifetime_refl m : lifetime a k m m.
Proof.
  intros HK. split; [exact HK|]. split; [reflexivity|]. exists [].
  rewrite app_nil_r. split; [reflexivity|]. split; [intros []|reflexivity].
Qed.

Lemma lifetime_trans m1 m2 m3 :
  lifetime a k m1 m2 -> lifetime a k m2 m3 -> lifetime a k m1 m3.
Proof.
  intros H12 H23 HK.
  destruct (H12 HK) as (HK2 & Hs2 & e1 & E1 & D1 & Q1).
  destruct (H23 HK2) as (HK3 & Hs3 & e2 & E2 & D2 & Q2).
  split; [exact HK3|]. split; [now transitivity (objects m2)|].
  exists (e1 ++ e2). split; [now rewrite E2, E1, app_assoc|]. split.
  - intros Hin q Hq. apply in_app_or in Hin as [Hin|Hin].
    + apply (lookup_weaken_None _ _ _ (D1 Hin q Hq) Hs3).
    + exact (D2 Hin q Hq).
  - rewrite forallb_app. intros H. apply andb_prop in H as [F1 F2].
    now rewrite (Q2 F2), (Q1 F1).
Qed.

(** A store to a block that keeps its kind. *)
Lemma lifetime_put m a0 b b' :
  heap m !! a0 = Some (Block b) -> kind b' = kind b ->
  lifetime a k m (mkMemory (<[a0 := Block b']> (heap m)) (objects m) (log m)).
Proof.
  intros Hb Hk HK. split.
  - intros b1. cbn [heap]. destruct (decide (a0 = a)) as [->|Hne].
    + rewrite lookup_insert_eq. intros [= <-]. rewrite Hk. exact (HK b Hb).
    + rewrite lookup_insert_ne by exact Hne. apply HK.
  - split; [reflexivity|]. exists []. cbn [log objects]. rewrite app_nil_r.
    split; [reflexivity|]. split; [intros []|reflexivity].
Qed.

Lemma lifetime_deallocate m a0 :
  lifetime a k m (mkMemory (delete a0 (heap m)) (objects m) (log m ++ [EvDeallocate a0])).
Proof.
  intros HK. split.
  - intros b1. cbn [heap]. intros H. apply lookup_delete_Some in H as [_ H]. now apply HK.
  - split; [reflexivity|]. exists [EvDeallocate a0]. cbn [log objects].
    split; [reflexivity|]. split; [|reflexivity].
    intros [H|[]]. discriminate H.
Qed.

Lemma tracks_ret {A} (x : A) : tracks a k (ret x).
Proof. intros m y m' [= _ <-]. apply lifetime_refl. Qed.

Lemma tracks_bind {A B} (c : M A) (f : A -> M B) :
  tracks a k c -> (forall x, tracks a k (f x)) -> tracks a k (bind c f).
Proof.
  intros Hc Hf m y m' H. apply bind_inv in H as (x & m1 & H1 & H2).
  exact (lifetime_trans _ _ _ (Hc _ _ _ H1) (Hf x _ _ _ H2)).
Qed.

Lemma tracks_read_shared cb : tracks a k (read_shared cb).
Proof. intros m x m' H. apply read_shared_same in H as ->. apply lifetime_refl. Qed.

Lemma tracks_read_weak cb : tracks a k (read_weak cb).
Proof. intros m x m' H. apply read_weak_same in H as ->. apply lifetime_refl. Qed.

Lemma tracks_incr_shared cb : tracks a k (incr_shared cb).
Proof.
  intros m x m' H. unfold incr_shared, bind, deref, put in H.
  destruct cb as [a0|]; [|discriminate H].
  destruct (heap m !! a0) as [[|b]|] eqn:Hb; try discriminate H.
  injection H as _ <-. now apply (lifetime_put m a0 b).
Qed.

Lemma tracks_decr_shared cb : tracks a k (decr_shared cb).
Proof.
  intros m x m' H. unfold decr_shared, bind, deref, put in H.
  destruct cb as [a0|]; [|discriminate H].
  destruct (heap m !! a0) as [[|b]|] eqn:Hb; try discriminate H.
  injection H as _ <-. now apply (lifetime_put m a0 b).
Qed.

Lemma tracks_incr_weak cb : tracks a k (incr_weak cb).
Proof.
  intros m x m' H. unfold incr_weak, bind, deref, put in H.
  destruct cb as [a0|]; [|discriminate H].
  destruct (heap m !! a0) as [[|b]|] eqn:Hb; try discriminate H.
  injection H as _ <-. now apply (lifetime_put m a0 b).
Qed.

Lemma tracks_decr_weak cb : tracks a k (decr_weak cb).
Proof.
  intros m x m' H. unfold decr_weak, bind, deref, put in H.
  destruct cb as [a0|]; [|discriminate H].
  destruct (heap m !! a0) as [[|b]|] eqn:Hb; try discriminate H.
  injection H as _ <-. now apply (lifetime_put m a0 b).
Qed.

Lemma tracks_deallocate cb : tracks a k (deallocate cb).
Proof.
  intros m x m' H. unfold deallocate, bind, deref in H.
  destruct cb as [a0|]; [|discriminate H].
  destruct (heap m !! a0) as [[|b]|] eqn:Hb; try discriminate H.
  injection H as _ <-. apply lifetime_deallocate.
Qed.
End Lifetime.

Create HintDb tracks.

#[local] Hint Resolve tracks_ret tracks_read_shared tracks_read_weak tracks_incr_shared
  tracks_decr_shared tracks_incr_weak tracks_decr_weak tracks_deallocate : tracks.

Ltac tracks :=
  repeat first
    [ solve [auto with tracks]
    | apply tracks_bind
    | match goal with
      | |- forall _ : _ * _, tracks _ _ _ => intros [? ?]
      | |- forall _, tracks _ _ _ => intro
      | |- tracks _ _ (if ?c then _ else _) => destruct c
      | |- tracks _ _ (match ?c with Some _ => _ | None => _ end) => destruct c
      | |- tracks _ _ (match ?c with This => _ | Other _ => _ end) => destruct c
      end ].

Section LifetimeOps.
Variables (a : addr) (k : block_kind).

Lemma tracks_WeakPtr_clear w : tracks a k (WeakPtr_clear w).
Proof. unfold WeakPtr_clear. tracks. Qed.

Lemma tracks_WeakPtr_dtor w : tracks a k (WeakPtr_dtor w).
Proof. unfold WeakPtr_dtor. apply tracks_bind; auto using tracks_WeakPtr_clear with tracks. Qed.

Lemma tracks_destroy_all ws : tracks a k (destroy_all ws).
Proof.
  induction ws as [|w ws IH]; cbn [destroy_all]; [apply tracks_ret|].
  apply tracks_bind; [apply tracks_WeakPtr_dtor|intros _; exact IH].
Qed.

Lemma tracks_Object_dtor o : tracks a k (Object_dtor o).
Proof.
  unfold Object_dtor. apply tracks_bind; [apply tracks_destroy_all|].
  intros _. destruct (base o); [apply tracks_WeakPtr_dtor|apply tracks_ret].
Qed.

(** [destroy()] ends the lifetime of the block's payload. *)
Lemma tracks_destroy cb : tracks a k (destroy cb).
Proof.
  intros m x m' H HK. unfold destroy, bind, deref, emit in H.
  destruct cb as [a0|]; [|discriminate H].
  destruct (heap m !! a0) as [[|b]|] eqn:Hb; try discriminate H.
  set (m1 := mkMemory (heap m) (objects m) (log m ++ [EvDestroy a0])) in H.
  assert (Hp : destroy_payload (payload_of a0 (kind b)) m1 = Done x m').
  { destruct (kind b); exact H. }
  clear H. assert (HK1 : kind_ok a k m1) by exact HK.
  assert (Hcase : m' = m1 /\ (forall q, payload_of a0 (kind b) = Some q -> objects m1 !! q = None)
          \/ exists q m2, payload_of a0 (kind b) = Some q /\ lifetime a k m1 m2
               /\ heap m' = heap m2 /\ log m' = log m2
               /\ objects m' = delete q (objects m2)).
  { unfold destroy_payload in Hp. destruct (payload_of a0 (kind b)) as [q|].
    - destruct (objects m1 !! q) as [o|] eqn:Ho.
      + right. apply bind_inv in Hp as (? & m2 & H2 & Hp). exists q, m2.
        split; [reflexivity|]. split; [exact (tracks_Object_dtor o _ _ _ H2)|].
        injection Hp as _ <-. auto.
      + left. injection Hp as _ <-. split; [reflexivity|]. now intros ? [= <-].
    - left. injection Hp as _ <-. split; [reflexivity|]. discriminate. }
  destruct Hcase as [[-> Hnone]|(q & m2 & Hq & L12 & Hh & Hl & Ho)].
  - split; [exact HK1|]. split; [reflexivity|]. exists [EvDestroy a0].
    split; [reflexivity|]. split; [|discriminate].
    intros [[= ->]|[]] q Hq. apply Hnone. now rewrite (HK b Hb).
  - destruct (L12 HK1) as (HK2 & Hs2 & evs & E & D & _).
    split; [intros b1; rewrite Hh; apply HK2|].
    split. { rewrite Ho. transitivity (objects m2); [apply delete_subseteq|exact Hs2]. }
    exists (EvDestroy a0 :: evs). split.
    { rewrite Hl, E. cbn [log m1]. now rewrite <- app_assoc. }
    split; [|discriminate].
    intros [[= ->]|Hin] q' Hq'; rewrite Ho.
    + rewrite (HK b Hb) in Hq. assert (q' = q) as -> by congruence. apply lookup_delete_eq.
    + apply lookup_delete_None. right. exact (D Hin q' Hq').
Qed.
End LifetimeOps.

#[local] Hint Resolve tracks_WeakPtr_clear tracks_WeakPtr_dtor tracks_destroy : tracks.

Section LifetimeHandles.
Variables (a : addr) (k : block_kind).

Lemma tracks_SharedPtr_clear p : tracks a k (SharedPtr_clear p).
Proof. unfold SharedPtr_clear. tracks. Qed.

Lemma tracks_SharedPtr_dtor p : tracks a k (SharedPtr_dtor p).
Proof. unfold SharedPtr_dtor. apply tracks_bind; auto using tracks_SharedPtr_clear with tracks. Qed.

Lemma tracks_SharedPtr_reset p : tracks a k (SharedPtr_reset p).
Proof.
  unfold SharedPtr_reset, SharedPtr_swap.
  apply tracks_bind; auto using tracks_SharedPtr_dtor with tracks.
Qed.

Lemma tracks_SharedPtr_copy_ctor p : tracks a k (SharedPtr_copy_ctor p).
Proof. unfold SharedPtr_copy_ctor. tracks. Qed.

Lemma tracks_SharedPtr_copy_ctor_Y p : tracks a k (SharedPtr_copy_ctor_Y p).
Proof. unfold SharedPtr_copy_ctor_Y. tracks. Qed.

Lemma tracks_SharedPtr_assign p r : tracks a k (SharedPtr_assign p r).
Proof.
  unfold SharedPtr_assign, SharedPtr_swap. destruct r as [|s]; [apply tracks_ret|].
  apply tracks_bind; [apply tracks_SharedPtr_copy_ctor|]. intros c.
  apply tracks_bind; auto using tracks_SharedPtr_dtor with tracks.
Qed.

Lemma tracks_SharedPtr_assign_Y p s : tracks a k (SharedPtr_assign_Y p s).
Proof.
  unfold SharedPtr_assign_Y, SharedPtr_swap.
  apply tracks_bind; [apply tracks_SharedPtr_copy_ctor_Y|]. intros c.
  apply tracks_bind; auto using tracks_SharedPtr_dtor with tracks.
Qed.

Lemma tracks_SharedPtr_move_assign p r : tracks a k (SharedPtr_move_assign p r).
Proof.
  unfold SharedPtr_move_assign, SharedPtr_move_ctor, SharedPtr_swap.
  destruct r as [|s]; apply tracks_bind; auto using tracks_SharedPtr_dtor with tracks.
Qed.

Lemma tracks_WeakPtr_ctor_shared p : tracks a k (WeakPtr_ctor_shared p).
Proof. unfold WeakPtr_ctor_shared. tracks. Qed.

Lemma tracks_WeakPtr_ctor_shared_Y p : tracks a k (WeakPtr_ctor_shared_Y p).
Proof. unfold WeakPtr_ctor_shared_Y. tracks. Qed.

Lemma tracks_WeakPtr_copy_ctor w : tracks a k (WeakPtr_copy_ctor w).
Proof. unfold WeakPtr_copy_ctor. tracks. Qed.

Lemma tracks_WeakPtr_copy_ctor_Y w : tracks a k (WeakPtr_copy_ctor_Y w).
Proof. unfold WeakPtr_copy_ctor_Y. tracks. Qed.

Lemma tracks_WeakPtr_assign w r : tracks a k (WeakPtr_assign w r).
Proof.
  unfold WeakPtr_assign, WeakPtr_swap. destruct r as [|v]; [apply tracks_ret|].
  apply tracks_bind; [apply tracks_WeakPtr_copy_ctor|]. intros c.
  apply tracks_bind; auto with tracks.
Qed.

Lemma tracks_WeakPtr_assign_Y w v : tracks a k (WeakPtr_assign_Y w v).
Proof.
  unfold WeakPtr_assign_Y, WeakPtr_swap.
  apply tracks_bind; [apply tracks_WeakPtr_copy_ctor_Y|]. intros c.
  apply tracks_bind; auto with tracks.
Qed.

Lemma tracks_WeakPtr_move_assign w r : tracks a k (WeakPtr_move_assign w r).
Proof.
  unfold WeakPtr_move_assign, WeakPtr_move_ctor, WeakPtr_swap.
  destruct r as [|v]; apply tracks_bind; auto with tracks.
Qed.

Lemma tracks_WeakPtr_use_count w : tracks a k (WeakPtr_use_count w).
Proof. unfold WeakPtr_use_count. tracks. Qed.

Lemma tracks_SharedPtr_ctor_weak w : tracks a k (SharedPtr_ctor_weak w).
Proof. unfold SharedPtr_ctor_weak. tracks. Qed.

Lemma tracks_WeakPtr_lock w : tracks a k (WeakPtr_lock w).
Proof.
  unfold WeakPtr_lock, WeakPtr_expired.
  apply tracks_bind.
  { apply tracks_bind; [apply tracks_WeakPtr_use_count|intro; apply tracks_ret]. }
  intros e. destruct e; [apply tracks_ret|].
  apply tracks_bind; [apply tracks_WeakPtr_copy_ctor|]. intros c.
  apply tracks_bind; [apply tracks_SharedPtr_ctor_weak|]. intros r.
  apply tracks_bind; auto with tracks.
Qed.

Lemma step_lifetime o st st' : step o st = Some st' -> lifetime a k (mem st) (mem st').
Proof.
  intros H. destruct o; unfold step in H;
    repeat match type of H with
    | context [object ?l ?i] => destruct (object l i); [|discriminate H]; simpl in H
    end;
    try (destruct (Nat.eqb _ _); [discriminate H|]);
    try (injection H as <-; apply lifetime_refl);
    apply finish_Some in H as (x & m' & E & ->); cbn [mem];
    try (destruct x; cbn [mem]);
    revert E;
    first [ apply tracks_SharedPtr_copy_ctor | apply tracks_SharedPtr_copy_ctor_Y
          | apply tracks_SharedPtr_assign | apply tracks_SharedPtr_assign_Y
          | apply tracks_SharedPtr_move_assign | apply tracks_SharedPtr_reset
          | apply tracks_SharedPtr_dtor | apply tracks_WeakPtr_ctor_shared
          | apply tracks_WeakPtr_ctor_shared_Y | apply tracks_WeakPtr_copy_ctor
          | apply tracks_WeakPtr_copy_ctor_Y | apply tracks_WeakPtr_assign
          | apply tracks_WeakPtr_assign_Y | apply tracks_WeakPtr_move_assign
          | apply tracks_WeakPtr_dtor | apply tracks_WeakPtr_lock ].
Qed.

Lemma run_lifetime ops : forall st st',
  run ops st = Some st' -> lifetime a k (mem st) (mem st').
Proof.
  induction ops as [|o ops IH]; intros st st' H.
  - injection H as <-. apply lifetime_refl.
  - cbn [run] in H. destruct (step o st) as [st1|] eqn:E; [|discriminate H].
    exact (lifetime_trans a k _ _ _ (step_lifetime o st st1 E) (IH st1 st' H)).
Qed.
End LifetimeHandles.

(** ** Reachable states *)

Lemma run_handles a k ops : forall st st',
  Inv a k st -> handles a st + Z.of_nat (length ops) <= SIZE_MAX ->
  run ops st = Some st' ->
  Inv a k st' /\ handles a st' <= handles a st + Z.of_nat (length ops).
Proof.
  induction ops as [|o ops IH]; intros st st' HI Hb H.
  - injection H as <-. split; [exact HI|cbn; lia].
  - cbn [run] in H. destruct (step o st) as [st1|] eqn:E; [|discriminate H].
    rewrite length_cons, Nat2Z.inj_succ in *.
    assert (H0 : handles a st < SIZE_MAX) by lia.
    destruct (step_Inv a k o st st1 HI H0 E) as [HI1 Hb1].
    assert (H1 : handles a st1 + Z.of_nat (length ops) <= SIZE_MAX) by lia.
    destruct (IH st1 st' HI1 H1 H) as [HI' Hb']. split; [exact HI'|lia].
Qed.

Lemma initial_Inv a k st0 : initial a k st0 -> Inv a k st0 /\ handles a st0 = 1.
Proof.
  destruct st0 as [S W m0]. intros (sp & HS & HW & Hcb & Hh & Hl & Hin).
  cbn [strongs weaks mem] in *. subst S W. now apply Inv_initial.
Qed.

Lemma reachable_bounded a k st0 st :
  reachable a k st0 st -> Inv a k st /\ handles a st < SIZE_MAX.
Proof.
  intros (H0 & ops & Hb & Hrun). destruct (initial_Inv a k st0 H0) as [HI H1].
  assert (Hb0 : handles a st0 + Z.of_nat (length ops) <= SIZE_MAX) by lia.
  destruct (run_handles a k ops st0 st HI Hb0 Hrun) as [HI' Hb']. split; [exact HI'|lia].
Qed.

Lemma Inv_strong_handle a k st i p :
  Inv a k st -> object (strongs st) i = Some p ->
  sp_cb p = None \/
  (sp_cb p = Some a /\ 1 <= strong_handles a st
   /\ heap (mem st) !! a
      = Some (Block (mkBlock (strong_handles a st) (weak_handles a st) k))).
Proof.
  intros [HS HW HM] Hp.
  destruct (all_local_object _ _ _ _ _ HS Hp) as (_ & Hl & Hle).
  destruct (local_cases a _ Hl) as [[E _]|[E Ew]]; [now left|right].
  rewrite Ew in Hle. split; [exact E|]. split; [exact Hle|].
  pose proof (count_refs_nonneg wp_cb a (weaks st)).
  apply (Mem_ok_live a k _ _ _ HM); unfold strong_handles, weak_handles in *; lia.
Qed.

Lemma Inv_weak_handle a k st i w :
  Inv a k st -> object (weaks st) i = Some w ->
  wp_cb w = None \/
  (wp_cb w = Some a /\ 1 <= weak_handles a st
   /\ heap (mem st) !! a
      = Some (Block (mkBlock (strong_handles a st) (weak_handles a st) k))).
Proof.
  intros [HS HW HM] Hp.
  destruct (all_local_object _ _ _ _ _ HW Hp) as (_ & Hl & Hle).
  destruct (local_cases a _ Hl) as [[E _]|[E Ew]]; [now left|right].
  rewrite Ew in Hle. split; [exact E|]. split; [exact Hle|].
  pose proof (count_refs_nonneg sp_cb a (strongs st)).
  apply (Mem_ok_live a k _ _ _ HM); unfold strong_handles, weak_handles in *; lia.
Qed.

Lemma Inv_kind_ok a k st : Inv a k st -> kind_ok a k (mem st).
Proof.
  intros [_ _ (Hh & _)] b Hb. rewrite Hh in Hb.
  destruct (_ && _); [discriminate Hb|]. now injection Hb as <-.
Qed.

Lemma WeakPtr_expired_live w m a b :
  wp_cb w = Some a -> heap m !! a = Some (Block b) ->
  WeakPtr_use_count w m = Done (shared b) m /\
  WeakPtr_expired w m = Done (shared b =? 0) m.
Proof.
  intros E Hb. unfold WeakPtr_expired, WeakPtr_use_count, bind. rewrite E.
  now rewrite (read_shared_live _ _ _ Hb).
Qed.

Lemma WeakPtr_expired_empty w m :
  wp_cb w = None ->
  WeakPtr_use_count w m = Done 0 m /\ WeakPtr_expired w m = Done true m
  /\ WeakPtr_lock w m = Done SharedPtr_ctor m.
Proof.
  intros E. unfold WeakPtr_lock, WeakPtr_expired, WeakPtr_use_count, bind. now rewrite E.
Qed.

(** X2.  [use_count()] counts the owners.  In every state that a program
    whose payload holds no handle reaches with defined behaviour, a live
    [SharedPtr] is either empty, and reports 0, or references the block,
    which is then still allocated, and reports the number of live
    [SharedPtr]s on it, which is at least 1.  A live [WeakPtr] is either
    empty, and reports 0 and [expired()], or references the block, which is
    then still allocated, and reports the number of live [SharedPtr]s; it
    is expired exactly when that number is 0. *)
Theorem use_count_counts_owners (a : addr) (k : block_kind) (st0 st : Program) :
  reachable a k st0 st ->
  (forall i p, object (strongs st) i = Some p ->
     match sp_cb p with
     | None => SharedPtr_use_count p (mem st) = Done 0 (mem st)
     | Some c =>
         c = a /\ 1 <= strong_handles a st /\
         (exists b, heap (mem st) !! c = Some (Block b)) /\
         SharedPtr_use_count p (mem st) = Done (strong_handles a st) (mem st)
     end) /\
  (forall i w, object (weaks st) i = Some w ->
     match wp_cb w with
     | None =>
         WeakPtr_use_count w (mem st) = Done 0 (mem st) /\
         WeakPtr_expired w (mem st) = Done true (mem st)
     | Some c =>
         c = a /\ 1 <= weak_handles a st /\
         (exists b, heap (mem st) !! c = Some (Block b)) /\
         WeakPtr_use_count w (mem st) = Done (strong_handles a st) (mem st) /\
         WeakPtr_expired w (mem st) = Done (strong_handles a st =? 0) (mem st)
     end).
Proof.
  intros Hr. destruct (reachable_bounded a k st0 st Hr) as [HI _]. split.
  - intros i p Hp. destruct (Inv_strong_handle a k st i p HI Hp) as [E|(E & H1 & Hh)].
    + rewrite E. unfold SharedPtr_use_count. now rewrite E.
    + rewrite E. split; [reflexivity|]. split; [exact H1|]. split; [eauto|].
      unfold SharedPtr_use_count. rewrite E. now rewrite (read_shared_live _ _ _ Hh).
  - intros i w Hp. destruct (Inv_weak_handle a k st i w HI Hp) as [E|(E & H1 & Hh)].
    + rewrite E. destruct (WeakPtr_expired_empty w (mem st) E) as (? & ? & _). now split.
    + rewrite E. split; [reflexivity|]. split; [exact H1|]. split; [eauto|].
      exact (WeakPtr_expired_live w (mem st) a _ E Hh).
Qed.

Lemma use_count_counts_owners_witness :
  exists st, run [SCopy 0; WFromS 1; SDestroy 0] demo_program = Some st /\
    SharedPtr_use_count demo_handle (mem st) = Done 1 (mem st) /\
    WeakPtr_use_count demo_weak (mem st) = Done 1 (mem st).
Proof.
  eexists. split; [vm_compute; reflexivity|].
  assert (Hr : reachable 0%N MakeSharedControlBlock demo_program
                 (mkProgram [None; Some demo_handle] [Some demo_weak]
                    (mkMemory {[ 0%N := Block (mkBlock 1 1 MakeSharedControlBlock) ]}
                       {[ 1%N := mkObject None [] ]} []))).
  { split.
    - exists demo_handle. repeat split.
    - exists [SCopy 0; WFromS 1; SDestroy 0]. split; [reflexivity|vm_compute; reflexivity]. }
  destruct (use_count_counts_owners _ _ _ _ Hr) as [HS HW]. split.
  - exact (proj2 (proj2 (proj2 (HS 1%nat demo_handle eq_refl)))).
  - exact (proj1 (proj2 (proj2 (proj2 (HW 0%nat demo_weak eq_refl))))).
Defined.





(** ** Defined behaviour *)

Section Definedness.
Variables (a : addr) (k : block_kind) (s w : Z) (m : Memory).
Hypothesis Hm : Mem_ok a k s w m.
Hypothesis Hs : 0 <= s.
Hypothesis Hw : 0 <= w.

Lemma SharedPtr_copy_ctor_Y_defined (p : SharedPtr) :
  sp_cb p = Some a -> 1 <= s -> exists q m', SharedPtr_copy_ctor_Y p m = Done q m'.
Proof using Hm Hs Hw.
  intros E H1. pose proof (Mem_ok_live a k _ _ _ Hm Hs Hw ltac:(lia)) as Hl.
  unfold SharedPtr_copy_ctor_Y, bind. rewrite E, (incr_shared_live _ _ _ Hl). eauto.
Qed.

Lemma WeakPtr_ctor_shared_defined (p : SharedPtr) :
  sp_cb p = Some a -> 1 <= s -> exists v m', WeakPtr_ctor_shared p m = Done v m'.
Proof using Hm Hs Hw.
  intros E H1. pose proof (Mem_ok_live a k _ _ _ Hm Hs Hw ltac:(lia)) as Hl.
  unfold WeakPtr_ctor_shared, bind. rewrite E, (incr_weak_live _ _ _ Hl). eauto.
Qed.

Lemma WeakPtr_copy_ctor_defined (u : WeakPtr) :
  wp_cb u = Some a -> 1 <= w -> exists v m', WeakPtr_copy_ctor u m = Done v m'.
Proof using Hm Hs Hw.
  intros E H1. pose proof (Mem_ok_live a k _ _ _ Hm Hs Hw ltac:(lia)) as Hl.
  unfold WeakPtr_copy_ctor, bind. rewrite E, (incr_weak_live _ _ _ Hl). eauto.
Qed.

Lemma SharedPtr_assign_Y_defined (p q : SharedPtr) :
  local a (sp_cb p) -> wt a (sp_cb p) <= s -> sp_cb q = Some a -> 1 <= s < SIZE_MAX ->
  exists r m', SharedPtr_assign_Y p q m = Done r m'.
Proof using Hm Hs Hw.
  intros Hlp Hp Eq H1.
  destruct (SharedPtr_copy_ctor_Y_defined q Eq ltac:(lia)) as (c & m1 & E1).
  assert (Hlq : local a (sp_cb q)) by (now right).
  assert (Hq : wt a (sp_cb q) <= s) by (rewrite Eq, wt_Some; lia).
  destruct (SharedPtr_copy_ctor_Y_spec a k s w m Hm Hs Hw q c m1 E1 Hlq Hq ltac:(lia))
    as [_ Hm1].
  pose proof (wt_range a (sp_cb q)).
  destruct (SharedPtr_dtor_spec a k _ w m1 (mkSharedPtr (sp_ptr p) (sp_cb p)) Hm1)
    as (m2 & E2 & _); try (cbn [sp_cb]; lia); [exact Hlp|].
  unfold SharedPtr_assign_Y. rewrite (destruct_done _ _ _ _ _ E1). unfold SharedPtr_swap.
  rewrite (destruct_done _ _ _ _ _ E2). eauto.
Qed.

Lemma WeakPtr_assign_defined (u v : WeakPtr) :
  local a (wp_cb u) -> wt a (wp_cb u) <= w -> wp_cb v = Some a -> 1 <= w < SIZE_MAX ->
  exists r m', WeakPtr_assign u (Other v) m = Done r m'.
Proof using Hm Hs Hw.
  intros Hlp Hp Eq H1.
  destruct (WeakPtr_copy_ctor_defined v Eq ltac:(lia)) as (c & m1 & E1).
  assert (Hlq : local a (wp_cb v)) by (now right).
  assert (Hq : wt a (wp_cb v) <= w) by (rewrite Eq, wt_Some; lia).
  destruct (WeakPtr_copy_ctor_spec a k s w m Hm Hs Hw v c m1 E1 Hlq Hq ltac:(lia))
    as [_ Hm1].
  pose proof (wt_range a (wp_cb v)).
  destruct (WeakPtr_dtor_spec a k s _ m1 (mkWeakPtr (wp_ptr u) (wp_cb u)) Hm1)
    as (m2 & E2 & _); try (cbn [wp_cb]; lia); [exact Hlp|].
  unfold WeakPtr_assign. rewrite (destruct_done _ _ _ _ _ E1). unfold WeakPtr_swap.
  rewrite (destruct_done _ _ _ _ _ E2). eauto.
Qed.
End Definedness.

Lemma alive_object {A} (l : list (option A)) i :
  alive l i = true -> exists h, object l i = Some h.
Proof. unfold alive. destruct (object l i); [eauto|discriminate]. Qed.

Lemma full_source {A} (cb : A -> pointer) (l : list (option A)) i h a :
  object l i = Some h -> empty_source cb l i = false -> local a (cb h) -> cb h = Some a.
Proof.
  unfold empty_source. intros -> H [E|E]; [|exact E]. now rewrite E in H.
Qed.

Lemma finish_Done {A} (r : outcome A) (f : A -> Memory -> Program) x m :
  r = Done x m -> finish r f = Some (f x m).
Proof. now intros ->. Qed.

Lemma step_well_defined o st st' : step o st = Some st' -> well_defined o st = true.
Proof.
  intros H. destruct o; unfold step in H; unfold well_defined, alive, empty_source;
    repeat match type of H with
    | context [object ?l ?i] =>
        let E := fresh "E" in destruct (object l i) eqn:E; [|discriminate H]; simpl in H
    end; cbn [andb negb]; try reflexivity.
  - (* SCopyY *)
    destruct (sp_cb s) eqn:Es; [reflexivity|].
    unfold SharedPtr_copy_ctor_Y, incr_shared, bind, deref in H. rewrite Es in H. discriminate H.
  - (* SAssignY *)
    destruct (Nat.eqb i j); [discriminate H|]. cbn [negb andb].
    destruct (sp_cb s0) eqn:Es; [reflexivity|].
    unfold SharedPtr_assign_Y, SharedPtr_copy_ctor_Y, incr_shared, bind, deref in H.
    rewrite Es in H. discriminate H.
  - (* WFromS *)
    destruct (sp_cb s) eqn:Es; [reflexivity|].
    unfold WeakPtr_ctor_shared, incr_weak, bind, deref in H. rewrite Es in H. discriminate H.
  - (* WCopy *)
    destruct (wp_cb w) eqn:Es; [reflexivity|].
    unfold WeakPtr_copy_ctor, incr_weak, bind, deref in H. rewrite Es in H. discriminate H.
  - (* WAssign *)
    unfold refer in H. destruct (Nat.eqb i j); [reflexivity|]. cbn [orb].
    destruct (wp_cb w0) eqn:Es; [reflexivity|].
    unfold WeakPtr_assign, WeakPtr_copy_ctor, incr_weak, bind, deref in H.
    rewrite Es in H. discriminate H.
  - (* WAssignY *)
    destruct (Nat.eqb i j); [discriminate H|]. reflexivity.
Qed.

Ltac live_strong H HS a i p :=
  let Hp := fresh "Hp" in
  apply alive_object in H as [p Hp];
  let Hi := fresh "Hi" in let Hl := fresh "Hl" in let Hle := fresh "Hle" in
  destruct (all_local_object _ _ _ _ _ HS Hp) as (Hi & Hl & Hle);
  pose proof (wt_range a (sp_cb p)); rewrite Hp; cbn [mbind option_bind].

Ltac live_weak H HW a i p :=
  let Hp := fresh "Hp" in
  apply alive_object in H as [p Hp];
  let Hi := fresh "Hi" in let Hl := fresh "Hl" in let Hle := fresh "Hle" in
  destruct (all_local_object _ _ _ _ _ HW Hp) as (Hi & Hl & Hle);
  pose proof (wt_range a (wp_cb p)); rewrite Hp; cbn [mbind option_bind].

Ltac finished E := rewrite (finish_Done _ _ _ _ E); eauto.

Lemma well_defined_step a k o st :
  Inv a k st -> handles a st < SIZE_MAX -> well_defined o st = true ->
  exists st', step o st = Some st'.
Proof.
  intros [HS HW HM] Hb H.
  pose proof (count_refs_nonneg sp_cb a (strongs st)) as Hs0.
  pose proof (count_refs_nonneg wp_cb a (weaks st)) as Hw0.
  unfold handles, strong_handles, weak_handles in Hb, HM.
  destruct o; unfold well_defined in H; unfold step;
    repeat match type of H with
    | _ && _ = true => let H2 := fresh "H" in apply andb_prop in H as [H H2]
    end.
  - (* SCopy *)
    live_strong H HS a i p.
    destruct (SharedPtr_copy_ctor_spec a k _ _ _ HM Hs0 Hw0 p Hl Hle ltac:(lia))
      as (q & m' & E & _). finished E.
  - (* SCopyY *)
    apply negb_true_iff in H0. live_strong H HS a i p.
    pose proof (full_source sp_cb _ _ _ a Hp H0 Hl) as Ep.
    rewrite Ep, wt_Some in Hle.
    destruct (SharedPtr_copy_ctor_Y_defined a k _ _ _ HM Hs0 Hw0 p Ep Hle) as (q & m' & E).
    finished E.
  - (* SMove *)
    live_strong H HS a i p. eauto.
  - (* SAssign *)
    live_strong H HS a i p. live_strong H0 HS a j q. unfold refer.
    destruct (Nat.eqb i j); [cbn; eauto|].
    destruct (SharedPtr_assign_spec a k _ _ _ p q HM Hs0 Hw0 Hl Hle Hl0 Hle0 ltac:(lia))
      as (r & m' & E & _). finished E.
  - (* SAssignY *)
    apply negb_true_iff in H0, H1. live_strong H HS a i p. live_strong H2 HS a j q.
    rewrite H1.
    pose proof (full_source sp_cb _ _ _ a Hp0 H0 Hl0) as Eq.
    rewrite Eq, wt_Some in Hle0.
    destruct (SharedPtr_assign_Y_defined a k _ _ _ HM Hs0 Hw0 p q Hl Hle Eq ltac:(lia))
      as (r & m' & E). finished E.
  - (* SMoveAssign *)
    live_strong H HS a i p. live_strong H0 HS a j q. unfold refer.
    destruct (Nat.eqb i j); [rewrite SharedPtr_move_assign_self; cbn; eauto|].
    destruct (SharedPtr_move_assign_spec a k _ _ _ p q HM Hs0 Hw0 Hl Hle ltac:(lia))
      as (r & m' & E & _). finished E.
  - (* SReset *)
    live_strong H HS a i p.
    destruct (SharedPtr_reset_spec a k _ _ _ p HM Hs0 Hw0 Hl Hle ltac:(lia)) as (m' & E & _).
    finished E.
  - (* SSwap *)
    live_strong H HS a i p. live_strong H0 HS a j q. eauto.
  - (* SDestroy *)
    live_strong H HS a i p.
    destruct (SharedPtr_dtor_spec a k _ _ _ p HM Hs0 Hw0 Hl Hle ltac:(lia)) as (m' & E & _).
    finished E.
  - (* WFromS *)
    apply negb_true_iff in H0. live_strong H HS a i p.
    pose proof (full_source sp_cb _ _ _ a Hp H0 Hl) as Ep.
    rewrite Ep, wt_Some in Hle.
    destruct (WeakPtr_ctor_shared_defined a k _ _ _ HM Hs0 Hw0 p Ep Hle) as (q & m' & E).
    finished E.
  - (* WFromSY *)
    live_strong H HS a i p.
    destruct (WeakPtr_ctor_shared_Y_spec a k _ _ _ HM Hs0 Hw0 p Hl Hle ltac:(lia))
      as (v & m' & E & _). finished E.
  - (* WCopy *)
    apply negb_true_iff in H0. live_weak H HW a i u.
    pose proof (full_source wp_cb _ _ _ a Hp H0 Hl) as Ep.
    rewrite Ep, wt_Some in Hle.
    destruct (WeakPtr_copy_ctor_defined a k _ _ _ HM Hs0 Hw0 u Ep Hle) as (q & m' & E).
    finished E.
  - (* WCopyY *)
    live_weak H HW a i u.
    destruct (WeakPtr_copy_ctor_Y_spec a k _ _ _ HM Hs0 Hw0 u Hl Hle ltac:(lia))
      as (v & m' & E & _). finished E.
  - (* WMove *)
    live_weak H HW a i u. eauto.
  - (* WAssign *)
    live_weak H HW a i u. live_weak H1 HW a j v. unfold refer.
    destruct (Nat.eqb i j); [cbn; eauto|]. cbn [orb] in H0. apply negb_true_iff in H0.
    pose proof (full_source wp_cb _ _ _ a Hp0 H0 Hl0) as Eq.
    rewrite Eq, wt_Some in Hle0.
    destruct (WeakPtr_assign_defined a k _ _ _ HM Hs0 Hw0 u v Hl Hle Eq ltac:(lia))
      as (r & m' & E). finished E.
  - (* WAssignY *)
    apply negb_true_iff in H0. live_weak H HW a i u. live_weak H1 HW a j v. rewrite H0.
    destruct (WeakPtr_assign_Y_spec a k _ _ _ u v HM Hs0 Hw0 Hl Hle Hl0 Hle0 ltac:(lia))
      as (r & m' & E & _). finished E.
  - (* WMoveAssign *)
    live_weak H HW a i u. live_weak H0 HW a j v. unfold refer.
    destruct (Nat.eqb i j); [rewrite WeakPtr_move_assign_self; cbn; eauto|].
    destruct (WeakPtr_move_assign_spec a k _ _ _ u v HM Hs0 Hw0 Hl Hle ltac:(lia))
      as (r & m' & E & _). finished E.
  - (* WDestroy *)
    live_weak H HW a i u.
    destruct (WeakPtr_dtor_spec a k _ _ _ u HM Hs0 Hw0 Hl Hle ltac:(lia)) as (m' & E & _).
    finished E.
  - (* WLock *)
    live_weak H HW a i u.
    destruct (WeakPtr_lock_spec a k _ _ _ u HM Hs0 Hw0 Hl Hle ltac:(lia) ltac:(lia))
      as (q & m' & E & _). finished E.
Qed.

(** X5.  Which operations have defined behaviour.  In a state that a
    program whose payload holds no handle has reached, an operation
    completes exactly when the objects it names are alive and, for the
    operations whose code does not test [cb] (the covariant [SharedPtr]
    copy constructor and copy assignment, [WeakPtr(const SharedPtr<T>&)],
    the same-type [WeakPtr] copy constructor and its copy assignment from
    another object), the source is not empty.  No handle dangles, and
    nothing else is undefined. *)
Theorem undefined_steps_characterised
  (a : addr) (k : block_kind) (st0 st : Program) (o : op) :
  reachable a k st0 st ->
  ((exists st', step o st = Some st') <-> well_defined o st = true).
Proof.
  intros Hr. destruct (reachable_bounded a k st0 st Hr) as [HI Hb]. split.
  - intros [st' H]. exact (step_well_defined o st st' H).
  - exact (well_defined_step a k o st HI Hb).
Qed.

Lemma undefined_steps_characterised_witness :
  (exists st', step (WLock 0)
     (mkProgram [None] [Some demo_weak]
        (mkMemory {[ 0%N := Block (mkBlock 0 1 MakeSharedControlBlock) ]} ∅ [EvDestroy 0%N]))
     = Some st') /\
  ~ (exists st', step (SCopyY 1)
       (mkProgram [None; Some SharedPtr_ctor] [Some demo_weak]
          (mkMemory {[ 0%N := Block (mkBlock 0 1 MakeSharedControlBlock) ]} ∅ [EvDestroy 0%N]))
       = Some st').
Proof.
  assert (H0 : initial 0%N MakeSharedControlBlock demo_program).
  { exists demo_handle. repeat split. }
  split.
  - apply (undefined_steps_characterised 0%N MakeSharedControlBlock demo_program).
    + split; [exact H0|]. exists [WFromS 0; SDestroy 0].
      split; [reflexivity|vm_compute; reflexivity].
    + reflexivity.
  - intros H.
    apply (undefined_steps_characterised 0%N MakeSharedControlBlock demo_program) in H.
    + discriminate H.
    + split; [exact H0|]. exists [WFromS 0; SDestroy 0; WLock 0].
      split; [reflexivity|vm_compute; reflexivity].
Defined.

(** ** Handles that come and go *)

Lemma Memory_eq (m m' : Memory) :
  heap m' = heap m -> objects m' = objects m -> log m' = log m -> m' = m.
Proof. destruct m, m'. cbn. now intros -> -> ->. Qed.

Lemma set_block_restore m a b b1 :
  heap m !! a = Some (Block b) -> set_block a b (set_block a b1 m) = m.
Proof.
  intros Hb. apply Memory_eq; cbn [set_block heap objects log]; try reflexivity.
  rewrite insert_insert_eq. now apply insert_id.
Qed.

(** A strong handle acquired on a block and released again. *)
Lemma SharedPtr_acquire_release m a b (p : SharedPtr) :
  heap m !! a = Some (Block b) -> 1 <= shared b <= SIZE_MAX -> sp_cb p = Some a ->
  SharedPtr_dtor p (set_block a (with_shared (pre_incr (shared b)) b) m) = Done tt m.
Proof.
  intros Hb Hs Hp. unfold SharedPtr_dtor, bind.
  rewrite (SharedPtr_clear_steps p _ a (with_shared (pre_incr (shared b)) b) Hp)
    by apply lookup_insert_eq.
  cbn [shared with_shared weak kind]. rewrite pre_decr_incr by (unfold is_size; lia).
  destruct (shared b =? 0) eqn:E0; [lia|]. unfold ret.
  replace (with_shared (shared b) (with_shared (pre_incr (shared b)) b)) with b
    by now destruct b.
  now rewrite set_block_restore.
Qed.

(** A weak handle acquired on a block and released again. *)
Lemma WeakPtr_acquire_release m a b (u : WeakPtr) :
  heap m !! a = Some (Block b) -> shared b <> 0 -> is_size (weak b) -> wp_cb u = Some a ->
  WeakPtr_dtor u (set_block a (with_weak (pre_incr (weak b)) b) m) = Done tt m.
Proof.
  intros Hb Hs Hw Hu. unfold WeakPtr_dtor, bind.
  destruct (WeakPtr_clear_live (set_block a (with_weak (pre_incr (weak b)) b) m) a
              (with_weak (pre_incr (weak b)) b) (lookup_insert_eq _ _ _) u Hu)
    as (m' & E & Hh & Ho & Hl).
  rewrite E. unfold ret. f_equal. apply Memory_eq.
  - rewrite Hh. unfold release_heap. cbn [shared weak with_weak kind set_block heap].
    destruct (shared b =? 0) eqn:E0; [lia|]. cbn [andb].
    rewrite pre_decr_incr by exact Hw. rewrite insert_insert_eq.
    replace (with_weak (weak b) (with_weak (pre_incr (weak b)) b)) with b
      by now destruct b.
    now apply insert_id.
  - exact Ho.
  - rewrite Hl. unfold weak_release_log. cbn [shared weak with_weak kind set_block log].
    destruct (shared b =? 0) eqn:E0; [lia|]. cbn [andb]. apply app_nil_r.
Qed.

(** X6.  A temporary handle leaves no trace.  On a live block with at
    least one strong handle, constructing a handle and destroying it at
    once completes and gives back the memory exactly as it was, with the
    same counters and no call of [destroy()] or [deallocate()]: a copy of a
    [SharedPtr] by either copy constructor, a [WeakPtr] made from a
    [SharedPtr] by either overload, a copy of a [WeakPtr] by either copy
    constructor, and, when the block has a weak handle, the [SharedPtr]
    that [lock()] returns. *)
Theorem temporary_handles_leave_no_trace
  (m : Memory) (a : addr) (b : BaseControlBlock) (sp : SharedPtr) (wp : WeakPtr) :
  heap m !! a = Some (Block b) ->
  1 <= shared b <= SIZE_MAX ->
  is_size (weak b) ->
  (sp_cb sp = Some a ->
     bind (SharedPtr_copy_ctor sp) SharedPtr_dtor m = Done tt m /\
     bind (SharedPtr_copy_ctor_Y sp) SharedPtr_dtor m = Done tt m /\
     bind (WeakPtr_ctor_shared sp) WeakPtr_dtor m = Done tt m /\
     bind (WeakPtr_ctor_shared_Y sp) WeakPtr_dtor m = Done tt m) /\
  (wp_cb wp = Some a ->
     bind (WeakPtr_copy_ctor wp) WeakPtr_dtor m = Done tt m /\
     bind (WeakPtr_copy_ctor_Y wp) WeakPtr_dtor m = Done tt m /\
     (1 <= weak b -> bind (WeakPtr_lock wp) SharedPtr_dtor m = Done tt m)).
Proof.
  intros Hb Hs Hw.
  assert (Hs0 : shared b <> 0) by lia.
  split.
  - intros Hp.
    unfold SharedPtr_copy_ctor, SharedPtr_copy_ctor_Y, WeakPtr_ctor_shared,
      WeakPtr_ctor_shared_Y, bind, ret.
    rewrite Hp, (incr_shared_live _ _ _ Hb), (incr_weak_live _ _ _ Hb).
    rewrite (SharedPtr_acquire_release m a b _ Hb Hs) by reflexivity.
    rewrite (WeakPtr_acquire_release m a b _ Hb Hs0 Hw) by reflexivity. auto.
  - intros Hu.
    unfold WeakPtr_copy_ctor, WeakPtr_copy_ctor_Y, bind, ret.
    rewrite Hu, (incr_weak_live _ _ _ Hb).
    rewrite (WeakPtr_acquire_release m a b _ Hb Hs0 Hw) by reflexivity.
    split; [reflexivity|]. split; [reflexivity|]. intros Hw1.
    rewrite (WeakPtr_lock_live wp m a b Hu Hb Hs0) by (unfold is_size in Hw; lia).
    now apply SharedPtr_acquire_release.
Qed.

Lemma temporary_handles_leave_no_trace_witness :
  bind (SharedPtr_copy_ctor demo_handle) SharedPtr_dtor demo_observed = Done tt demo_observed /\
  bind (WeakPtr_lock demo_weak) SharedPtr_dtor demo_observed = Done tt demo_observed.
Proof.
  destruct (temporary_handles_leave_no_trace demo_observed 0%N
              (mkBlock 1 1 MakeSharedControlBlock) demo_handle demo_weak eq_refl)
    as [HS HW].
  - unfold SIZE_MAX. cbn. lia.
  - unfold is_size, SIZE_MAX. cbn. lia.
  - split.
    + exact (proj1 (HS eq_refl)).
    + apply (proj2 (proj2 (HW eq_refl))). cbn. lia.
Defined.

(** X7.  Copy assignment between two handles of the same block.  It
    completes, leaves the memory exactly as it was (the increment for the
    temporary and the decrement for the old value cancel, and nothing is
    destroyed), and the assigned-to handle holds the source's payload
    pointer.  This holds for both copy assignments of [SharedPtr] and both
    of [WeakPtr]. *)
Theorem assignment_within_block_changes_nothing
  (m : Memory) (a : addr) (b : BaseControlBlock) (p q : SharedPtr) (u v : WeakPtr) :
  heap m !! a = Some (Block b) ->
  1 <= shared b <= SIZE_MAX ->
  is_size (weak b) ->
  (sp_cb p = Some a -> sp_cb q = Some a ->
     SharedPtr_assign p (Other q) m = Done (mkSharedPtr (sp_ptr q) (Some a)) m /\
     SharedPtr_assign_Y p q m = Done (mkSharedPtr (sp_ptr q) (Some a)) m) /\
  (wp_cb u = Some a -> wp_cb v = Some a ->
     WeakPtr_assign u (Other v) m = Done (mkWeakPtr (wp_ptr v) (Some a)) m /\
     WeakPtr_assign_Y u v m = Done (mkWeakPtr (wp_ptr v) (Some a)) m).
Proof.
  intros Hb Hs Hw.
  assert (Hs0 : shared b <> 0) by lia.
  split.
  - intros Hp Hq.
    unfold SharedPtr_assign, SharedPtr_assign_Y, SharedPtr_copy_ctor, SharedPtr_copy_ctor_Y,
      SharedPtr_swap, bind, ret.
    rewrite Hq, (incr_shared_live _ _ _ Hb). cbn [sp_ptr sp_cb].
    rewrite (SharedPtr_acquire_release m a b _ Hb Hs) by exact Hp. auto.
  - intros Hu Hv.
    unfold WeakPtr_assign, WeakPtr_assign_Y, WeakPtr_copy_ctor, WeakPtr_copy_ctor_Y,
      WeakPtr_swap, bind, ret.
    rewrite Hv, (incr_weak_live _ _ _ Hb). cbn [wp_ptr wp_cb].
    rewrite (WeakPtr_acquire_release m a b _ Hb Hs0 Hw) by exact Hu. auto.
Qed.

Lemma assignment_within_block_changes_nothing_witness :
  SharedPtr_assign (mkSharedPtr (Some 1%N) (Some 0%N)) (Other demo_handle) demo_observed
    = Done demo_handle demo_observed /\
  WeakPtr_assign demo_weak (Other (mkWeakPtr nullptr (Some 0%N))) demo_observed
    = Done (mkWeakPtr nullptr (Some 0%N)) demo_observed.
Proof.
  destruct (assignment_within_block_changes_nothing demo_observed 0%N
              (mkBlock 1 1 MakeSharedControlBlock)
              (mkSharedPtr (Some 1%N) (Some 0%N)) demo_handle
              demo_weak (mkWeakPtr nullptr (Some 0%N)) eq_refl)
    as [HS HW].
  - unfold SIZE_MAX. cbn. lia.
  - unfold is_size, SIZE_MAX. cbn. lia.
  - split.
    + exact (proj1 (HS eq_refl eq_refl)).
    + exact (proj1 (HW eq_refl eq_refl)).
Defined.

(** X8.  [WeakPtr(sp).lock()] recovers the handle.  A [WeakPtr] made from
    a [SharedPtr] on a live block, then locked, gives a [SharedPtr] on the
    same control block that designates the same payload as the original,
    for [get()] and for [operator->()]; both counters are one higher, the
    new handle's [use_count()] is the old strong count plus one, and no
    call is made. *)
Theorem lock_recovers_handle
  (m : Memory) (a : addr) (b : BaseControlBlock) (sp : SharedPtr) :
  heap m !! a = Some (Block b) ->
  sp_cb sp = Some a ->
  1 <= shared b < SIZE_MAX ->
  0 <= weak b < SIZE_MAX ->
  exists w q m1 m2,
    WeakPtr_ctor_shared sp m = Done w m1 /\
    WeakPtr_lock w m1 = Done q m2 /\
    sp_cb q = sp_cb sp /\
    SharedPtr_get q = SharedPtr_get sp /\
    heap m2 = <[a := Block (mkBlock (shared b + 1) (weak b + 1) (kind b))]> (heap m) /\
    objects m2 = objects m /\ log m2 = log m /\
    SharedPtr_use_count q m2 = Done (shared b + 1) m2 /\
    SharedPtr_arrow q m2 = SharedPtr_arrow sp m2.
Proof.
  intros Hb Hp Hs Hw.
  unfold WeakPtr_ctor_shared, bind, ret. rewrite Hp, (incr_weak_live _ _ _ Hb).
  set (b1 := with_weak (pre_incr (weak b)) b).
  set (m1 := set_block a b1 m).
  assert (H1 : heap m1 !! a = Some (Block b1)) by apply lookup_insert_eq.
  assert (Hw1 : weak b1 = weak b + 1) by (cbn; apply pre_incr_small; lia).
  assert (Hg : exists g, SharedPtr_get sp = Some g).
  { unfold SharedPtr_get. rewrite Hp. destruct (sp_ptr sp); eauto. }
  destruct Hg as [g Hg].
  eexists _, _, m1, _. split; [reflexivity|]. split.
  { apply (WeakPtr_lock_live (mkWeakPtr (SharedPtr_get sp) (Some a)) m1 a b1 eq_refl H1);
      [cbn; lia|lia]. }
  cbn [wp_ptr sp_cb]. rewrite Hg. split; [reflexivity|]. split; [reflexivity|].
  subst m1 b1. cbn [set_block heap objects log with_shared shared weak kind with_weak].
  rewrite insert_insert_eq, !pre_incr_small by lia.
  split; [reflexivity|]. split; [reflexivity|]. split; [reflexivity|]. split.
  - unfold SharedPtr_use_count. cbn [sp_cb].
    now rewrite (read_shared_live _ a (with_shared (shared b + 1) (with_weak (weak b + 1) b)))
      by apply lookup_insert_eq.
  - unfold SharedPtr_arrow. cbn [sp_ptr sp_cb]. revert Hg. unfold SharedPtr_get. rewrite Hp.
    destruct (sp_ptr sp); now intros [= ->].
Qed.

Lemma lock_recovers_handle_witness :
  exists w q m1 m2,
    WeakPtr_ctor_shared demo_handle demo_memory = Done w m1 /\
    WeakPtr_lock w m1 = Done q m2 /\
    SharedPtr_get q = Some 1%N.
Proof.
  destruct (lock_recovers_handle demo_memory 0%N demo_block demo_handle eq_refl eq_refl)
    as (w & q & m1 & m2 & H1 & H2 & _ & H4 & _).
  - unfold SIZE_MAX. cbn. lia.
  - unfold SIZE_MAX. cbn. lia.
  - exists w, q, m1, m2. split; [exact H1|]. split; [exact H2|]. exact H4.
Defined.

(** ** Construction and destruction *)

Lemma fresh_unused (m : Memory) : heap m !! fresh (dom (heap m)) = None.
Proof. apply not_elem_of_dom. apply is_fresh. Qed.

Lemma fresh_other (m : Memory) a c : heap m !! a = Some c -> fresh (dom (heap m)) <> a.
Proof. intros H E. rewrite <- E, fresh_unused in H. discriminate H. Qed.

(** The owning constructor on an allocator that succeeds. *)
Lemma SharedPtr_ctor_ptr_memory ptr alloc m :
  allocate_fails alloc = false ->
  SharedPtr_ctor_ptr ptr alloc m
  = Done (mkSharedPtr ptr (Some (fresh (dom (heap m)))))
      (mkMemory (<[fresh (dom (heap m)) := Block (mkBlock 1 0 (ControlBlock ptr))]> (heap m))
         (objects m) (log m)).
Proof.
  intros Ha. unfold SharedPtr_ctor_ptr, allocate, put, bind, ret. rewrite Ha.
  cbn [heap objects log]. now rewrite insert_insert_eq.
Qed.

(** [destroy()] on a block whose payload holds no handle ends the
    payload's lifetime and does nothing else. *)
Lemma destroy_inert_objects m a b :
  heap m !! a = Some (Block b) -> payload_inert a (kind b) m = true ->
  destroy (Some a) m
  = Done tt (mkMemory (heap m)
               (match payload_of a (kind b) with
                | Some q => delete q (objects m)
                | None => objects m
                end)
               (log m ++ [EvDestroy a])).
Proof.
  intros Hb Hin. unfold destroy, bind, deref, emit. rewrite Hb.
  assert (Hk : (match kind b with
                | MakeSharedControlBlock => destroy_payload (Some (get_ptr a))
                | ControlBlock ptr => destroy_payload ptr
                end) = destroy_payload (payload_of a (kind b))).
  { destruct (kind b); reflexivity. }
  rewrite Hk. unfold payload_inert in Hin. unfold destroy_payload. cbn [objects].
  destruct (payload_of a (kind b)) as [q|]; [|reflexivity].
  destruct (objects m !! q) as [o|] eqn:Ho.
  - unfold bind. rewrite (Object_dtor_inert o _ Hin). reflexivity.
  - now rewrite delete_id.
Qed.

(** The release of the only handle on a block whose payload holds no
    handle. *)
Lemma release_of_sole_owner (h : gmap addr cell) a k objs l (p : SharedPtr) :
  h !! a = None -> sp_cb p = Some a ->
  payload_inert a k (mkMemory (<[a := Block (mkBlock 1 0 k)]> h) objs l) = true ->
  SharedPtr_dtor p (mkMemory (<[a := Block (mkBlock 1 0 k)]> h) objs l)
  = Done tt (mkMemory h
               (match payload_of a k with
                | Some q => delete q objs
                | None => objs
                end)
               (l ++ [EvDestroy a; EvDeallocate a])).
Proof.
  intros Hf Hp Hin. unfold SharedPtr_dtor. unfold bind at 1.
  rewrite (SharedPtr_clear_steps p _ a (mkBlock 1 0 k) Hp) by apply lookup_insert_eq.
  assert (Hd : pre_decr 1 = 0) by (apply pre_decr_pos; unfold SIZE_MAX; lia).
  cbn [shared with_shared weak kind]. rewrite Hd. cbn [Z.eqb].
  unfold bind. rewrite (destroy_inert_objects _ a (mkBlock 0 0 k))
    by (try apply lookup_insert_eq; exact Hin).
  rewrite (read_weak_live _ a (mkBlock 0 0 k)) by apply lookup_insert_eq.
  cbn [weak Z.eqb]. rewrite (deallocate_live _ a (mkBlock 0 0 k)) by apply lookup_insert_eq.
  unfold ret, set_block. cbn [heap objects log kind].
  rewrite insert_insert_eq, delete_insert_eq, delete_id by exact Hf.
  now rewrite <- app_assoc.
Qed.

(** X9.  The owning constructor and its destructor.  With an allocator
    that succeeds, [SharedPtr(ptr, del, alloc)] builds a [ControlBlock] with
    counts 1 and 0 at an address that was not allocated, touches no payload
    and makes no call; the handle's [use_count()] is 1.  Destroying that
    handle, for a payload that holds no handle, calls [destroy()] and then
    [deallocate()], gives back the heap exactly as it was before the
    construction, and ends the lifetime of the payload at [ptr] and of
    nothing else. *)
Theorem owner_round_trip (ptr : pointer) (alloc : Alloc) (m : Memory) :
  allocate_fails alloc = false ->
  payload_inert (fresh (dom (heap m))) (ControlBlock ptr) m = true ->
  let a := fresh (dom (heap m)) in
  let sp := mkSharedPtr ptr (Some a) in
  exists m1 m2,
    SharedPtr_ctor_ptr ptr alloc m = Done sp m1 /\
    heap m !! a = None /\
    heap m1 = <[a := Block (mkBlock 1 0 (ControlBlock ptr))]> (heap m) /\
    objects m1 = objects m /\ log m1 = log m /\
    SharedPtr_use_count sp m1 = Done 1 m1 /\
    SharedPtr_dtor sp m1 = Done tt m2 /\
    heap m2 = heap m /\
    log m2 = log m ++ [EvDestroy a; EvDeallocate a] /\
    objects m2 = match ptr with
                 | Some q => delete q (objects m)
                 | None => objects m
                 end.
Proof.
  intros Ha Hin a sp.
  pose proof (release_of_sole_owner (heap m) a (ControlBlock ptr) (objects m) (log m) sp
                (fresh_unused m) eq_refl Hin) as E2.
  eexists _, _. split; [exact (SharedPtr_ctor_ptr_memory ptr alloc m Ha)|].
  split; [apply fresh_unused|]. split; [reflexivity|]. split; [reflexivity|].
  split; [reflexivity|]. split.
  { unfold SharedPtr_use_count. cbn [sp_cb sp].
    now rewrite (read_shared_live _ a (mkBlock 1 0 (ControlBlock ptr)))
      by apply lookup_insert_eq. }
  split; [exact E2|]. repeat split.
Qed.

Lemma owner_round_trip_witness :
  exists m1 m2,
    SharedPtr_ctor_ptr (Some 1%N) default_allocator
      (mkMemory ∅ {[ 1%N := mkObject None [] ]} [])
    = Done (mkSharedPtr (Some 1%N) (Some 0%N)) m1 /\
    SharedPtr_dtor (mkSharedPtr (Some 1%N) (Some 0%N)) m1 = Done tt m2 /\
    heap m2 = ∅ /\ log m2 = [EvDestroy 0%N; EvDeallocate 0%N] /\ objects m2 !! 1%N = None.
Proof.
  destruct (owner_round_trip (Some 1%N) default_allocator
              (mkMemory ∅ {[ 1%N := mkObject None [] ]} []))
    as (m1 & m2 & H1 & _ & _ & _ & _ & _ & H2 & H3 & H4 & H5);
    [reflexivity|reflexivity|].
  exists m1, m2. split; [exact H1|]. split; [exact H2|]. split; [exact H3|].
  split; [exact H4|]. rewrite H5. reflexivity.
Defined.

(** X11.  When the allocator throws, nothing has happened.  The owning
    constructor, [reset(ptr, del, alloc)] and [allocateShared] pass
    [bad_alloc] on with the memory exactly as it was: the deleter has not
    been run on [ptr], and a [reset] has not released what the handle
    held. *)
Theorem allocation_failure_changes_nothing
  (alloc : Alloc) (this : SharedPtr) (ptr : pointer) (T : Payload) (m : Memory) :
  allocate_fails alloc = true ->
  SharedPtr_ctor_ptr ptr alloc m = Throw bad_alloc m /\
  SharedPtr_reset_ptr this ptr alloc m = Throw bad_alloc m /\
  allocateShared alloc T m = Throw bad_alloc m.
Proof.
  intros Ha.
  unfold SharedPtr_reset_ptr, SharedPtr_ctor_ptr, allocateShared, allocate, bind.
  rewrite Ha. auto.
Qed.

Lemma allocation_failure_changes_nothing_witness :
  SharedPtr_reset_ptr demo_handle (Some 1%N) (mkAlloc true) demo_memory
  = Throw bad_alloc demo_memory.
Proof.
  exact (proj1 (proj2 (allocation_failure_changes_nothing (mkAlloc true) demo_handle (Some 1%N)
                         Node demo_memory eq_refl))).
Defined.

(** X12.  [reset(ptr, del, alloc)] with an allocator that succeeds.  The
    new control block is allocated before the old one is released, hence
    at a different address; the handle then holds [ptr] and the new block
    with counts 1 and 0.  An empty handle changes nothing else.  A handle
    on a live block whose payload holds no handle releases that block as
    its destructor would: [shared] is decremented, and [destroy()] and
    [deallocate()] are called or not according to the counts. *)
Theorem reset_ptr_replaces_block
  (this : SharedPtr) (ptr : pointer) (alloc : Alloc) (m : Memory) :
  allocate_fails alloc = false ->
  let a := fresh (dom (heap m)) in
  let new_block := Block (mkBlock 1 0 (ControlBlock ptr)) in
  (sp_cb this = None ->
     SharedPtr_reset_ptr this ptr alloc m
     = Done (mkSharedPtr ptr (Some a))
         (mkMemory (<[a := new_block]> (heap m)) (objects m) (log m))) /\
  (forall a0 b,
     sp_cb this = Some a0 -> heap m !! a0 = Some (Block b) ->
     payload_inert a0 (kind b) m = true ->
     exists m',
       SharedPtr_reset_ptr this ptr alloc m = Done (mkSharedPtr ptr (Some a)) m' /\
       a <> a0 /\
       heap m' = release_heap a0 (with_shared (pre_decr (shared b)) b)
                   (<[a := new_block]> (heap m)) /\
       heap m' !! a = Some new_block /\
       log m' = log m ++ strong_release_log a0 (pre_decr (shared b)) (weak b)).
Proof.
  intros Ha a new_block.
  unfold SharedPtr_reset_ptr, bind. rewrite (SharedPtr_ctor_ptr_memory ptr alloc m Ha).
  unfold SharedPtr_swap. cbn [sp_ptr sp_cb]. fold a. fold new_block. split.
  - intros E. unfold SharedPtr_dtor, SharedPtr_clear, bind. cbn [sp_cb]. now rewrite E.
  - intros a0 b Hcb Hb Hin.
    pose proof (fresh_other m a0 _ Hb) as Hne. fold a in Hne.
    set (m1 := mkMemory (<[a := new_block]> (heap m)) (objects m) (log m)).
    assert (H1 : heap m1 !! a0 = Some (Block b)).
    { cbn [m1 heap]. now rewrite lookup_insert_ne. }
    destruct (SharedPtr_clear_live m1 a0 b (mkSharedPtr (sp_ptr this) (sp_cb this)) H1 Hin Hcb)
      as (m' & E & Hh & Hl & _).
    exists m'. split; [unfold SharedPtr_dtor, bind, ret; now rewrite E|].
    split; [exact Hne|]. split; [exact Hh|]. split; [|exact Hl].
    rewrite Hh. unfold release_heap. cbn [m1 heap].
    destruct (_ && _);
      [rewrite lookup_delete_ne by congruence|rewrite lookup_insert_ne by congruence];
      apply lookup_insert_eq.
Qed.

Lemma reset_ptr_replaces_block_witness :
  exists m',
    SharedPtr_reset_ptr demo_handle (Some 7%N) default_allocator demo_memory
    = Done (mkSharedPtr (Some 7%N) (Some 1%N)) m' /\
    heap m' !! 1%N = Some (Block (mkBlock 1 0 (ControlBlock (Some 7%N)))) /\
    log m' = [EvDestroy 0%N; EvDeallocate 0%N].
Proof.
  destruct (proj2 (reset_ptr_replaces_block demo_handle (Some 7%N) default_allocator
                     demo_memory eq_refl) 0%N demo_block eq_refl eq_refl eq_refl)
    as (m' & H1 & _ & _ & H2 & H3).
  exists m'. split; [exact H1|]. split; [exact H2|exact H3].
Defined.

(** X13.  [operator*], [operator->] and [get()] designate the same
    payload: the stored pointer when it is not null, otherwise the object
    directly behind the control block.  [get()] returns null exactly for a
    handle whose two pointers are null, and exactly then the other two
    accessors dereference a null pointer. *)
Theorem SharedPtr_accessors_agree (this : SharedPtr) (m : Memory) :
  SharedPtr_star this m = SharedPtr_arrow this m /\
  (forall q, SharedPtr_get this = Some q <-> SharedPtr_arrow this m = Done q m) /\
  (SharedPtr_get this = nullptr <-> sp_ptr this = None /\ sp_cb this = None) /\
  (SharedPtr_get this = nullptr <-> SharedPtr_arrow this m = Undefined NullDereference).
Proof.
  unfold SharedPtr_star, SharedPtr_arrow, SharedPtr_get, nullptr.
  destruct (sp_ptr this) as [p|]; [|destruct (sp_cb this) as [c|]];
    (split; [reflexivity|]);
    (split; [intros q; split; intros H; try discriminate H; injection H as ->; reflexivity|]);
    (split; [split; [intros H; try discriminate H; auto
                    |intros [H1 H2]; try discriminate; reflexivity]|]);
    split; intros H; try discriminate H; reflexivity.
Qed.

Lemma SharedPtr_accessors_agree_witness :
  SharedPtr_arrow demo_handle demo_memory = Done 1%N demo_memory /\
  SharedPtr_arrow SharedPtr_ctor demo_memory = Undefined NullDereference.
Proof.
  split.
  - exact (proj1 (proj1 (proj2 (SharedPtr_accessors_agree demo_handle demo_memory)) 1%N)
             eq_refl).
  - exact (proj1 (proj2 (proj2 (proj2 (SharedPtr_accessors_agree SharedPtr_ctor demo_memory))))
             eq_refl).
Defined.

(** X14.  A [SharedPtr] that owns a null pointer.  [SharedPtr(nullptr,
    del, alloc)] holds a null payload pointer and a [ControlBlock]; since
    [get()] and [operator->()] take a null stored pointer to mean that the
    payload lies behind the block, they report the address behind the
    [ControlBlock], not null.  The destructor still calls [destroy()], which
    runs the deleter on the null pointer and ends no lifetime, and then
    [deallocate()]. *)
Theorem SharedPtr_get_of_null_owner (alloc : Alloc) (m : Memory) :
  allocate_fails alloc = false ->
  exists sp a m1 m2,
    SharedPtr_ctor_ptr nullptr alloc m = Done sp m1 /\
    sp_ptr sp = nullptr /\ sp_cb sp = Some a /\
    heap m1 !! a = Some (Block (mkBlock 1 0 (ControlBlock nullptr))) /\
    SharedPtr_get sp = Some (get_ptr a) /\
    SharedPtr_arrow sp m1 = Done (get_ptr a) m1 /\
    SharedPtr_dtor sp m1 = Done tt m2 /\
    objects m2 = objects m /\ heap m2 = heap m /\
    log m2 = log m ++ [EvDestroy a; EvDeallocate a].
Proof.
  intros Ha. set (a := fresh (dom (heap m))).
  pose proof (release_of_sole_owner (heap m) a (ControlBlock nullptr) (objects m) (log m)
                (mkSharedPtr nullptr (Some a)) (fresh_unused m) eq_refl eq_refl) as E2.
  eexists _, a, _, _. split; [exact (SharedPtr_ctor_ptr_memory nullptr alloc m Ha)|].
  split; [reflexivity|]. split; [reflexivity|]. split; [apply lookup_insert_eq|].
  split; [reflexivity|]. split; [reflexivity|]. split; [exact E2|]. repeat split.
Qed.

Lemma SharedPtr_get_of_null_owner_witness :
  exists sp a m1 m2,
    SharedPtr_ctor_ptr nullptr default_allocator empty_memory = Done sp m1 /\
    SharedPtr_get sp = Some (get_ptr a) /\
    SharedPtr_dtor sp m1 = Done tt m2.
Proof.
  destruct (SharedPtr_get_of_null_owner default_allocator empty_memory eq_refl)
    as (sp & a & m1 & m2 & H1 & _ & _ & _ & H2 & _ & H3 & _).
  exists sp, a, m1, m2. split; [exact H1|]. split; [exact H2|exact H3].
Defined.

(** ** Operations on the objects alone *)

Lemma SharedPtr_eta (p : SharedPtr) : mkSharedPtr (sp_ptr p) (sp_cb p) = p.
Proof. now destruct p. Qed.

Lemma WeakPtr_eta (w : WeakPtr) : mkWeakPtr (wp_ptr w) (wp_cb w) = w.
Proof. now destruct w. Qed.

Lemma Program_eta (st : Program) : mkProgram (strongs st) (weaks st) (mem st) = st.
Proof. now destruct st. Qed.

Lemma insert_object {A} (l : list (option A)) i x :
  object l i = Some x -> <[i := Some x]> l = l.
Proof. intros H. apply list_insert_id. now apply object_Some. Qed.

Lemma swap_back {A} (l : list (option A)) i j (x y : A) :
  object l i = Some x -> object l j = Some y ->
  <[i := Some x]> (<[j := Some y]> (<[i := Some y]> (<[j := Some x]> l))) = l.
Proof.
  intros Hx Hy. destruct (decide (i = j)) as [->|Hne].
  - rewrite !list_insert_insert_eq. now apply insert_object.
  - rewrite (list_insert_insert_ne _ i j (Some y) (Some x)) by exact Hne.
    rewrite list_insert_insert_eq.
    rewrite (list_insert_insert_ne _ j i (Some y) (Some y)) by congruence.
    rewrite list_insert_insert_eq.
    rewrite (insert_object l j y Hy). now apply insert_object.
Qed.

Lemma object_insert_eq {A} (l : list (option A)) i x y :
  object l i = Some x -> object (<[i := Some y]> l) i = Some y.
Proof.
  intros H. apply object_Some in H. unfold object.
  now rewrite (insert_same_lookup l i (Some x) (Some y) H).
Qed.

Lemma object_insert_ne {A} (l : list (option A)) i j y :
  i <> j -> object (<[i := y]> l) j = object l j.
Proof. intros H. unfold object. now rewrite list_lookup_insert_ne. Qed.

(** X15.  Self-assignment and self-swap change nothing.  For a live
    object, [p = p], [p = std::move(p)] and [p.swap(p)] on a [SharedPtr],
    and [w = w] and [w = std::move(w)] on a [WeakPtr], leave the whole
    program state as it is; self-move-assignment, which has no identity
    test, gets there by moving the pointers into a temporary and swapping
    them back. *)
Theorem self_assignment_is_identity (st : Program) (i : nat) :
  (alive (strongs st) i = true ->
     step (SAssign i i) st = Some st /\
     step (SMoveAssign i i) st = Some st /\
     step (SSwap i i) st = Some st) /\
  (alive (weaks st) i = true ->
     step (WAssign i i) st = Some st /\
     step (WMoveAssign i i) st = Some st).
Proof.
  split; intros H; apply alive_object in H as [h Hh]; unfold step, refer;
    rewrite Hh, Nat.eqb_refl; cbn [mbind option_bind].
  - rewrite SharedPtr_move_assign_self. unfold SharedPtr_swap, SharedPtr_assign, ret.
    cbn [finish store_ref].
    rewrite SharedPtr_eta, list_insert_insert_eq, !(insert_object _ _ _ Hh), Program_eta. auto.
  - rewrite WeakPtr_move_assign_self. unfold WeakPtr_assign, ret. cbn [finish store_ref].
    rewrite WeakPtr_eta, !(insert_object _ _ _ Hh), Program_eta. auto.
Qed.

Lemma self_assignment_is_identity_witness :
  step (SMoveAssign 0 0) demo_program = Some demo_program.
Proof.
  exact (proj1 (proj2 (proj1 (self_assignment_is_identity demo_program 0) eq_refl))).
Defined.

(** X16.  Move construction and [swap] touch no control block.  They
    leave the memory as it is, and for every block the numbers of live
    strong and weak handles that reference it are unchanged. *)
Theorem transfers_touch_no_counter (o : op) (st st' : Program) :
  transfers o = true ->
  step o st = Some st' ->
  mem st' = mem st /\
  forall a, strong_handles a st' = strong_handles a st /\
            weak_handles a st' = weak_handles a st.
Proof.
  intros Ht H. destruct o; try discriminate Ht; unfold step in H.
  - (* SMove *)
    destruct (object (strongs st) i) as [p|] eqn:Hp; [|discriminate H]. simpl in H.
    injection H as <-. split; [reflexivity|]. intros a.
    pose proof (object_Some _ _ _ Hp) as Hi.
    counts. lia.
  - (* SSwap *)
    destruct (object (strongs st) i) as [p|] eqn:Hp; [|discriminate H]. simpl in H.
    destruct (object (strongs st) j) as [q|] eqn:Hq; [|discriminate H]. simpl in H.
    injection H as <-. split; [reflexivity|]. intros a.
    pose proof (object_Some _ _ _ Hp) as Hi. pose proof (object_Some _ _ _ Hq) as Hj.
    destruct (Nat.eqb i j) eqn:Eij.
    + apply Nat.eqb_eq in Eij. subst j. assert (q = p) as -> by congruence.
      pose proof (insert_same_lookup _ _ _ (Some (mkSharedPtr (sp_ptr p) (sp_cb p))) Hi).
      counts. lia.
    + pose proof (insert_other_lookup _ _ _ _ (Some (mkSharedPtr (sp_ptr p) (sp_cb p))) Eij Hi).
      counts. lia.
  - (* WMove *)
    destruct (object (weaks st) i) as [w|] eqn:Hw; [|discriminate H]. simpl in H.
    injection H as <-. split; [reflexivity|]. intros a.
    pose proof (object_Some _ _ _ Hw) as Hi.
    counts. lia.
Qed.

Lemma transfers_touch_no_counter_witness :
  exists st', step (SMove 0) demo_program = Some st' /\
    mem st' = demo_memory /\ strong_handles 0%N st' = 1.
Proof.
  eexists. split; [reflexivity|].
  destruct (transfers_touch_no_counter (SMove 0) demo_program _ eq_refl eq_refl) as [Hm Hc].
  split; [exact Hm|]. rewrite (proj1 (Hc 0%N)). reflexivity.
Defined.

(** X17.  [swap] exchanges and is its own inverse: after [p.swap(q)], [p]
    holds what [q] held and [q] what [p] held, and a second [p.swap(q)]
    restores the program state. *)
Theorem swap_twice_is_identity (st st' : Program) (i j : nat) :
  step (SSwap i j) st = Some st' ->
  step (SSwap i j) st' = Some st /\
  object (strongs st') i = object (strongs st) j /\
  object (strongs st') j = object (strongs st) i.
Proof.
  intros H. unfold step in H.
  destruct (object (strongs st) i) as [p|] eqn:Hp; [|discriminate H]. simpl in H.
  destruct (object (strongs st) j) as [q|] eqn:Hq; [|discriminate H]. simpl in H.
  injection H as <-. rewrite !SharedPtr_eta.
  assert (Hj : object (<[j := Some p]> (strongs st)) j = Some p)
    by exact (object_insert_eq _ _ _ _ Hq).
  assert (Hi' : object (<[i := Some q]> (<[j := Some p]> (strongs st))) i = Some q).
  { destruct (decide (i = j)) as [->|Hne].
    - exact (object_insert_eq _ _ _ _ Hj).
    - apply (object_insert_eq _ _ p). rewrite object_insert_ne by congruence. exact Hp. }
  assert (Hj' : object (<[i := Some q]> (<[j := Some p]> (strongs st))) j = Some p).
  { destruct (decide (i = j)) as [->|Hne].
    - rewrite list_insert_insert_eq. assert (q = p) as -> by congruence.
      exact (object_insert_eq _ _ _ _ Hq).
    - rewrite object_insert_ne by exact Hne. exact Hj. }
  split; [|split; [exact Hi'|exact Hj']].
  unfold step. cbn [strongs weaks mem]. rewrite Hi', Hj'. cbn [mbind option_bind].
  unfold SharedPtr_swap. rewrite !SharedPtr_eta.
  rewrite (swap_back (strongs st) i j p q Hp Hq). now rewrite Program_eta.
Qed.

Lemma swap_twice_is_identity_witness :
  step (SSwap 0 1) (mkProgram [Some demo_handle; Some SharedPtr_ctor] [] demo_memory)
    = Some (mkProgram [Some SharedPtr_ctor; Some demo_handle] [] demo_memory) /\
  step (SSwap 0 1) (mkProgram [Some SharedPtr_ctor; Some demo_handle] [] demo_memory)
    = Some (mkProgram [Some demo_handle; Some SharedPtr_ctor] [] demo_memory).
Proof.
  split; [reflexivity|].
  exact (proj1 (swap_twice_is_identity
                  (mkProgram [Some demo_handle; Some SharedPtr_ctor] [] demo_memory)
                  (mkProgram [Some SharedPtr_ctor; Some demo_handle] [] demo_memory)
                  0 1 eq_refl)).
Defined.

(** ** Confinement *)

Section Confined.
Variables (a : addr) (k : block_kind).

Lemma frame_refl m : frame a k m m.
Proof. split; reflexivity. Qed.

Lemma frame_trans m1 m2 m3 : frame a k m1 m2 -> frame a k m2 m3 -> frame a k m1 m3.
Proof.
  intros [H1 O1] [H2 O2]. split.
  - intros d Hd. now rewrite (H2 d Hd), (H1 d Hd).
  - intros q Hq. now rewrite (O2 q Hq), (O1 q Hq).
Qed.

Lemma confined_ret {A} (x : A) : confined a k (ret x).
Proof. intros m y m' Hi [= _ <-]. split; [exact Hi|apply frame_refl]. Qed.

Lemma confined_bind {A B} (c : M A) (f : A -> M B) :
  confined a k c -> (forall x, confined a k (f x)) -> confined a k (bind c f).
Proof.
  intros Hc Hf m y m' Hi H. apply bind_inv in H as (x & m1 & H1 & H2).
  destruct (Hc _ _ _ Hi H1) as [Hi1 F1]. destruct (Hf x _ _ _ Hi1 H2) as [Hi2 F2].
  split; [exact Hi2|exact (frame_trans _ _ _ F1 F2)].
Qed.

Lemma confined_read_shared cb : confined a k (read_shared cb).
Proof.
  intros m x m' Hi H. apply read_shared_same in H as ->. split; [exact Hi|apply frame_refl].
Qed.

Lemma confined_read_weak cb : confined a k (read_weak cb).
Proof.
  intros m x m' Hi H. apply read_weak_same in H as ->. split; [exact Hi|apply frame_refl].
Qed.

(** A store to the block that keeps its kind. *)
Lemma confined_put m b b' :
  inside a k m -> heap m !! a = Some (Block b) -> kind b' = kind b ->
  inside a k (mkMemory (<[a := Block b']> (heap m)) (objects m) (log m))
  /\ frame a k m (mkMemory (<[a := Block b']> (heap m)) (objects m) (log m)).
Proof.
  intros [HK Hin] Hb Hk. split; [split|split].
  - intros b1. cbn [heap]. rewrite lookup_insert_eq. intros [= <-].
    rewrite Hk. exact (HK b Hb).
  - exact Hin.
  - intros d Hd. cbn [heap]. now rewrite lookup_insert_ne.
  - reflexivity.
Qed.

Lemma local_Some c a0 : local a c -> c = Some a0 -> a0 = a.
Proof. intros [->| ->]; [discriminate|now intros [= ->]]. Qed.

Lemma confined_incr_shared cb : local a cb -> confined a k (incr_shared cb).
Proof.
  intros Hl m x m' Hi H. unfold incr_shared, bind, deref, put in H.
  destruct cb as [a0|]; [|discriminate H]. pose proof (local_Some _ a0 Hl eq_refl) as ->.
  destruct (heap m !! a) as [[|b]|] eqn:Hb; try discriminate H.
  injection H as _ <-. now apply (confined_put m b).
Qed.

Lemma confined_decr_shared cb : local a cb -> confined a k (decr_shared cb).
Proof.
  intros Hl m x m' Hi H. unfold decr_shared, bind, deref, put in H.
  destruct cb as [a0|]; [|discriminate H]. pose proof (local_Some _ a0 Hl eq_refl) as ->.
  destruct (heap m !! a) as [[|b]|] eqn:Hb; try discriminate H.
  injection H as _ <-. now apply (confined_put m b).
Qed.

Lemma confined_incr_weak cb : local a cb -> confined a k (incr_weak cb).
Proof.
  intros Hl m x m' Hi H. unfold incr_weak, bind, deref, put in H.
  destruct cb as [a0|]; [|discriminate H]. pose proof (local_Some _ a0 Hl eq_refl) as ->.
  destruct (heap m !! a) as [[|b]|] eqn:Hb; try discriminate H.
  injection H as _ <-. now apply (confined_put m b).
Qed.

Lemma confined_decr_weak cb : local a cb -> confined a k (decr_weak cb).
Proof.
  intros Hl m x m' Hi H. unfold decr_weak, bind, deref, put in H.
  destruct cb as [a0|]; [|discriminate H]. pose proof (local_Some _ a0 Hl eq_refl) as ->.
  destruct (heap m !! a) as [[|b]|] eqn:Hb; try discriminate H.
  injection H as _ <-. now apply (confined_put m b).
Qed.

Lemma confined_deallocate cb : local a cb -> confined a k (deallocate cb).
Proof.
  intros Hl m x m' [HK Hin] H. unfold deallocate, bind, deref in H.
  destruct cb as [a0|]; [|discriminate H]. pose proof (local_Some _ a0 Hl eq_refl) as ->.
  destruct (heap m !! a) as [[|b]|] eqn:Hb; try discriminate H.
  injection H as _ <-. split; [split|split].
  - intros b1. cbn [heap]. now rewrite lookup_delete_eq.
  - exact Hin.
  - intros d Hd. cbn [heap]. now rewrite lookup_delete_ne.
  - reflexivity.
Qed.

Lemma confined_destroy cb : local a cb -> confined a k (destroy cb).
Proof.
  intros Hl m x m' [HK Hin] H.
  destruct cb as [a0|]; [|discriminate H]. pose proof (local_Some _ a0 Hl eq_refl) as ->.
  destruct (heap m !! a) as [[|b]|] eqn:Hb;
    try (unfold destroy, bind, deref in H; rewrite Hb in H; discriminate H).
  pose proof (HK b Hb) as Hk. rewrite <- Hk in Hin.
  rewrite (destroy_inert_objects m a b Hb Hin) in H. injection H as _ <-.
  rewrite Hk in *. split; [split|split].
  - exact HK.
  - apply (payload_inert_subseteq a k m); [|exact Hin]. cbn [objects].
    destruct (payload_of a k); [apply delete_subseteq|reflexivity].
  - reflexivity.
  - intros q Hq. cbn [objects]. destruct (payload_of a k) as [q0|]; [|reflexivity].
    apply lookup_delete_ne. congruence.
Qed.
End Confined.

Create HintDb confined.

#[local] Hint Resolve confined_ret confined_read_shared confined_read_weak
  confined_incr_shared confined_decr_shared confined_incr_weak confined_decr_weak
  confined_deallocate confined_destroy local_None : confined.

Ltac confined :=
  repeat first
    [ solve [auto with confined]
    | apply confined_bind
    | match goal with
      | |- forall _, confined _ _ _ => intro
      | |- confined _ _ (if ?c then _ else _) => destruct c
      end ].

Section ConfinedHandles.
Variables (a : addr) (k : block_kind).

Lemma confined_WeakPtr_clear w : local a (wp_cb w) -> confined a k (WeakPtr_clear w).
Proof.
  destruct w as [p cb]. cbn [wp_cb]. intros Hl. unfold WeakPtr_clear. cbn [wp_cb].
  destruct cb; confined.
Qed.

Lemma confined_WeakPtr_dtor w : local a (wp_cb w) -> confined a k (WeakPtr_dtor w).
Proof.
  intros Hl. unfold WeakPtr_dtor.
  apply confined_bind; [now apply confined_WeakPtr_clear|intro; apply confined_ret].
Qed.

Lemma confined_SharedPtr_clear p : local a (sp_cb p) -> confined a k (SharedPtr_clear p).
Proof.
  destruct p as [q cb]. cbn [sp_cb]. intros Hl. unfold SharedPtr_clear. cbn [sp_cb].
  destruct cb; confined.
Qed.

Lemma confined_SharedPtr_dtor p : local a (sp_cb p) -> confined a k (SharedPtr_dtor p).
Proof.
  intros Hl. unfold SharedPtr_dtor.
  apply confined_bind; [now apply confined_SharedPtr_clear|intro; apply confined_ret].
Qed.

Lemma confined_SharedPtr_reset p : local a (sp_cb p) -> confined a k (SharedPtr_reset p).
Proof.
  intros Hl. unfold SharedPtr_reset, SharedPtr_swap.
  apply confined_bind; [now apply confined_SharedPtr_dtor|intro; apply confined_ret].
Qed.

Lemma confined_SharedPtr_copy_ctor p : local a (sp_cb p) -> confined a k (SharedPtr_copy_ctor p).
Proof.
  destruct p as [q cb]. cbn [sp_cb]. intros Hl. unfold SharedPtr_copy_ctor. cbn [sp_cb sp_ptr].
  destruct cb; confined.
Qed.

Lemma confined_SharedPtr_copy_ctor_Y p :
  local a (sp_cb p) -> confined a k (SharedPtr_copy_ctor_Y p).
Proof. intros Hl. unfold SharedPtr_copy_ctor_Y. confined. Qed.

Lemma confined_SharedPtr_assign p r :
  local a (sp_cb p) -> (forall s, r = Other s -> local a (sp_cb s)) ->
  confined a k (SharedPtr_assign p r).
Proof.
  intros Hp Hr. unfold SharedPtr_assign, SharedPtr_swap. destruct r as [|s]; [apply confined_ret|].
  apply confined_bind; [apply confined_SharedPtr_copy_ctor; now apply Hr|]. intros c.
  apply confined_bind; [now apply confined_SharedPtr_dtor|intro; apply confined_ret].
Qed.

Lemma confined_SharedPtr_assign_Y p s :
  local a (sp_cb p) -> local a (sp_cb s) -> confined a k (SharedPtr_assign_Y p s).
Proof.
  intros Hp Hs. unfold SharedPtr_assign_Y, SharedPtr_swap.
  apply confined_bind; [now apply confined_SharedPtr_copy_ctor_Y|]. intros c.
  apply confined_bind; [now apply confined_SharedPtr_dtor|intro; apply confined_ret].
Qed.

Lemma confined_SharedPtr_move_assign p r :
  local a (sp_cb p) -> confined a k (SharedPtr_move_assign p r).
Proof.
  intros Hp. unfold SharedPtr_move_assign, SharedPtr_move_ctor, SharedPtr_swap.
  destruct r as [|s];
    (apply confined_bind; [apply confined_SharedPtr_dtor|intro; apply confined_ret]);
    cbn [sp_cb]; [apply local_None|exact Hp].
Qed.

Lemma confined_WeakPtr_ctor_shared p : local a (sp_cb p) -> confined a k (WeakPtr_ctor_shared p).
Proof. intros Hl. unfold WeakPtr_ctor_shared. confined. Qed.

Lemma confined_WeakPtr_ctor_shared_Y p :
  local a (sp_cb p) -> confined a k (WeakPtr_ctor_shared_Y p).
Proof.
  intros Hl. unfold WeakPtr_ctor_shared_Y. destruct (sp_cb p) eqn:E; [|apply confined_ret].
  confined.
Qed.

Lemma confined_WeakPtr_copy_ctor w : local a (wp_cb w) -> confined a k (WeakPtr_copy_ctor w).
Proof. intros Hl. unfold WeakPtr_copy_ctor. confined. Qed.

Lemma confined_WeakPtr_copy_ctor_Y w : local a (wp_cb w) -> confined a k (WeakPtr_copy_ctor_Y w).
Proof.
  intros Hl. unfold WeakPtr_copy_ctor_Y. destruct (wp_cb w) eqn:E; [|apply confined_ret].
  confined.
Qed.

Lemma confined_WeakPtr_assign w r :
  local a (wp_cb w) -> (forall v, r = Other v -> local a (wp_cb v)) ->
  confined a k (WeakPtr_assign w r).
Proof.
  intros Hp Hr. unfold WeakPtr_assign, WeakPtr_swap. destruct r as [|v]; [apply confined_ret|].
  apply confined_bind; [apply confined_WeakPtr_copy_ctor; now apply Hr|]. intros c.
  apply confined_bind; [now apply confined_WeakPtr_dtor|intro; apply confined_ret].
Qed.

Lemma confined_WeakPtr_assign_Y w v :
  local a (wp_cb w) -> local a (wp_cb v) -> confined a k (WeakPtr_assign_Y w v).
Proof.
  intros Hp Hs. unfold WeakPtr_assign_Y, WeakPtr_swap.
  apply confined_bind; [now apply confined_WeakPtr_copy_ctor_Y|]. intros c.
  apply confined_bind; [now apply confined_WeakPtr_dtor|intro; apply confined_ret].
Qed.

Lemma confined_WeakPtr_move_assign w r :
  local a (wp_cb w) -> confined a k (WeakPtr_move_assign w r).
Proof.
  intros Hp. unfold WeakPtr_move_assign, WeakPtr_move_ctor, WeakPtr_swap.
  destruct r as [|v];
    (apply confined_bind; [apply confined_WeakPtr_dtor|intro; apply confined_ret]);
    cbn [wp_cb]; [apply local_None|exact Hp].
Qed.

Lemma confined_WeakPtr_lock w : local a (wp_cb w) -> confined a k (WeakPtr_lock w).
Proof.
  destruct w as [p cb]. cbn [wp_cb]. intros Hl.
  unfold WeakPtr_lock, WeakPtr_expired, WeakPtr_use_count, WeakPtr_copy_ctor,
    SharedPtr_ctor_weak. cbn [wp_cb wp_ptr].
  apply confined_bind.
  { apply confined_bind; [destruct cb; confined|intro; apply confined_ret]. }
  intros e. destruct e; [apply confined_ret|].
  unfold bind at 1. unfold bind at 1.
  intros m x m' Hi H.
  destruct (incr_weak cb m) as [u m1| |] eqn:E1; try discriminate H.
  destruct (confined_incr_weak a k cb Hl m u m1 Hi E1) as [Hi1 F1].
  unfold ret in H at 1. cbn [wp_cb wp_ptr] in H.
  assert (Hrest : confined a k
            (do r <- match cb with
                     | Some a0 =>
                         do s <- read_shared cb;
                         if s =? 0 then ret (mkSharedPtr nullptr nullptr)
                         else incr_shared cb ;;
                              ret (mkSharedPtr (match p with
                                                | Some p0 => Some p0
                                                | None => Some (get_ptr a0)
                                                end) cb)
                     | None => ret (mkSharedPtr nullptr cb)
                     end;
             WeakPtr_dtor (mkWeakPtr p cb) ;; ret r)).
  { apply confined_bind; [destruct cb; confined|]. intros r.
    apply confined_bind; [now apply confined_WeakPtr_dtor|intro; apply confined_ret]. }
  destruct (Hrest m1 x m' Hi1) as [Hi2 F2].
  { rewrite <- H. unfold bind. destruct cb; reflexivity. }
  split; [exact Hi2|exact (frame_trans a k _ _ _ F1 F2)].
Qed.

Lemma Inv_inside st : Inv a k st -> inside a k (mem st).
Proof.
  intros HI. split; [now apply Inv_kind_ok|]. destruct HI as [_ _ (_ & _ & Hin)]. exact Hin.
Qed.

Lemma step_frame o st st' :
  Inv a k st -> step o st = Some st' -> frame a k (mem st) (mem st').
Proof.
  intros HI H. pose proof (Inv_inside st HI) as Hi. destruct HI as [HS HW _].
  destruct o; unfold step in H;
    repeat match type of H with
    | context [object (strongs st) ?i] =>
        let E := fresh "E" in
        destruct (object (strongs st) i) eqn:E; [|discriminate H];
        apply (all_local_object _ _ _ _ _ HS) in E as (_ & E & _); simpl in H
    | context [object (weaks st) ?i] =>
        let E := fresh "E" in
        destruct (object (weaks st) i) eqn:E; [|discriminate H];
        apply (all_local_object _ _ _ _ _ HW) in E as (_ & E & _); simpl in H
    end;
    try (destruct (Nat.eqb _ _); [discriminate H|]);
    try (injection H as <-; apply frame_refl);
    apply finish_Some in H as (x & m' & E' & ->); cbn [mem];
    try (destruct x; cbn [mem]);
    refine (proj2 ((_ : confined a k _) _ _ _ Hi E'));
    first [ now apply confined_SharedPtr_copy_ctor | now apply confined_SharedPtr_copy_ctor_Y
          | apply confined_SharedPtr_assign; [assumption|intros ? ?; unfold refer in *;
              destruct (Nat.eqb _ _); simplify_eq; assumption]
          | now apply confined_SharedPtr_assign_Y
          | now apply confined_SharedPtr_move_assign | now apply confined_SharedPtr_reset
          | now apply confined_SharedPtr_dtor | now apply confined_WeakPtr_ctor_shared
          | now apply confined_WeakPtr_ctor_shared_Y | now apply confined_WeakPtr_copy_ctor
          | now apply confined_WeakPtr_copy_ctor_Y
          | apply confined_WeakPtr_assign; [assumption|intros ? ?; unfold refer in *;
              destruct (Nat.eqb _ _); simplify_eq; assumption]
          | now apply confined_WeakPtr_assign_Y | now apply confined_WeakPtr_move_assign
          | now apply confined_WeakPtr_dtor | now apply confined_WeakPtr_lock ].
Qed.

Lemma run_frame ops : forall st st',
  Inv a k st -> handles a st + Z.of_nat (length ops) <= SIZE_MAX ->
  run ops st = Some st' -> frame a k (mem st) (mem st').
Proof.
  induction ops as [|o ops IH]; intros st st' HI Hb H.
  - injection H as <-. apply frame_refl.
  - cbn [run] in H. destruct (step o st) as [st1|] eqn:E; [|discriminate H].
    rewrite length_cons, Nat2Z.inj_succ in Hb.
    assert (H0 : handles a st < SIZE_MAX) by lia.
    destruct (step_Inv a k o st st1 HI H0 E) as [HI1 Hb1].
    assert (H1 : handles a st1 + Z.of_nat (length ops) <= SIZE_MAX) by lia.
    exact (frame_trans a k _ _ _ (step_frame o st st1 HI E) (IH st1 st' HI1 H1 H)).
Qed.
End ConfinedHandles.

(** X18.  A program stays within its block and gives everything back.
    In every state that a program whose payload holds no handle reaches,
    every heap cell other than the block and every object other than the
    block's payload are as they were when the program started.  When all
    handles are gone, the heap is the initial heap without the block, and
    the calls made are one [destroy()] followed by one [deallocate()]. *)
Theorem program_confined_to_its_block (a : addr) (k : block_kind) (st0 st : Program) :
  reachable a k st0 st ->
  (forall d, d <> a -> heap (mem st) !! d = heap (mem st0) !! d) /\
  (forall q, payload_of a k <> Some q -> objects (mem st) !! q = objects (mem st0) !! q) /\
  (handles a st = 0 ->
     heap (mem st) = delete a (heap (mem st0)) /\
     log (mem st) = [EvDestroy a; EvDeallocate a]).
Proof.
  intros Hr. destruct (reachable_bounded a k st0 st Hr) as [HI _].
  destruct Hr as (H0 & ops & Hb & Hrun).
  destruct (initial_Inv a k st0 H0) as [HI0 Hh0].
  assert (Hb0 : handles a st0 + Z.of_nat (length ops) <= SIZE_MAX) by lia.
  destruct (run_frame a k ops st0 st HI0 Hb0 Hrun) as [HF HO].
  split; [exact HF|]. split; [exact HO|]. intros Hz.
  pose proof (count_refs_nonneg sp_cb a (strongs st)).
  pose proof (count_refs_nonneg wp_cb a (weaks st)).
  unfold handles, strong_handles, weak_handles in Hz.
  destruct HI as [_ _ (Hh & Hl & _)]. unfold strong_handles, weak_handles in Hh, Hl.
  replace (count_refs sp_cb a (strongs st)) with 0 in Hh, Hl by lia.
  replace (count_refs wp_cb a (weaks st)) with 0 in Hh, Hl by lia.
  split; [|exact Hl]. apply map_eq. intros d. destruct (decide (d = a)) as [->|Hd].
  - now rewrite lookup_delete_eq.
  - now rewrite lookup_delete_ne, (HF d Hd) by congruence.
Qed.

Lemma program_confined_to_its_block_witness :
  exists st, run strong_last demo_program = Some st /\
    heap (mem st) = delete 0%N (heap demo_memory) /\
    log (mem st) = [EvDestroy 0%N; EvDeallocate 0%N].
Proof.
  assert (Hr : reachable 0%N MakeSharedControlBlock demo_program
                 (mkProgram [Some SharedPtr_ctor; None] [None; Some WeakPtr_ctor; None]
                    (mkMemory ∅ ∅ [EvDestroy 0%N; EvDeallocate 0%N]))).
  { split.
    - exists demo_handle. repeat split.
    - exists strong_last. split; [reflexivity|vm_compute; reflexivity]. }
  eexists. split; [vm_compute; reflexivity|].
  apply (program_confined_to_its_block 0%N MakeSharedControlBlock demo_program _ Hr).
  vm_compute; reflexivity.
Defined.
